(** * GoVid: a shallow embedding of the job core and of the filter-graph builders

    The development follows the Go sources package by package.  Go's
    [float64] is Rocq's primitive binary64 float, Go's [string] is a
    sequence of bytes ([string] of [ascii]), Go's [int] is [Z], slices are
    lists and maps keyed by strings are [gmap]s.  Library calls the code
    relies on ([fmt.Sprintf], [strings.Join], [path/filepath],
    [encoding/json], [semaphore.Weighted]) are modelled in [Module GoStd]
    from their documented behaviour. *)

From Stdlib Require Import ZArith List Ascii String Floats DecimalString Lia.
From Stdlib Require DecimalFacts DecimalPos.
From stdpp Require Import base option list strings gmap.

Local Open Scope Z_scope.

(* ===================================================================== *)
(** * Go standard library models *)
(* ===================================================================== *)

Module GoStd.

(** ** [fmt]: the verbs the builders use *)

(** [%d] on an integer. *)
Definition fmt_d (z : Z) : string :=
  NilZero.string_of_int (Z.to_int z).

(** A non-negative integer in exactly [n] digits, zero padded on the left
    (the low [n] digits, most significant first). *)
Fixpoint pad_digits (n : nat) (z : Z) : string :=
  match n with
  | O => EmptyString
  | S n => pad_digits n (z / 10) +:+ fmt_d (z mod 10)
  end.

Definition two_digits (z : Z) : string := pad_digits 2 z.

(** The nearest integer to [n * 2^e], ties to even: the rounding that
    [strconv] applies to the exact decimal expansion of a binary float. *)
Definition round_half_even (n e : Z) : Z :=
  if 0 <=? e then n * 2 ^ e
  else
    let d := 2 ^ (- e) in
    let q := n / d in
    let r := n mod d in
    if 2 * r <? d then q
    else if d <? 2 * r then q + 1
    else if Z.even q then q else q + 1.

(** [%.Nf] on a float64, for a precision [N] of at least one digit. *)
Definition fmt_f (prec : nat) (x : float) : string :=
  match Prim2SF x with
  | S754_nan => "NaN"
  | S754_infinity s => if s then "-Inf" else "+Inf"
  | S754_zero s => (if s then "-" else "") +:+ "0." +:+ pad_digits prec 0
  | S754_finite s m e =>
      let scale := 10 ^ Z.of_nat prec in
      let h := round_half_even (Z.pos m * scale) e in
      (if s then "-" else "") +:+ fmt_d (h / scale) +:+ "." +:+ pad_digits prec (h mod scale)
  end.

(** [%.2f] and [%.6f]. *)
Definition fmt_2f : float -> string := fmt_f 2.
Definition fmt_6f : float -> string := fmt_f 6.

(** ** [strings] *)

(** [strings.Join]. *)
Fixpoint Join (elems : list string) (sep : string) : string :=
  match elems with
  | [] => ""
  | [s] => s
  | s :: rest => s +:+ sep +:+ Join rest sep
  end.

(** [strings.HasPrefix]. *)
Definition HasPrefix (s p : string) : bool := String.prefix p s.

(** [s[n:]]: the bytes of [s] from index [n] on. *)
Fixpoint drop_str (n : nat) (s : string) : string :=
  match n, s with
  | O, _ => s
  | S n, String _ s' => drop_str n s'
  | S _, EmptyString => EmptyString
  end.

(** [s[:n]]. *)
Fixpoint take_str (n : nat) (s : string) : string :=
  match n, s with
  | O, _ => EmptyString
  | S n, String c s' => String c (take_str n s')
  | S _, EmptyString => EmptyString
  end.

Definition len (s : string) : Z := Z.of_nat (String.length s).

(** ** [path/filepath] on a Unix host *)

Definition is_sep (c : ascii) : bool := Ascii.eqb c "/".

(** The elements of a path between separators. *)
Fixpoint split_sep (s : string) : list string :=
  match s with
  | EmptyString => [EmptyString]
  | String c s' =>
      if is_sep c then EmptyString :: split_sep s'
      else match split_sep s' with
           | x :: xs => String c x :: xs
           | [] => [String c EmptyString]
           end
  end.

(** One step of [Clean]'s loop over the elements; [out] is the buffer,
    last element first.  An empty element and [.] are dropped, [..]
    removes the last real element, or is kept in a path that is not
    rooted and has nothing left to remove. *)
Definition clean_step (rooted : bool) (out : list string) (elem : string) : list string :=
  if String.eqb elem "" || String.eqb elem "." then out
  else if String.eqb elem ".." then
    match out with
    | top :: below => if String.eqb top ".." then elem :: out else below
    | [] => if rooted then [] else [elem]
    end
  else elem :: out.

(** [filepath.Clean]. *)
Definition Clean (path : string) : string :=
  if String.eqb path "" then "."
  else
    let rooted := HasPrefix path "/" in
    let out := rev (fold_left (clean_step rooted) (split_sep path) []) in
    let body := Join out "/" in
    if rooted then "/" +:+ body
    else if String.eqb body "" then "." else body.

(** [path[:i+1]] for the last separator index [i] ([""] without one). *)
Fixpoint up_to_last_sep (s : string) : string :=
  match s with
  | EmptyString => EmptyString
  | String c s' =>
      let r := up_to_last_sep s' in
      if is_sep c then String c r
      else if String.eqb r "" then EmptyString else String c r
  end.

(** [filepath.Dir]. *)
Definition Dir (path : string) : string := Clean (up_to_last_sep path).

(** [filepath.Base]. *)
Definition Base (path : string) : string :=
  if String.eqb path "" then "."
  else match rev (filter (fun e => negb (String.eqb e "")) (split_sep path)) with
       | b :: _ => b
       | [] => "/"
       end.

(** The suffix of an element from its last dot on. *)
Fixpoint from_last_dot (s : string) : string :=
  match s with
  | EmptyString => EmptyString
  | String c s' =>
      let r := from_last_dot s' in
      if negb (String.eqb r "") then r
      else if Ascii.eqb c "." then s else EmptyString
  end.

(** [filepath.Ext]. *)
Definition Ext (path : string) : string :=
  match rev (split_sep path) with
  | e :: _ => from_last_dot e
  | [] => EmptyString
  end.

(** [filepath.Join]: empty elements are ignored, the rest is cleaned. *)
Definition PathJoin (elems : list string) : string :=
  match filter (fun e => negb (String.eqb e "")) elems with
  | [] => EmptyString
  | es => Clean (Join es "/")
  end.

(** ** [time] and [os] *)

(** An instant, in seconds since the epoch. *)
Definition Time := Z.

(** [t.Before(u)]. *)
Definition Before (t u : Time) : bool := t <? u.

(** [t.AddDate(0, 0, days)] in UTC. *)
Definition AddDays (t : Time) (days : Z) : Time := t + days * 86400.

Record File := {
  f_isDir : bool;
  f_modTime : Time;
  f_data : string
}.

(** The file tree, keyed by cleaned path; ["."] is the working directory. *)
Abbreviation FS := (gmap string File).

Inductive OsError :=
| ErrNotExist
| ErrOther (msg : string).

Definition is_dir (fs : FS) (dir : string) : bool :=
  match fs !! dir with
  | Some f => f_isDir f
  | None => false
  end.

Record DirEntry := {
  Name : string;
  IsDir : bool;
  ModTime : Time
}.

Fixpoint insert_entry (e : DirEntry) (l : list DirEntry) : list DirEntry :=
  match l with
  | [] => [e]
  | x :: xs => if String.leb (Name e) (Name x) then e :: l else x :: insert_entry e xs
  end.

(** [os.ReadDir]: the entries of a directory, sorted by file name. *)
Definition ReadDir (fs : FS) (dir : string) : OsError + list DirEntry :=
  let d := Clean dir in
  match fs !! d with
  | None => inl ErrNotExist
  | Some f =>
      if f_isDir f then
        inr (foldr insert_entry []
               (omap (fun '(p, g) =>
                        if negb (String.eqb p d) && String.eqb (Dir p) d
                        then Some {| Name := Base p; IsDir := f_isDir g; ModTime := f_modTime g |}
                        else None)
                     (map_to_list fs)))
      else inl (ErrOther "not a directory")
  end.

(** [os.WriteFile]: creates or replaces a regular file in an existing
    directory. *)
Definition WriteFile (fs : FS) (now : Time) (name data : string) : OsError + FS :=
  let p := Clean name in
  if is_dir fs p then inl (ErrOther "is a directory")
  else if is_dir fs (Dir p) then
    inr (<[p := {| f_isDir := false; f_modTime := now; f_data := data |}]> fs)
  else inl ErrNotExist.

(** [os.ReadFile]. *)
Definition ReadFile (fs : FS) (name : string) : OsError + string :=
  match fs !! Clean name with
  | None => inl ErrNotExist
  | Some f => if f_isDir f then inl (ErrOther "is a directory") else inr (f_data f)
  end.

(** [os.Remove] of a regular file. *)
Definition Remove (fs : FS) (name : string) : OsError + FS :=
  let p := Clean name in
  match fs !! p with
  | None => inl ErrNotExist
  | Some f => if f_isDir f then inl (ErrOther "directory not empty") else inr (delete p fs)
  end.


(** ** [unicode/utf8] *)

Definition byte (c : ascii) : Z := Z.of_N (N_of_ascii c).
Definition chr (z : Z) : ascii := ascii_of_N (Z.to_N z).

Definition in_range (lo hi : Z) (c : ascii) : bool :=
  (lo <=? byte c) && (byte c <=? hi).

(** A continuation byte. *)
Definition cont (c : ascii) : bool := in_range 128 191 c.

(** The second byte a three-byte and a four-byte leader accept. *)
Definition second3 (c0 c1 : ascii) : bool :=
  if byte c0 =? 224 then in_range 160 191 c1
  else if byte c0 =? 237 then in_range 128 159 c1
  else cont c1.

Definition second4 (c0 c1 : ascii) : bool :=
  if byte c0 =? 240 then in_range 144 191 c1
  else if byte c0 =? 244 then in_range 128 143 c1
  else cont c1.

(** The width of the encoding that starts [s], as [utf8.DecodeRuneInString]
    reports it; [0] stands for the empty string and for [RuneError] of
    width one (an invalid byte). *)
Definition utf8_size (s : string) : nat :=
  match s with
  | EmptyString => 0%nat
  | String c0 s1 =>
      if byte c0 <? 128 then 1%nat
      else if in_range 194 223 c0 then
        match s1 with
        | String c1 _ => if cont c1 then 2%nat else 0%nat
        | _ => 0%nat
        end
      else if in_range 224 239 c0 then
        match s1 with
        | String c1 (String c2 _) => if second3 c0 c1 && cont c2 then 3%nat else 0%nat
        | _ => 0%nat
        end
      else if in_range 240 244 c0 then
        match s1 with
        | String c1 (String c2 (String c3 _)) =>
            if second4 c0 c1 && cont c2 && cont c3 then 4%nat else 0%nat
        | _ => 0%nat
        end
      else 0%nat
  end.

(** The encoding of U+FFFD, the replacement character. *)
Definition replacement : string :=
  String (chr 239) (String (chr 191) (String (chr 189) EmptyString)).

(** [utf8.EncodeRune]. *)
Definition utf8_encode (r : Z) : string :=
  if r <? 0 then replacement
  else if r <? 128 then String (chr r) EmptyString
  else if r <? 2048 then
    String (chr (192 + r / 64)) (String (chr (128 + r mod 64)) EmptyString)
  else if (55296 <=? r) && (r <? 57344) then replacement
  else if r <? 65536 then
    String (chr (224 + r / 4096))
      (String (chr (128 + (r / 64) mod 64)) (String (chr (128 + r mod 64)) EmptyString))
  else if r <=? 1114111 then
    String (chr (240 + r / 262144))
      (String (chr (128 + (r / 4096) mod 64))
         (String (chr (128 + (r / 64) mod 64)) (String (chr (128 + r mod 64)) EmptyString)))
  else replacement.

(** The units a byte string splits into when it is read as UTF-8. *)
Inductive rune :=
| RAscii (c : ascii)
| RMulti (bytes : string)
| RInvalid (c : ascii).

Fixpoint runes (s : string) : list rune :=
  match s with
  | EmptyString => []
  | String c0 s1 =>
      if byte c0 <? 128 then RAscii c0 :: runes s1
      else
        match utf8_size s, s1 with
        | 2%nat, String c1 s2 =>
            RMulti (String c0 (String c1 EmptyString)) :: runes s2
        | 3%nat, String c1 (String c2 s3) =>
            RMulti (String c0 (String c1 (String c2 EmptyString))) :: runes s3
        | 4%nat, String c1 (String c2 (String c3 s4)) =>
            RMulti (String c0 (String c1 (String c2 (String c3 EmptyString)))) :: runes s4
        | _, _ => RInvalid c0 :: runes s1
        end
  end.

Definition concat_str (l : list string) : string := foldr String.append EmptyString l.

(** The bytes a rune contributes once invalid bytes are replaced. *)
Definition rune_bytes (r : rune) : string :=
  match r with
  | RAscii c => String c EmptyString
  | RMulti bs => bs
  | RInvalid _ => replacement
  end.

(** A string coerced to valid UTF-8, each invalid byte replaced by U+FFFD:
    what [encoding/json] stores and what it gives back. *)
Definition ToValidUTF8 (s : string) : string := concat_str (map rune_bytes (runes s)).

Definition is_valid_rune (r : rune) : bool :=
  match r with
  | RInvalid _ => false
  | _ => true
  end.

(** [utf8.ValidString]. *)
Definition ValidString (s : string) : bool := forallb is_valid_rune (runes s).

(** ** [encoding/json] on objects of strings and integers *)

Module json.

Definition dquote : ascii := "034"%char.
Definition backslash : ascii := "092"%char.
Definition nl : string := String "010"%char EmptyString.

Definition hex_digit (n : Z) : ascii :=
  match String.get (Z.to_nat n) "0123456789abcdef" with
  | Some c => c
  | None => "0"%char
  end.

(** How the encoder writes one ASCII byte inside a string (HTML escaping
    is on for [Marshal] and [MarshalIndent]). *)
Definition esc_ascii (c : ascii) : string :=
  let b := byte c in
  if (b =? 34) || (b =? 92) then String backslash (String c EmptyString)
  else if b =? 8 then String backslash "b"
  else if b =? 12 then String backslash "f"
  else if b =? 10 then String backslash "n"
  else if b =? 13 then String backslash "r"
  else if b =? 9 then String backslash "t"
  else if (b <? 32) || (b =? 60) || (b =? 62) || (b =? 38) then
    String backslash
      (String "u" (String "0" (String "0"
         (String (hex_digit (b / 16)) (String (hex_digit (b mod 16)) EmptyString)))))
  else String c EmptyString.

Definition line_sep : string := String (chr 226) (String (chr 128) (String (chr 168) EmptyString)).
Definition para_sep : string := String (chr 226) (String (chr 128) (String (chr 169) EmptyString)).

Definition enc_rune (r : rune) : string :=
  match r with
  | RAscii c => esc_ascii c
  | RMulti bs =>
      if String.eqb bs line_sep then String backslash "u2028"
      else if String.eqb bs para_sep then String backslash "u2029"
      else bs
  | RInvalid _ => String backslash "ufffd"
  end.

(** The text between the quotes of an encoded string. *)
Definition quote_body (s : string) : string := concat_str (map enc_rune (runes s)).

(** A string value as the encoder writes it. *)
Definition quote (s : string) : string :=
  String dquote (quote_body s +:+ String dquote EmptyString).

Definition hex_val (c : ascii) : option Z :=
  let b := byte c in
  if (48 <=? b) && (b <=? 57) then Some (b - 48)
  else if (97 <=? b) && (b <=? 102) then Some (b - 87)
  else if (65 <=? b) && (b <=? 70) then Some (b - 55)
  else None.

(** [getu4] on the four characters after a backslash and [u]. *)
Definition hex4 (h1 h2 h3 h4 : ascii) : option Z :=
  a ← hex_val h1; b ← hex_val h2; c ← hex_val h3; d ← hex_val h4;
  Some (((a * 16 + b) * 16 + c) * 16 + d).

Definition is_surrogate (r : Z) : bool := (55296 <=? r) && (r <? 57344).

(** [utf16.DecodeRune]: [None] is the replacement character. *)
Definition decode_pair (r1 r2 : Z) : option Z :=
  if (55296 <=? r1) && (r1 <? 56320) && (56320 <=? r2) && (r2 <? 57344)
  then Some ((r1 - 55296) * 1024 + (r2 - 56320) + 65536)
  else None.

Definition simple_escape (e : ascii) : option ascii :=
  let b := byte e in
  if (b =? 34) || (b =? 92) || (b =? 47) then Some e
  else if b =? 98 then Some (chr 8)
  else if b =? 102 then Some (chr 12)
  else if b =? 110 then Some (chr 10)
  else if b =? 114 then Some (chr 13)
  else if b =? 116 then Some (chr 9)
  else None.

Definition prepend (bs : string) (r : option (string * string)) : option (string * string) :=
  match r with
  | Some (v, rest) => Some (bs +:+ v, rest)
  | None => None
  end.

(** The decoder on the text after an opening quote: the decoded value and
    what follows the closing quote. *)
Fixpoint read_string (s : string) : option (string * string) :=
  match s with
  | EmptyString => None
  | String c0 s1 =>
      if byte c0 <? 128 then
        if byte c0 =? 34 then Some (EmptyString, s1)
        else if byte c0 =? 92 then
          match s1 with
          | String e s2 =>
              if byte e =? 117 then
                match s2 with
                | String h1 (String h2 (String h3 (String h4 s3))) =>
                    match hex4 h1 h2 h3 h4 with
                    | None => None
                    | Some rr =>
                        if is_surrogate rr then
                          match s3 with
                          | String b1 (String u1
                              (String k1 (String k2 (String k3 (String k4 s4))))) =>
                              match
                                (if (byte b1 =? 92) && (byte u1 =? 117)
                                 then rr1 ← hex4 k1 k2 k3 k4; decode_pair rr rr1
                                 else None)
                              with
                              | Some dec => prepend (utf8_encode dec) (read_string s4)
                              | None => prepend replacement (read_string s3)
                              end
                          | _ => prepend replacement (read_string s3)
                          end
                        else prepend (utf8_encode rr) (read_string s3)
                    end
                | _ => None
                end
              else
                match simple_escape e with
                | Some c => prepend (String c EmptyString) (read_string s2)
                | None => None
                end
          | EmptyString => None
          end
        else if byte c0 <? 32 then None
        else prepend (String c0 EmptyString) (read_string s1)
      else
        match utf8_size s, s1 with
        | 2%nat, String c1 s2 =>
            prepend (String c0 (String c1 EmptyString)) (read_string s2)
        | 3%nat, String c1 (String c2 s3) =>
            prepend (String c0 (String c1 (String c2 EmptyString))) (read_string s3)
        | 4%nat, String c1 (String c2 (String c3 s4)) =>
            prepend (String c0 (String c1 (String c2 (String c3 EmptyString))))
              (read_string s4)
        | _, _ => prepend replacement (read_string s1)
        end
  end.

Definition is_digit (c : ascii) : bool := (48 <=? byte c) && (byte c <=? 57).

(** The longest prefix of digits, and the rest. *)
Fixpoint span_digits (s : string) : string * string :=
  match s with
  | EmptyString => (EmptyString, EmptyString)
  | String c s' =>
      if is_digit c then let '(d, r) := span_digits s' in (String c d, r)
      else (EmptyString, s)
  end.

Definition starts_number_tail (s : string) : bool :=
  match s with
  | String c _ => (byte c =? 46) || (byte c =? 101) || (byte c =? 69)
  | EmptyString => false
  end.

(** An integer literal: an optional minus, then [0] or digits without a
    leading zero; a fraction or an exponent does not fit an [int] field. *)
Definition read_int (s : string) : option (Z * string) :=
  let '(neg, body) :=
    match s with
    | String c s' => if byte c =? 45 then (true, s') else (false, s)
    | EmptyString => (false, s)
    end in
  let '(digits, rest) := span_digits body in
  match digits with
  | EmptyString => None
  | String d more =>
      if (byte d =? 48) && negb (String.eqb more "") then None
      else if starts_number_tail rest then None
      else
        match NilZero.uint_of_string digits with
        | Some u =>
            let z := Z.of_uint u in
            Some (if neg then - z else z, rest)
        | None => None
        end
  end.

Inductive JValue :=
| JString (s : string)
| JInt (z : Z).

Definition encode_value (v : JValue) : string :=
  match v with
  | JString s => quote s
  | JInt z => fmt_d z
  end.

(** The members of an object, one per line, as [MarshalIndent] with an
    empty prefix lays them out. *)
Fixpoint encode_members (indent : string) (ms : list (string * JValue)) : string :=
  match ms with
  | [] => EmptyString
  | [(k, v)] => indent +:+ quote k +:+ ": " +:+ encode_value v +:+ nl
  | (k, v) :: rest =>
      indent +:+ quote k +:+ ": " +:+ encode_value v +:+ "," +:+ nl
        +:+ encode_members indent rest
  end.

Definition MarshalIndent (indent : string) (ms : list (string * JValue)) : string :=
  match ms with
  | [] => "{}"
  | _ => "{" +:+ nl +:+ encode_members indent ms +:+ "}"
  end.

Definition is_ws (c : ascii) : bool :=
  (byte c =? 32) || (byte c =? 9) || (byte c =? 10) || (byte c =? 13).

Fixpoint skip_ws (s : string) : string :=
  match s with
  | EmptyString => EmptyString
  | String c s' => if is_ws c then skip_ws s' else s
  end.

Definition read_value (s : string) : option (JValue * string) :=
  match s with
  | String c s' =>
      if byte c =? 34 then '(v, r) ← read_string s'; Some (JString v, r)
      else '(z, r) ← read_int s; Some (JInt z, r)
  | EmptyString => None
  end.

(** The members after the opening brace; every member costs one unit of
    fuel, and the length of the document is enough. *)
Fixpoint read_members (fuel : nat) (s : string) : option (list (string * JValue) * string) :=
  match fuel with
  | O => None
  | S fuel =>
      match skip_ws s with
      | String q s1 =>
          if byte q =? 34 then
            '(k, s2) ← read_string s1;
            match skip_ws s2 with
            | String colon s3 =>
                if byte colon =? 58 then
                  '(v, s4) ← read_value (skip_ws s3);
                  match skip_ws s4 with
                  | String d s5 =>
                      if byte d =? 44 then
                        '(ms, r) ← read_members fuel s5; Some ((k, v) :: ms, r)
                      else if byte d =? 125 then Some ([(k, v)], s5)
                      else None
                  | EmptyString => None
                  end
                else None
            | EmptyString => None
            end
          else None
      | EmptyString => None
      end
  end.

(** A whole document: one object, white space around it. *)
Definition parse_object (text : string) : option (list (string * JValue)) :=
  match skip_ws text with
  | String b s1 =>
      if byte b =? 123 then
        match skip_ws s1 with
        | String e s2 =>
            if byte e =? 125 then
              if String.eqb (skip_ws s2) "" then Some [] else None
            else
              '(ms, r) ← read_members (String.length text) s1;
              if String.eqb (skip_ws r) "" then Some ms else None
        | EmptyString => None
        end
      else None
  | EmptyString => None
  end.

(** Field names match without regard to ASCII case. *)
Definition lower (c : ascii) : ascii :=
  if (65 <=? byte c) && (byte c <=? 90) then chr (byte c + 32) else c.

Fixpoint fold_eq (a b : string) : bool :=
  match a, b with
  | EmptyString, EmptyString => true
  | String x a', String y b' => Ascii.eqb (lower x) (lower y) && fold_eq a' b'
  | _, _ => false
  end.

End json.

(** ** [time]: the layout [2006-01-02T15:04:05Z07:00] in UTC *)

(** The civil date of a day number (days since 1970-01-01). *)
Definition civil_from_days (days : Z) : Z * Z * Z :=
  let z := days + 719468 in
  let era := z / 146097 in
  let doe := z - era * 146097 in
  let yoe := (doe - doe / 1460 + doe / 36524 - doe / 146096) / 365 in
  let doy := doe - (365 * yoe + yoe / 4 - yoe / 100) in
  let mp := (5 * doy + 2) / 153 in
  let d := doy - (153 * mp + 2) / 5 + 1 in
  let m := if mp <? 10 then mp + 3 else mp - 9 in
  let y := yoe + era * 400 + (if m <=? 2 then 1 else 0) in
  (y, m, d).

Definition days_from_civil (y m d : Z) : Z :=
  let y' := if m <=? 2 then y - 1 else y in
  let era := y' / 400 in
  let yoe := y' - era * 400 in
  let mp := if 2 <? m then m - 3 else m + 9 in
  let doy := (153 * mp + 2) / 5 + d - 1 in
  let doe := yoe * 365 + yoe / 4 - yoe / 100 + doy in
  era * 146097 + doe - 719468.

Definition pad2 (z : Z) : string := two_digits z.
Definition pad4 (z : Z) : string := pad2 (z / 100) +:+ pad2 (z mod 100).

(** [t.Format("2006-01-02T15:04:05Z07:00")]. *)
Definition FormatRFC3339 (t : Time) : string :=
  let '(y, m, d) := civil_from_days (t / 86400) in
  let s := t mod 86400 in
  pad4 y +:+ "-" +:+ pad2 m +:+ "-" +:+ pad2 d +:+ "T"
    +:+ pad2 (s / 3600) +:+ ":" +:+ pad2 ((s / 60) mod 60) +:+ ":" +:+ pad2 (s mod 60) +:+ "Z".

(** The zero [time.Time]: January 1, year 1, 00:00:00 UTC. *)
Definition zeroTime : Time := -62135596800.

Definition digits_val (s : string) : option Z :=
  if forallb json.is_digit (list_ascii_of_string s) && negb (String.eqb s "")
  then Z.of_uint <$> NilZero.uint_of_string s
  else None.

(** [time.Parse] with the same layout, on a UTC instant. *)
Definition ParseRFC3339 (s : string) : option Time :=
  if (String.length s =? 20)%nat
     && String.eqb (String.substring 4 1 s) "-" && String.eqb (String.substring 7 1 s) "-"
     && String.eqb (String.substring 10 1 s) "T" && String.eqb (String.substring 13 1 s) ":"
     && String.eqb (String.substring 16 1 s) ":" && String.eqb (String.substring 19 1 s) "Z"
  then
    y ← digits_val (String.substring 0 4 s);
    m ← digits_val (String.substring 5 2 s);
    d ← digits_val (String.substring 8 2 s);
    hh ← digits_val (String.substring 11 2 s);
    mm ← digits_val (String.substring 14 2 s);
    ss ← digits_val (String.substring 17 2 s);
    let days := days_from_civil y m d in
    if (1 <=? m) && (m <=? 12) && (1 <=? d)
       && (let '(y', m', d') := civil_from_days days in (y' =? y) && (m' =? m) && (d' =? d))
       && (hh <? 24) && (mm <? 60) && (ss <? 60)
    then Some (days * 86400 + hh * 3600 + mm * 60 + ss)
    else None
  else None.
End GoStd.

(* ===================================================================== *)
(** * package models *)
(* ===================================================================== *)

Module models.
Import GoStd.

Abbreviation JobStatus := string (only parsing).

Definition JobStatusPending : JobStatus := "pending".
Definition JobStatusProcessing : JobStatus := "processing".
Definition JobStatusCompleted : JobStatus := "completed".
Definition JobStatusFailed : JobStatus := "failed".

Record VideoSegment := {
  seg_FilePath : string;
  seg_StartTime : float;
  seg_EndTime : float
}.

Abbreviation OverlayPosition := string (only parsing).
Definition PositionTopLeft : OverlayPosition := "top-left".
Definition PositionTopRight : OverlayPosition := "top-right".
Definition PositionBottomLeft : OverlayPosition := "bottom-left".
Definition PositionBottomRight : OverlayPosition := "bottom-right".
Definition PositionCenter : OverlayPosition := "center".
Definition PositionCustom : OverlayPosition := "custom".

Abbreviation AnimationType := string (only parsing).
Definition AnimationFade : AnimationType := "fade".
Definition AnimationSlide : AnimationType := "slide".
Definition AnimationZoom : AnimationType := "zoom".
Definition AnimationNone : AnimationType := "none".

Abbreviation SlideDirection := string (only parsing).
Definition SlideFromLeft : SlideDirection := "left".
Definition SlideFromRight : SlideDirection := "right".
Definition SlideFromTop : SlideDirection := "top".
Definition SlideFromBottom : SlideDirection := "bottom".

(** A pointer field is an [option]: [None] is [nil]. *)
Record ImageOverlay := {
  ov_FilePath : string;
  ov_Position : OverlayPosition;
  ov_X : option Z;
  ov_Y : option Z;
  ov_StartTime : float;
  ov_EndTime : float;
  ov_Animation : AnimationType;
  ov_FadeDuration : option float;
  ov_SlideDirection : option SlideDirection;
  ov_SlideDuration : option float;
  ov_ZoomFrom : option float;
  ov_ZoomTo : option float
}.

Record AudioConfig := {
  au_FilePath : string;
  au_Volume : float;
  au_StartTime : option float;
  au_EndTime : option float;
  au_FadeIn : option float;
  au_FadeOut : option float
}.

Record MergeVideoRequest := { mr_Segments : list VideoSegment }.

Record OverlayRequest := {
  or_VideoPath : string;
  or_Overlay : ImageOverlay
}.

Record AudioRequest := {
  ar_VideoPath : string;
  ar_Audio : AudioConfig
}.

Record CompleteProcessRequest := {
  cr_Segments : list VideoSegment;
  cr_Overlays : list ImageOverlay;
  cr_Audio : option AudioConfig
}.

Record WebhookHeader := {
  wh_Key : string;
  wh_Value : string
}.

Record CombineVideosRequest := {
  cv_Videos : list string;
  cv_WebhookURL : string;
  cv_WebhookHeader : option WebhookHeader
}.

Record JobResponse := {
  jr_JobID : string;
  jr_Status : JobStatus;
  jr_Message : string;
  jr_CreatedAt : Time
}.

Record JobStatusResponse := {
  sr_JobID : string;
  sr_Status : JobStatus;
  sr_Progress : Z;
  sr_OutputPath : string;
  sr_S3URL : string;
  sr_Error : string;
  sr_CreatedAt : Time;
  sr_UpdatedAt : Time
}.

Record Job := {
  job_ID : string;
  job_Status : JobStatus;
  job_Progress : Z;
  job_OutputPath : string;
  job_S3URL : string;
  job_WebhookURL : string;
  job_WebhookHeader : option WebhookHeader;
  job_Error : string;
  job_CreatedAt : Time;
  job_UpdatedAt : Time
}.

(** ** The methods of [Job], on the value a pointer refers to; [now] is
    the reading of [time.Now()] inside the method. *)

Definition NewJob (now : Time) (id : string) : Job :=
  {| job_ID := id; job_Status := JobStatusPending; job_Progress := 0;
     job_OutputPath := ""; job_S3URL := ""; job_WebhookURL := "";
     job_WebhookHeader := None; job_Error := "";
     job_CreatedAt := now; job_UpdatedAt := now |}.

Definition UpdateStatus (status : JobStatus) (now : Time) (j : Job) : Job :=
  {| job_ID := job_ID j; job_Status := status; job_Progress := job_Progress j;
     job_OutputPath := job_OutputPath j; job_S3URL := job_S3URL j;
     job_WebhookURL := job_WebhookURL j; job_WebhookHeader := job_WebhookHeader j;
     job_Error := job_Error j;
     job_CreatedAt := job_CreatedAt j; job_UpdatedAt := now |}.

Definition UpdateProgress (progress : Z) (now : Time) (j : Job) : Job :=
  {| job_ID := job_ID j; job_Status := job_Status j; job_Progress := progress;
     job_OutputPath := job_OutputPath j; job_S3URL := job_S3URL j;
     job_WebhookURL := job_WebhookURL j; job_WebhookHeader := job_WebhookHeader j;
     job_Error := job_Error j;
     job_CreatedAt := job_CreatedAt j; job_UpdatedAt := now |}.

Definition SetOutput (path : string) (now : Time) (j : Job) : Job :=
  {| job_ID := job_ID j; job_Status := job_Status j; job_Progress := job_Progress j;
     job_OutputPath := path; job_S3URL := job_S3URL j;
     job_WebhookURL := job_WebhookURL j; job_WebhookHeader := job_WebhookHeader j;
     job_Error := job_Error j;
     job_CreatedAt := job_CreatedAt j; job_UpdatedAt := now |}.

Definition SetS3URL (url : string) (now : Time) (j : Job) : Job :=
  {| job_ID := job_ID j; job_Status := job_Status j; job_Progress := job_Progress j;
     job_OutputPath := job_OutputPath j; job_S3URL := url;
     job_WebhookURL := job_WebhookURL j; job_WebhookHeader := job_WebhookHeader j;
     job_Error := job_Error j;
     job_CreatedAt := job_CreatedAt j; job_UpdatedAt := now |}.

Definition SetError (err : string) (now : Time) (j : Job) : Job :=
  {| job_ID := job_ID j; job_Status := JobStatusFailed; job_Progress := job_Progress j;
     job_OutputPath := job_OutputPath j; job_S3URL := job_S3URL j;
     job_WebhookURL := job_WebhookURL j; job_WebhookHeader := job_WebhookHeader j;
     job_Error := err;
     job_CreatedAt := job_CreatedAt j; job_UpdatedAt := now |}.

(** The direct field write [job.WebhookURL = url] of the combine handlers. *)
Definition setWebhookURL (url : string) (j : Job) : Job :=
  {| job_ID := job_ID j; job_Status := job_Status j; job_Progress := job_Progress j;
     job_OutputPath := job_OutputPath j; job_S3URL := job_S3URL j;
     job_WebhookURL := url; job_WebhookHeader := job_WebhookHeader j;
     job_Error := job_Error j;
     job_CreatedAt := job_CreatedAt j; job_UpdatedAt := job_UpdatedAt j |}.

Definition GetStatus (j : Job) : JobStatusResponse :=
  {| sr_JobID := job_ID j; sr_Status := job_Status j; sr_Progress := job_Progress j;
     sr_OutputPath := job_OutputPath j; sr_S3URL := job_S3URL j; sr_Error := job_Error j;
     sr_CreatedAt := job_CreatedAt j; sr_UpdatedAt := job_UpdatedAt j |}.

(** ** persistence.go *)

Record jobData := {
  jd_ID : string;
  jd_Status : JobStatus;
  jd_Progress : Z;
  jd_OutputPath : string;
  jd_Error : string;
  jd_CreatedAt : string;
  jd_UpdatedAt : string
}.

(** The struct tags of [jobData], in field order. *)
Definition jobData_members (d : jobData) : list (string * json.JValue) :=
  [("id", json.JString (jd_ID d));
   ("status", json.JString (jd_Status d));
   ("progress", json.JInt (jd_Progress d));
   ("output_path", json.JString (jd_OutputPath d));
   ("error", json.JString (jd_Error d));
   ("created_at", json.JString (jd_CreatedAt d));
   ("updated_at", json.JString (jd_UpdatedAt d))].

(** [json.MarshalIndent(data, "", "  ")]. *)
Definition Marshal_jobData (d : jobData) : string :=
  json.MarshalIndent "  " (jobData_members d).

Definition zero_jobData : jobData :=
  {| jd_ID := ""; jd_Status := ""; jd_Progress := 0; jd_OutputPath := "";
     jd_Error := ""; jd_CreatedAt := ""; jd_UpdatedAt := "" |}.

Definition int_range (z : Z) : bool := (- 2 ^ 63 <=? z) && (z <? 2 ^ 63).

(** One member of the document stored into the struct: a value of the
    wrong kind, or an integer out of range, is a decoding error; a key
    that names no field is skipped. *)
Definition assign_member (d : jobData) (m : string * json.JValue) : option jobData :=
  let '(k, v) := m in
  if json.fold_eq k "id" then
    match v with
    | json.JString s =>
        Some {| jd_ID := s; jd_Status := jd_Status d; jd_Progress := jd_Progress d;
                jd_OutputPath := jd_OutputPath d; jd_Error := jd_Error d;
                jd_CreatedAt := jd_CreatedAt d; jd_UpdatedAt := jd_UpdatedAt d |}
    | _ => None
    end
  else if json.fold_eq k "status" then
    match v with
    | json.JString s =>
        Some {| jd_ID := jd_ID d; jd_Status := s; jd_Progress := jd_Progress d;
                jd_OutputPath := jd_OutputPath d; jd_Error := jd_Error d;
                jd_CreatedAt := jd_CreatedAt d; jd_UpdatedAt := jd_UpdatedAt d |}
    | _ => None
    end
  else if json.fold_eq k "progress" then
    match v with
    | json.JInt z =>
        if int_range z then
          Some {| jd_ID := jd_ID d; jd_Status := jd_Status d; jd_Progress := z;
                  jd_OutputPath := jd_OutputPath d; jd_Error := jd_Error d;
                  jd_CreatedAt := jd_CreatedAt d; jd_UpdatedAt := jd_UpdatedAt d |}
        else None
    | _ => None
    end
  else if json.fold_eq k "output_path" then
    match v with
    | json.JString s =>
        Some {| jd_ID := jd_ID d; jd_Status := jd_Status d; jd_Progress := jd_Progress d;
                jd_OutputPath := s; jd_Error := jd_Error d;
                jd_CreatedAt := jd_CreatedAt d; jd_UpdatedAt := jd_UpdatedAt d |}
    | _ => None
    end
  else if json.fold_eq k "error" then
    match v with
    | json.JString s =>
        Some {| jd_ID := jd_ID d; jd_Status := jd_Status d; jd_Progress := jd_Progress d;
                jd_OutputPath := jd_OutputPath d; jd_Error := s;
                jd_CreatedAt := jd_CreatedAt d; jd_UpdatedAt := jd_UpdatedAt d |}
    | _ => None
    end
  else if json.fold_eq k "created_at" then
    match v with
    | json.JString s =>
        Some {| jd_ID := jd_ID d; jd_Status := jd_Status d; jd_Progress := jd_Progress d;
                jd_OutputPath := jd_OutputPath d; jd_Error := jd_Error d;
                jd_CreatedAt := s; jd_UpdatedAt := jd_UpdatedAt d |}
    | _ => None
    end
  else if json.fold_eq k "updated_at" then
    match v with
    | json.JString s =>
        Some {| jd_ID := jd_ID d; jd_Status := jd_Status d; jd_Progress := jd_Progress d;
                jd_OutputPath := jd_OutputPath d; jd_Error := jd_Error d;
                jd_CreatedAt := jd_CreatedAt d; jd_UpdatedAt := s |}
    | _ => None
    end
  else Some d.

Fixpoint assign_members (d : jobData) (ms : list (string * json.JValue)) : option jobData :=
  match ms with
  | [] => Some d
  | m :: rest => d' ← assign_member d m; assign_members d' rest
  end.

(** [json.Unmarshal(content, &data)] on a zero [jobData]. *)
Definition Unmarshal_jobData (content : string) : option jobData :=
  ms ← json.parse_object content; assign_members zero_jobData ms.

(** ** The state the job core works on

    [Job] values live on a heap and are referred to by address, as the
    [*Job] pointers the store, the handlers and the background tasks
    share.  [clock] lists the readings of [time.Now()], [ticks] counts
    the readings taken.  [log] is a history variable: it records every
    state a [Job] takes (what [GetStatus] returns from then on) and every
    record [SaveJob] serialises. *)

Record JobStore := {
  jobs : gmap string nat;
  persistence : option string
}.

Inductive Event :=
| EvJob (p : nat) (r : JobStatusResponse)
| EvSave (d : jobData) (err : option OsError).

Record World := {
  clock : nat -> Time;
  ticks : nat;
  heap : list Job;
  store : JobStore;
  fs : FS;
  log : list Event
}.

Definition set_store (s : JobStore) (w : World) : World :=
  {| clock := clock w; ticks := ticks w; heap := heap w; store := s;
     fs := fs w; log := log w |}.

Definition set_fs (f : FS) (w : World) : World :=
  {| clock := clock w; ticks := ticks w; heap := heap w; store := store w;
     fs := f; log := log w |}.

Definition add_log (e : Event) (w : World) : World :=
  {| clock := clock w; ticks := ticks w; heap := heap w; store := store w;
     fs := fs w; log := log w ++ [e] |}.

(** [time.Now()]. *)
Definition Now (w : World) : Time * World :=
  (clock w (ticks w),
   {| clock := clock w; ticks := S (ticks w); heap := heap w; store := store w;
      fs := fs w; log := log w |}).

(** [&Job{...}]: a new object on the heap. *)
Definition alloc (j : Job) (w : World) : nat * World :=
  (length (heap w),
   {| clock := clock w; ticks := ticks w; heap := heap w ++ [j]; store := store w;
      fs := fs w; log := log w ++ [EvJob (length (heap w)) (GetStatus j)] |}).

(** A method of [Job] called through the pointer [p]. *)
Definition call (p : nat) (method : Time -> Job -> Job) (w : World) : World :=
  match heap w !! p with
  | None => w
  | Some j =>
      let '(now, w) := Now w in
      let j' := method now j in
      {| clock := clock w; ticks := ticks w; heap := <[p := j']> (heap w);
         store := store w; fs := fs w;
         log := log w ++ [EvJob p (GetStatus j')] |}
  end.

(** A field written through the pointer, outside the methods. *)
Definition poke (p : nat) (f : Job -> Job) (w : World) : World :=
  match heap w !! p with
  | None => w
  | Some j =>
      {| clock := clock w; ticks := ticks w; heap := <[p := f j]> (heap w);
         store := store w; fs := fs w;
         log := log w ++ [EvJob p (GetStatus (f j))] |}
  end.

(** [JobPersistence.SaveJob]. *)
Definition SaveJob (jobsDir : string) (p : nat) (w : World) : option OsError * World :=
  match heap w !! p with
  | None => (None, w)
  | Some job =>
      let status := GetStatus job in
      let data :=
        {| jd_ID := sr_JobID status; jd_Status := sr_Status status;
           jd_Progress := sr_Progress status; jd_OutputPath := sr_OutputPath status;
           jd_Error := sr_Error status;
           jd_CreatedAt := FormatRFC3339 (sr_CreatedAt status);
           jd_UpdatedAt := FormatRFC3339 (sr_UpdatedAt status) |} in
      let filePath := PathJoin [jobsDir; sr_JobID status +:+ ".json"] in
      let content := Marshal_jobData data in
      let '(now, w) := Now w in
      match WriteFile (fs w) now filePath content with
      | inl err => (Some err, add_log (EvSave data (Some err)) w)
      | inr fs' => (None, add_log (EvSave data None) (set_fs fs' w))
      end
  end.

(** The reconstruction both loaders share. *)
Definition job_of_data (now : Time) (data : jobData) : Job :=
  let job := NewJob now (jd_ID data) in
  {| job_ID := job_ID job; job_Status := jd_Status data; job_Progress := jd_Progress data;
     job_OutputPath := jd_OutputPath data; job_S3URL := job_S3URL job;
     job_WebhookURL := job_WebhookURL job; job_WebhookHeader := job_WebhookHeader job;
     job_Error := jd_Error data;
     job_CreatedAt := default zeroTime (ParseRFC3339 (jd_CreatedAt data));
     job_UpdatedAt := default zeroTime (ParseRFC3339 (jd_UpdatedAt data)) |}.

Inductive LoadError :=
| LoadRead (err : OsError)
| LoadSyntax.

(** [JobPersistence.LoadJob]: the address of the job it builds. *)
Definition LoadJob (jobsDir : string) (jobID : string) (w : World) : (LoadError + nat) * World :=
  let filePath := PathJoin [jobsDir; jobID +:+ ".json"] in
  match ReadFile (fs w) filePath with
  | inl err => (inl (LoadRead err), w)
  | inr content =>
      match Unmarshal_jobData content with
      | None => (inl LoadSyntax, w)
      | Some data =>
          let '(now, w) := Now w in
          let '(p, w) := alloc (job_of_data now data) w in
          (inr p, w)
      end
  end.

(** The loop of [LoadAllJobs] over the directory entries. *)
Fixpoint load_entries (jobsDir : string) (entries : list DirEntry)
    (jobs : gmap string nat) (w : World) : gmap string nat * World :=
  match entries with
  | [] => (jobs, w)
  | entry :: rest =>
      if IsDir entry || negb (String.eqb (Ext (Name entry)) ".json") then
        load_entries jobsDir rest jobs w
      else
        let filePath := PathJoin [jobsDir; Name entry] in
        match ReadFile (fs w) filePath with
        | inl _ => load_entries jobsDir rest jobs w
        | inr content =>
            match Unmarshal_jobData content with
            | None => load_entries jobsDir rest jobs w
            | Some data =>
                let '(now, w) := Now w in
                let job := job_of_data now data in
                let '(p, w) := alloc job w in
                load_entries jobsDir rest (<[job_ID job := p]> jobs) w
            end
        end
  end.

(** [JobPersistence.LoadAllJobs]. *)
Definition LoadAllJobs (jobsDir : string) (w : World) : gmap string nat * World :=
  match ReadDir (fs w) jobsDir with
  | inl _ => (∅, w)
  | inr entries => load_entries jobsDir entries ∅ w
  end.

(** [JobPersistence.DeleteJob]. *)
Definition DeleteJob (jobsDir : string) (jobID : string) (w : World) : option OsError * World :=
  let filePath := PathJoin [jobsDir; jobID +:+ ".json"] in
  match Remove (fs w) filePath with
  | inl ErrNotExist => (None, w)
  | inl err => (Some err, w)
  | inr fs' => (None, set_fs fs' w)
  end.

(** Modelled from the spec: [JobPersistence.GetJobsDir] is called by
    [JobStore.GetJobsDir] and is not among the sources; it returns the
    configured jobs directory, the directory the job records are stored
    under. *)
Definition persistence_GetJobsDir (jobsDir : string) : string := jobsDir.

(** ** [JobStore] *)

Definition NewJobStore (w : World) : World :=
  set_store {| jobs := ∅; persistence := None |} w.

Definition NewJobStoreWithPersistence (jobsDir : string) (w : World) : World :=
  let '(loaded, w) := LoadAllJobs jobsDir w in
  set_store {| jobs := loaded; persistence := Some jobsDir |} w.

Definition job_id_at (p : nat) (w : World) : string :=
  match heap w !! p with
  | Some j => job_ID j
  | None => ""
  end.

(** [JobStore.Add]. *)
Definition Add (p : nat) (w : World) : World :=
  let s := store w in
  let w := set_store {| jobs := <[job_id_at p w := p]> (jobs s);
                        persistence := persistence s |} w in
  match persistence s with
  | Some dir => snd (SaveJob dir p w)
  | None => w
  end.

(** [JobStore.Get]. *)
Definition Get (id : string) (w : World) : option nat := jobs (store w) !! id.

(** [JobStore.Update]. *)
Definition Update (p : nat) (w : World) : option OsError * World :=
  let s := store w in
  let w := set_store {| jobs := <[job_id_at p w := p]> (jobs s);
                        persistence := persistence s |} w in
  match persistence s with
  | Some dir => SaveJob dir p w
  | None => (None, w)
  end.

(** [JobStore.Delete]. *)
Definition Delete (id : string) (w : World) : World :=
  let s := store w in
  let w := set_store {| jobs := delete id (jobs s); persistence := persistence s |} w in
  match persistence s with
  | Some dir => snd (DeleteJob dir id w)
  | None => w
  end.

(** [JobStore.GetJobsDir]. *)
Definition GetJobsDir (w : World) : string :=
  match persistence (store w) with
  | None => ""
  | Some dir => persistence_GetJobsDir dir
  end.

End models.
(* ===================================================================== *)
(** * package ffmpeg: the builders that hand an argument list to the engine *)
(* ===================================================================== *)

Module ffmpeg.
Import GoStd models.

(** What [os.Stat] reports for a path. *)
Inductive StatResult :=
| StatOk
| StatNotExist
| StatError (msg : string).

(** How one call of [Executor.Execute] ends: the admission slot was not
    obtained before the context was done, or the engine process ran and
    [cmd.Run] returned [err] with the captured standard error. *)
Inductive ExecOutcome :=
| NoSlot (ctxErr : string)
| Exited (err : option string) (stderr : string).

(** The error [Execute] returns ([None] is [nil]). *)
Definition Execute_error (o : ExecOutcome) : option string :=
  match o with
  | NoSlot ctxErr => Some ("failed to acquire ffmpeg slot: " +:+ ctxErr)
  | Exited None _ => None
  | Exited (Some err) stderr =>
      Some ("ffmpeg execution failed: " +:+ err +:+ " (stderr: " +:+ stderr +:+ ")")
  end.

(** [BuildFilterComplex] (executor.go). *)
Definition BuildFilterComplex (filters : list string) : string :=
  Join filters ";".

(** ** video.go *)

(** The body of the main loop of [MergeVideos] for segment [i]. *)
Definition trimFilter (i : Z) (seg : VideoSegment) : string :=
  if (0 <? seg_EndTime seg)%float then
    "[" +:+ fmt_d i +:+ ":v]trim=start=" +:+ fmt_2f (seg_StartTime seg)
      +:+ ":end=" +:+ fmt_2f (seg_EndTime seg)
      +:+ ",setpts=PTS-STARTPTS[v" +:+ fmt_d i +:+ "]"
  else
    "[" +:+ fmt_d i +:+ ":v]trim=start=" +:+ fmt_2f (seg_StartTime seg)
      +:+ ",setpts=PTS-STARTPTS[v" +:+ fmt_d i +:+ "]".

Definition atrimFilter (i : Z) (seg : VideoSegment) : string :=
  if (0 <? seg_EndTime seg)%float then
    "[" +:+ fmt_d i +:+ ":a]atrim=start=" +:+ fmt_2f (seg_StartTime seg)
      +:+ ":end=" +:+ fmt_2f (seg_EndTime seg)
      +:+ ",asetpts=PTS-STARTPTS[a" +:+ fmt_d i +:+ "]"
  else
    "[" +:+ fmt_d i +:+ ":a]atrim=start=" +:+ fmt_2f (seg_StartTime seg)
      +:+ ",asetpts=PTS-STARTPTS[a" +:+ fmt_d i +:+ "]".

(** The loop adding ["-i", seg.FilePath] for every segment. *)
Fixpoint add_inputs (args : list string) (segments : list VideoSegment) : list string :=
  match segments with
  | [] => args
  | seg :: rest => add_inputs (args ++ ["-i"; seg_FilePath seg]) rest
  end.

(** The main loop: both slices grow by [append] as in the source. *)
Fixpoint merge_loop (i : Z) (segments : list VideoSegment)
    (filterParts concatInputs : list string) : list string * list string :=
  match segments with
  | [] => (filterParts, concatInputs)
  | seg :: rest =>
      let filterParts := filterParts ++ [trimFilter i seg] in
      let filterParts := filterParts ++ [atrimFilter i seg] in
      let concatInputs :=
        concatInputs ++ ["[v" +:+ fmt_d i +:+ "][a" +:+ fmt_d i +:+ "]"] in
      merge_loop (i + 1) rest filterParts concatInputs
  end.

(** ** overlay.go, the revision that writes the filter text itself *)

(** [calculatePosition]. *)
Definition calculatePosition (overlay : ImageOverlay) : string * string :=
  match (if String.eqb (ov_Position overlay) PositionCustom
         then match ov_X overlay, ov_Y overlay with
              | Some x, Some y => Some (fmt_d x, fmt_d y)
              | _, _ => None
              end
         else None) with
  | Some xy => xy
  | None =>
      if String.eqb (ov_Position overlay) PositionTopLeft then ("10", "10")
      else if String.eqb (ov_Position overlay) PositionTopRight then
        ("(main_w-overlay_w-10)", "10")
      else if String.eqb (ov_Position overlay) PositionBottomLeft then
        ("10", "(main_h-overlay_h-10)")
      else if String.eqb (ov_Position overlay) PositionBottomRight then
        ("(main_w-overlay_w-10)", "(main_h-overlay_h-10)")
      else if String.eqb (ov_Position overlay) PositionCenter then
        ("(main_w-overlay_w)/2", "(main_h-overlay_h)/2")
      else ("10", "10")
  end.

(** [calculateSlidePosition]; [direction] is [*overlay.SlideDirection]. *)
Definition calculateSlidePosition (overlay : ImageOverlay) (direction : SlideDirection)
    (baseX baseY : string) (duration : float) : string * string :=
  let t := "(t-" +:+ fmt_2f (ov_StartTime overlay) +:+ ")" in
  let progress := "min(" +:+ t +:+ "/" +:+ fmt_2f duration +:+ ",1)" in
  if String.eqb direction SlideFromLeft then
    ("if(lt(t," +:+ fmt_2f (ov_StartTime overlay) +:+ "),-overlay_w,-overlay_w+("
       +:+ progress +:+ ")*(overlay_w+" +:+ baseX +:+ "))", baseY)
  else if String.eqb direction SlideFromRight then
    ("if(lt(t," +:+ fmt_2f (ov_StartTime overlay) +:+ "),main_w,main_w-("
       +:+ progress +:+ ")*(main_w-" +:+ baseX +:+ "))", baseY)
  else if String.eqb direction SlideFromTop then
    (baseX, "if(lt(t," +:+ fmt_2f (ov_StartTime overlay) +:+ "),-overlay_h,-overlay_h+("
       +:+ progress +:+ ")*(overlay_h+" +:+ baseY +:+ "))")
  else if String.eqb direction SlideFromBottom then
    (baseX, "if(lt(t," +:+ fmt_2f (ov_StartTime overlay) +:+ "),main_h,main_h-("
       +:+ progress +:+ ")*(main_h-" +:+ baseY +:+ "))")
  else (baseX, baseY).

(** [buildOverlayExpression]. *)
Definition buildOverlayExpression (overlay : ImageOverlay) : string :=
  let '(x, y) := calculatePosition overlay in
  let '(x, y) :=
    match (if String.eqb (ov_Animation overlay) AnimationSlide
           then ov_SlideDirection overlay else None) with
    | Some direction =>
        let duration := default 1%float (ov_SlideDuration overlay) in
        calculateSlidePosition overlay direction x y duration
    | None => (x, y)
    end in
  let enableExpr :=
    "enable='between(t," +:+ fmt_2f (ov_StartTime overlay) +:+ ","
      +:+ fmt_2f (ov_EndTime overlay) +:+ ")'" in
  "overlay=" +:+ x +:+ ":" +:+ y +:+ ":" +:+ enableExpr.

(** [buildOverlayFilter]. *)
Definition buildOverlayFilter (overlay : ImageOverlay) : string :=
  let imageFilter := "[1:v]" in
  let imageFilter :=
    if String.eqb (ov_Animation overlay) AnimationFade then
      let duration := default 1%float (ov_FadeDuration overlay) in
      let fadeIn :=
        "fade=t=in:st=" +:+ fmt_2f (ov_StartTime overlay) +:+ ":d=" +:+ fmt_2f duration in
      let fadeOut :=
        "fade=t=out:st=" +:+ fmt_2f (ov_EndTime overlay - duration)%float
          +:+ ":d=" +:+ fmt_2f duration in
      imageFilter +:+ (fadeIn +:+ "," +:+ fadeOut)
    else if String.eqb (ov_Animation overlay) AnimationZoom then
      let zoomFrom := default 1%float (ov_ZoomFrom overlay) in
      let zoomTo := default 1.5%float (ov_ZoomTo overlay) in
      let duration := (ov_EndTime overlay - ov_StartTime overlay)%float in
      let zoomRate := ((zoomTo - zoomFrom) / duration)%float in
      imageFilter +:+ ("zoompan=z='if(lte(zoom," +:+ fmt_2f zoomTo +:+ "),zoom+"
                         +:+ fmt_6f zoomRate +:+ "," +:+ fmt_2f zoomTo
                         +:+ ")':d=1:s=1280x720")
    else imageFilter in
  let filters := [] ++ [imageFilter +:+ "[overlay]"] in
  let overlayExpr := buildOverlayExpression overlay in
  let filters := filters ++ ["[0:v][overlay]" +:+ overlayExpr] in
  Join filters ";".

(** [buildOverlayFilterForIndex]. *)
Definition buildOverlayFilterForIndex (overlay : ImageOverlay) (index : Z) : string :=
  let imageFilter := "[" +:+ fmt_d (index + 1) +:+ ":v]" in
  let imageFilter :=
    match (if String.eqb (ov_Animation overlay) AnimationFade
           then ov_FadeDuration overlay else None) with
    | Some duration =>
        let fadeIn :=
          "fade=t=in:st=" +:+ fmt_2f (ov_StartTime overlay) +:+ ":d=" +:+ fmt_2f duration in
        let fadeOut :=
          "fade=t=out:st=" +:+ fmt_2f (ov_EndTime overlay - duration)%float
            +:+ ":d=" +:+ fmt_2f duration in
        imageFilter +:+ (fadeIn +:+ "," +:+ fadeOut)
    | None => imageFilter
    end in
  imageFilter +:+ "[overlay" +:+ fmt_d index +:+ "]".

(** The two loops of [buildMultipleOverlaysFilter]. *)
Fixpoint overlay_filters (i : Z) (overlays : list ImageOverlay) (filters : list string)
    : list string :=
  match overlays with
  | [] => filters
  | overlay :: rest =>
      overlay_filters (i + 1) rest (filters ++ [buildOverlayFilterForIndex overlay i])
  end.

Fixpoint overlay_chain (i : Z) (n : Z) (overlays : list ImageOverlay)
    (currentInput : string) (filters : list string) : list string :=
  match overlays with
  | [] => filters
  | overlay :: rest =>
      let outputLabel := if i =? n - 1 then "[outv]" else "[v" +:+ fmt_d i +:+ "]" in
      let overlayLabel := "[overlay" +:+ fmt_d i +:+ "]" in
      let '(x, y) := calculatePosition overlay in
      let enableExpr :=
        "enable='between(t," +:+ fmt_2f (ov_StartTime overlay) +:+ ","
          +:+ fmt_2f (ov_EndTime overlay) +:+ ")'" in
      let chainFilter :=
        currentInput +:+ overlayLabel +:+ "overlay=" +:+ x +:+ ":" +:+ y +:+ ":"
          +:+ enableExpr +:+ outputLabel in
      overlay_chain (i + 1) n rest outputLabel (filters ++ [chainFilter])
  end.

(** [buildMultipleOverlaysFilter]. *)
Definition buildMultipleOverlaysFilter (overlays : list ImageOverlay) : string :=
  let filters := overlay_filters 0 overlays [] in
  let filters := overlay_chain 0 (Z.of_nat (length overlays)) overlays "[0:v]" filters in
  Join filters ";".

Fixpoint add_overlay_inputs (args : list string) (overlays : list ImageOverlay) : list string :=
  match overlays with
  | [] => args
  | overlay :: rest => add_overlay_inputs (args ++ ["-i"; ov_FilePath overlay]) rest
  end.

(** ** audio.go, the revision that writes the filter text itself *)

Definition is_set (o : option float) : bool :=
  match o with
  | Some _ => true
  | None => false
  end.

(** [buildAudioFilter]. *)
Definition buildAudioFilter (audio : AudioConfig) : string :=
  let audioStream := "[1:a]" in
  let audioStream :=
    if is_set (au_StartTime audio) || is_set (au_EndTime audio) then
      let trimFilter :=
        match au_StartTime audio, au_EndTime audio with
        | Some s, Some e => "atrim=start=" +:+ fmt_2f s +:+ ":end=" +:+ fmt_2f e
        | Some s, None => "atrim=start=" +:+ fmt_2f s
        | None, Some e => "atrim=end=" +:+ fmt_2f e
        | None, None => ""
        end in
      audioStream +:+ (trimFilter +:+ ",")
    else audioStream in
  let audioStream :=
    if is_set (au_StartTime audio) || is_set (au_EndTime audio)
    then audioStream +:+ "asetpts=PTS-STARTPTS,"
    else audioStream in
  let audioStream :=
    match au_FadeIn audio with
    | Some fi =>
        if (0 <? fi)%float then
          let fadeIn := "afade=t=in:st=0:d=" +:+ fmt_2f fi in
          audioStream +:+ (fadeIn +:+ ",")
        else audioStream
    | None => audioStream
    end in
  let audioStream :=
    match au_FadeOut audio with
    | Some fo =>
        if (0 <? fo)%float then
          let fadeOutStart :=
            match au_EndTime audio, au_StartTime audio with
            | Some e, Some s => (e - s - fo)%float
            | Some e, None => (e - fo)%float
            | None, _ => 0%float
            end in
          if (0 <? fadeOutStart)%float then
            let fadeOut :=
              "afade=t=out:st=" +:+ fmt_2f fadeOutStart +:+ ":d=" +:+ fmt_2f fo in
            audioStream +:+ (fadeOut +:+ ",")
          else
            let fadeOut := "afade=t=out:d=" +:+ fmt_2f fo in
            audioStream +:+ (fadeOut +:+ ",")
        else audioStream
    | None => audioStream
    end in
  let volumeFilter := "volume=" +:+ fmt_2f (au_Volume audio) in
  let audioStream := audioStream +:+ volumeFilter in
  let audioStream := audioStream +:+ "[music]" in
  let filters := [] ++ [audioStream] in
  let mixFilter := "[0:a][music]amix=inputs=2:duration=first:dropout_transition=2[aout]" in
  let filters := filters ++ [mixFilter] in
  Join filters ";".

(** ** The exported methods of [Executor], against a file system and an
    engine *)

Section Executor.

(** What [os.Stat] answers, and how the engine ends on an argument list. *)
Variable stat : string -> StatResult.
Variable engine : list string -> ExecOutcome.

(** [ValidateFile] (executor.go): [None] is Go's [nil] error. *)
Definition ValidateFile (path : string) : option string :=
  if String.eqb path "" then Some "file path is empty"
  else match stat path with
       | StatNotExist => Some ("file does not exist: " +:+ path)
       | StatError msg => Some ("failed to stat file: " +:+ msg)
       | StatOk => None
       end.

(** [Executor.Execute], seen from its caller. *)
Definition Execute (args : list string) : option string :=
  Execute_error (engine args).

(** The first loop of [MergeVideos]: the first failing segment aborts. *)
Fixpoint validate_segments (i : Z) (segments : list VideoSegment) : option string :=
  match segments with
  | [] => None
  | seg :: rest =>
      match ValidateFile (seg_FilePath seg) with
      | Some err => Some ("segment " +:+ fmt_d i +:+ ": " +:+ err)
      | None => validate_segments (i + 1) rest
      end
  end.

(** A builder either fails before the engine is called or hands an
    argument list to [Execute]. *)
Inductive Built :=
| BuildError (msg : string)
| Exec (args : list string).

Definition run (b : Built) : option string :=
  match b with
  | BuildError msg => Some msg
  | Exec args => Execute args
  end.

(** [MergeVideos] (video.go) up to the call of [e.Execute]. *)
Definition MergeVideos_build (segments : list VideoSegment) (outputPath : string) : Built :=
  if Z.of_nat (length segments) <? 2 then
    BuildError "at least 2 video segments required for merging"
  else
    match validate_segments 0 segments with
    | Some err => BuildError err
    | None =>
        let args := ["-y"] in
        let args := add_inputs args segments in
        let '(filterParts, concatInputs) := merge_loop 0 segments [] [] in
        let concatFilter :=
          Join concatInputs "" +:+ "concat=n=" +:+ fmt_d (Z.of_nat (length segments))
            +:+ ":v=1:a=1[outv][outa]" in
        let filterParts := filterParts ++ [concatFilter] in
        let filterComplex := BuildFilterComplex filterParts in
        let args := args ++ ["-filter_complex"; filterComplex] in
        let args := args ++ ["-map"; "[outv]"; "-map"; "[outa]"] in
        let args := args ++ ["-c:v"; "libx264"; "-preset"; "medium"; "-crf"; "23";
                             "-c:a"; "aac"; "-b:a"; "192k"; outputPath] in
        Exec args
    end.

Definition MergeVideos (segments : list VideoSegment) (outputPath : string) : option string :=
  run (MergeVideos_build segments outputPath).

(** [AddImageOverlay]. *)
Definition AddImageOverlay_build (videoPath : string) (overlay : ImageOverlay)
    (outputPath : string) : Built :=
  match ValidateFile videoPath with
  | Some err => BuildError ("video file: " +:+ err)
  | None =>
      match ValidateFile (ov_FilePath overlay) with
      | Some err => BuildError ("overlay image: " +:+ err)
      | None =>
          let args := ["-y"; "-i"; videoPath; "-i"; ov_FilePath overlay] in
          let filterChain := buildOverlayFilter overlay in
          let args := args ++ ["-filter_complex"; filterChain] in
          let args := args ++ ["-c:v"; "libx264"; "-preset"; "medium"; "-crf"; "23";
                               "-c:a"; "copy"; outputPath] in
          Exec args
      end
  end.

Definition AddImageOverlay (videoPath : string) (overlay : ImageOverlay)
    (outputPath : string) : option string :=
  run (AddImageOverlay_build videoPath overlay outputPath).

Fixpoint validate_overlays (i : Z) (overlays : list ImageOverlay) : option string :=
  match overlays with
  | [] => None
  | overlay :: rest =>
      match ValidateFile (ov_FilePath overlay) with
      | Some err => Some ("overlay " +:+ fmt_d i +:+ " image: " +:+ err)
      | None => validate_overlays (i + 1) rest
      end
  end.

(** [AddMultipleOverlays]. *)
Definition AddMultipleOverlays_build (videoPath : string) (overlays : list ImageOverlay)
    (outputPath : string) : Built :=
  if (length overlays =? 0)%nat then BuildError "no overlays provided"
  else
    match ValidateFile videoPath with
    | Some err => BuildError ("video file: " +:+ err)
    | None =>
        match validate_overlays 0 overlays with
        | Some err => BuildError err
        | None =>
            let args := ["-y"; "-i"; videoPath] in
            let args := add_overlay_inputs args overlays in
            let filterComplex := buildMultipleOverlaysFilter overlays in
            let args := args ++ ["-filter_complex"; filterComplex] in
            let args := args ++ ["-c:v"; "libx264"; "-preset"; "medium"; "-crf"; "23";
                                 "-c:a"; "copy"; outputPath] in
            Exec args
        end
    end.

Definition AddMultipleOverlays (videoPath : string) (overlays : list ImageOverlay)
    (outputPath : string) : option string :=
  run (AddMultipleOverlays_build videoPath overlays outputPath).

(** [AddBackgroundMusic]. *)
Definition AddBackgroundMusic_build (videoPath : string) (audio : AudioConfig)
    (outputPath : string) : Built :=
  match ValidateFile videoPath with
  | Some err => BuildError ("video file: " +:+ err)
  | None =>
      match ValidateFile (au_FilePath audio) with
      | Some err => BuildError ("audio file: " +:+ err)
      | None =>
          let args := ["-y"; "-i"; videoPath; "-i"; au_FilePath audio] in
          let audioFilter := buildAudioFilter audio in
          let args := args ++ ["-filter_complex"; audioFilter] in
          let args := args ++ ["-map"; "0:v"; "-map"; "[aout]"] in
          let args := args ++ ["-c:v"; "copy"; "-c:a"; "aac"; "-b:a"; "192k"; outputPath] in
          Exec args
      end
  end.

Definition AddBackgroundMusic (videoPath : string) (audio : AudioConfig)
    (outputPath : string) : option string :=
  run (AddBackgroundMusic_build videoPath audio outputPath).

(** [MergeVideosSimple]. *)
Fixpoint simple_inputs (i : Z) (inputPaths : list string) (concatInputs : list string)
    : list string :=
  match inputPaths with
  | [] => concatInputs
  | _ :: rest =>
      simple_inputs (i + 1) rest
        (concatInputs ++ ["[" +:+ fmt_d i +:+ ":v][" +:+ fmt_d i +:+ ":a]"])
  end.

Fixpoint add_paths (args : list string) (inputPaths : list string) : list string :=
  match inputPaths with
  | [] => args
  | path :: rest => add_paths (args ++ ["-i"; path]) rest
  end.

Definition MergeVideosSimple_build (inputPaths : list string) (outputPath : string) : Built :=
  if Z.of_nat (length inputPaths) <? 2 then
    BuildError "at least 2 video files required for merging"
  else
    let args := ["-y"] in
    let args := add_paths args inputPaths in
    let concatInputs := simple_inputs 0 inputPaths [] in
    let filterComplex :=
      Join concatInputs "" +:+ "concat=n=" +:+ fmt_d (Z.of_nat (length inputPaths))
        +:+ ":v=1:a=1[outv][outa]" in
    let args := args ++ ["-filter_complex"; filterComplex] in
    let args := args ++ ["-map"; "[outv]"; "-map"; "[outa]"] in
    let args := args ++ ["-c:v"; "libx264"; "-preset"; "medium"; "-crf"; "23";
                         "-c:a"; "aac"; "-b:a"; "192k"; outputPath] in
    Exec args.

Definition MergeVideosSimple (inputPaths : list string) (outputPath : string) : option string :=
  run (MergeVideosSimple_build inputPaths outputPath).

(** [CompleteProcess]: the three stages, each on the artifact of the one
    before. *)
Definition CompleteProcess (req : CompleteProcessRequest) (outputPath : string) : option string :=
  let stage1 : string + string :=
    match cr_Segments req with
    | [] => inl "at least one video segment required"
    | [seg] => inr (seg_FilePath seg)
    | _ =>
        let tempMerged := outputPath +:+ ".merged.mp4" in
        match MergeVideos (cr_Segments req) tempMerged with
        | Some err => inl ("merge videos: " +:+ err)
        | None => inr tempMerged
        end
    end in
  match stage1 with
  | inl err => Some err
  | inr currentVideo =>
      let stage2 : string + string :=
        if (0 <? length (cr_Overlays req))%nat then
          let tempOverlay := outputPath +:+ ".overlay.mp4" in
          match AddMultipleOverlays currentVideo (cr_Overlays req) tempOverlay with
          | Some err => inl ("add overlays: " +:+ err)
          | None => inr tempOverlay
          end
        else inr currentVideo in
      match stage2 with
      | inl err => Some err
      | inr currentVideo =>
          match cr_Audio req with
          | Some audio =>
              match AddBackgroundMusic currentVideo audio outputPath with
              | Some err => Some ("add audio: " +:+ err)
              | None => None
              end
          | None =>
              let args := ["-y"; "-i"; currentVideo; "-c"; "copy"; outputPath] in
              match Execute args with
              | Some err => Some ("copy video: " +:+ err)
              | None => None
              end
          end
      end
  end.

End Executor.

End ffmpeg.
(* ===================================================================== *)
(** * package ffmpeg, the revision that builds the graph with ffmpeg-go

    The same functions hand a typed stream graph to the ffmpeg-go
    library, which renders it; the embedding stops at the graph. *)
(* ===================================================================== *)

Module ffmpeg_go.
Import GoStd models.

(** A value of a [KwArgs] entry. *)
Inductive KwVal :=
| KwInt (z : Z)
| KwFloat (x : float)
| KwStr (s : string).

#[warnings="-register-all"]
Inductive Stream :=
| Input (filename : string)
| Audio (s : Stream)
| Video (s : Stream)
| Filter (inputs : list Stream) (name : string) (args : list string)
    (kwargs : gmap string KwVal)
| Output (inputs : list Stream) (filename : string) (kwargs : gmap string KwVal)
    (overwrite : bool).

(** The animation [switch] of [AddImageOverlay] on the overlay stream. *)
Definition animate (overlay : ImageOverlay) (overlayStream : Stream) : Stream :=
  if String.eqb (ov_Animation overlay) AnimationFade then
    let duration := default 1%float (ov_FadeDuration overlay) in
    let totalDuration := (ov_EndTime overlay - ov_StartTime overlay)%float in
    let overlayStream :=
      Filter [overlayStream] "fade" []
        (<["t" := KwStr "in"]> (<["st" := KwInt 0]> (<["d" := KwFloat duration]>
           (<["alpha" := KwInt 1]> ∅)))) in
    Filter [overlayStream] "fade" []
      (<["t" := KwStr "out"]> (<["st" := KwFloat (totalDuration - duration)%float]>
         (<["d" := KwFloat duration]> (<["alpha" := KwInt 1]> ∅))))
  else if String.eqb (ov_Animation overlay) AnimationZoom then
    let zoomFrom := default 1%float (ov_ZoomFrom overlay) in
    let zoomTo := default 1.5%float (ov_ZoomTo overlay) in
    let duration := (ov_EndTime overlay - ov_StartTime overlay)%float in
    let zoomRate := ((zoomTo - zoomFrom) / duration)%float in
    Filter [overlayStream] "zoompan" []
      (<["z" := KwStr ("if(lte(zoom," +:+ fmt_2f zoomTo +:+ "),zoom+" +:+ fmt_6f zoomRate
                         +:+ "," +:+ fmt_2f zoomTo +:+ ")")]>
         (<["d" := KwInt 1]> (<["s" := KwStr "1280x720"]> ∅)))
  else overlayStream.

Section Executor.

Variable stat : string -> ffmpeg.StatResult.

(** [AddImageOverlay] up to [output.Run()]: the error of the validation,
    or the graph that is run. *)
Definition AddImageOverlay (videoPath : string) (overlay : ImageOverlay)
    (outputPath : string) : string + Stream :=
  match ffmpeg.ValidateFile stat videoPath with
  | Some err => inl ("video file: " +:+ err)
  | None =>
      match ffmpeg.ValidateFile stat (ov_FilePath overlay) with
      | Some err => inl ("overlay image: " +:+ err)
      | None =>
          let overlayStream := Input (ov_FilePath overlay) in
          let overlayStream := Filter [overlayStream] "format" ["rgba"] ∅ in
          let overlayStream := animate overlay overlayStream in
          let '(x, y) := ffmpeg.calculatePosition overlay in
          let '(x, y) :=
            match (if String.eqb (ov_Animation overlay) AnimationSlide
                   then ov_SlideDirection overlay else None) with
            | Some direction =>
                let duration := default 1%float (ov_SlideDuration overlay) in
                ffmpeg.calculateSlidePosition overlay direction x y duration
            | None => (x, y)
            end in
          let videoStream := Input videoPath in
          let positionArg := x +:+ ":" +:+ y in
          inr (Output
                 [Filter [videoStream; overlayStream] "overlay" [positionArg]
                    (<["enable" := KwStr ("between(t," +:+ fmt_2f (ov_StartTime overlay)
                                            +:+ "," +:+ fmt_2f (ov_EndTime overlay) +:+ ")")]> ∅)]
                 outputPath
                 (<["c:v" := KwStr "libx264"]> (<["preset" := KwStr "medium"]>
                    (<["crf" := KwStr "23"]> (<["c:a" := KwStr "copy"]> ∅))))
                 true)
      end
  end.

(** [applyAudioFilters] (audio.go). *)
Definition applyAudioFilters (audioStream : Stream) (audio : AudioConfig) : Stream :=
  let audioStream :=
    if ffmpeg.is_set (au_StartTime audio) || ffmpeg.is_set (au_EndTime audio) then
      let trimKwArgs : gmap string KwVal := ∅ in
      let trimKwArgs :=
        match au_StartTime audio with
        | Some s => <["start" := KwFloat s]> trimKwArgs
        | None => trimKwArgs
        end in
      let trimKwArgs :=
        match au_EndTime audio with
        | Some e => <["end" := KwFloat e]> trimKwArgs
        | None => trimKwArgs
        end in
      let audioStream := Filter [audioStream] "atrim" [] trimKwArgs in
      Filter [audioStream] "asetpts" ["PTS-STARTPTS"] ∅
    else audioStream in
  let audioStream :=
    match au_FadeIn audio with
    | Some fi =>
        if (0 <? fi)%float then
          Filter [audioStream] "afade" []
            (<["t" := KwStr "in"]> (<["st" := KwInt 0]> (<["d" := KwFloat fi]> ∅)))
        else audioStream
    | None => audioStream
    end in
  let audioStream :=
    match au_FadeOut audio with
    | Some fo =>
        if (0 <? fo)%float then
          let fadeKwArgs : gmap string KwVal :=
            <["t" := KwStr "out"]> (<["d" := KwFloat fo]> ∅) in
          let fadeKwArgs :=
            match au_EndTime audio, au_StartTime audio with
            | Some e, Some s =>
                let fadeOutStart := (e - s - fo)%float in
                if (0 <? fadeOutStart)%float
                then <["st" := KwFloat fadeOutStart]> fadeKwArgs
                else fadeKwArgs
            | _, _ => fadeKwArgs
            end in
          Filter [audioStream] "afade" [] fadeKwArgs
        else audioStream
    | None => audioStream
    end in
  Filter [audioStream] "volume" [fmt_2f (au_Volume audio)] ∅.

(** [AddBackgroundMusic] (audio.go) up to [output.Run()]. *)
Definition AddBackgroundMusic (videoPath : string) (audio : AudioConfig)
    (outputPath : string) : string + Stream :=
  match ffmpeg.ValidateFile stat videoPath with
  | Some err => inl ("video file: " +:+ err)
  | None =>
      match ffmpeg.ValidateFile stat (au_FilePath audio) with
      | Some err => inl ("audio file: " +:+ err)
      | None =>
          let videoStream := Input videoPath in
          let audioStream := Audio (Input (au_FilePath audio)) in
          let audioStream := applyAudioFilters audioStream audio in
          let mixedAudio :=
            Filter [Audio videoStream; audioStream] "amix" []
              (<["inputs" := KwInt 2]> (<["duration" := KwStr "first"]>
                 (<["dropout_transition" := KwInt 2]> ∅))) in
          inr (Output [Video videoStream; mixedAudio] outputPath
                 (<["c:v" := KwStr "copy"]> (<["c:a" := KwStr "aac"]>
                    (<["b:a" := KwStr "192k"]> ∅)))
                 true)
      end
  end.

End Executor.

End ffmpeg_go.

(* ===================================================================== *)
(** * package ffmpeg: the methods of [Executor] as concurrent calls

    A method body is a program over the operations that matter to the
    admission gate: acquiring the semaphore, deferring a call, running
    an engine process and returning.  Calls run as threads that are
    interleaved step by step; the semaphore is the only state they
    share. *)
(* ===================================================================== *)

Module gate.
Import GoStd models.

(** [semaphore.Weighted]: its size and the units taken. *)
Record Weighted := {
  size : Z;
  cur : Z
}.

(** [semaphore.NewWeighted]. *)
Definition NewWeighted (n : Z) : Weighted := {| size := n; cur := 0 |}.

(** A deferred call. *)
Inductive Deferred :=
| Release (n : Z)   (* [e.sem.Release(n)] *)
| Cancel.           (* [cancel()] of [context.WithTimeout] *)

(** How an engine process is started. *)
Inductive Command :=
| CmdRun (args : list string)              (* [cmd.Run()] of [exec.CommandContext] *)
| OutputRun (graph : ffmpeg_go.Stream).    (* [output.Run()] of ffmpeg-go *)

(** A method body.  [Acquire] continues with the error of
    [e.sem.Acquire] ([None] is [nil]); [Run] continues with the error of
    the process and its captured standard error. *)
Inductive Prog :=
| Acquire (n : Z) (k : option string -> Prog)
| Defer (d : Deferred) (k : Prog)
| Run (c : Command) (k : option string -> string -> Prog)
| Return (err : option string).

(** [Executor.Execute] (executor.go). *)
Definition Execute (args : list string) : Prog :=
  Acquire 1 (fun err =>
    match err with
    | Some ctxErr => Return (ffmpeg.Execute_error (ffmpeg.NoSlot ctxErr))
    | None =>
        Defer (Release 1)
          (Defer Cancel
             (Run (CmdRun args) (fun err stderr =>
                Return (ffmpeg.Execute_error (ffmpeg.Exited err stderr)))))
    end).

(** A builder of video.go ends in [return e.Execute(ctx, args)]. *)
Definition of_built (b : ffmpeg.Built) : Prog :=
  match b with
  | ffmpeg.BuildError msg => Return (Some msg)
  | ffmpeg.Exec args => Execute args
  end.

Section Methods.

Variable stat : string -> ffmpeg.StatResult.

(** [MergeVideos] and [MergeVideosSimple] (video.go). *)
Definition MergeVideos (segments : list VideoSegment) (outputPath : string) : Prog :=
  of_built (ffmpeg.MergeVideos_build stat segments outputPath).

Definition MergeVideosSimple (inputPaths : list string) (outputPath : string) : Prog :=
  of_built (ffmpeg.MergeVideosSimple_build inputPaths outputPath).

(** [AddBackgroundMusic] (audio.go): it ends in [return output.Run()]
    and does not go through [Execute]. *)
Definition AddBackgroundMusic (videoPath : string) (audio : AudioConfig)
    (outputPath : string) : Prog :=
  match ffmpeg_go.AddBackgroundMusic stat videoPath audio outputPath with
  | inl err => Return (Some err)
  | inr output => Run (OutputRun output) (fun err _ => Return err)
  end.

(** The calls a goroutine makes on the executor. *)
Inductive Call :=
| CallExecute (args : list string)
| CallMergeVideos (segments : list VideoSegment) (outputPath : string)
| CallMergeVideosSimple (inputPaths : list string) (outputPath : string)
| CallAddBackgroundMusic (videoPath : string) (audio : AudioConfig) (outputPath : string).

Definition body (c : Call) : Prog :=
  match c with
  | CallExecute args => Execute args
  | CallMergeVideos segments outputPath => MergeVideos segments outputPath
  | CallMergeVideosSimple inputPaths outputPath => MergeVideosSimple inputPaths outputPath
  | CallAddBackgroundMusic videoPath audio outputPath =>
      AddBackgroundMusic videoPath audio outputPath
  end.

(** ** The machine *)

(** Where a call is: about to execute [code], waiting for the engine
    process it started, running its deferred calls on the way out, or
    back at its caller. *)
Inductive Point :=
| At (code : Prog)
| InProcess (c : Command) (k : option string -> string -> Prog)
| Returning (err : option string)
| Done (err : option string).

(** A call in flight.  [acquired] and [released] are history variables:
    the units the call has taken from and given back to the semaphore. *)
Record Thread := {
  point : Point;
  defers : list Deferred;
  acquired : Z;
  released : Z
}.

Definition start (code : Prog) : Thread :=
  {| point := At code; defers := []; acquired := 0; released := 0 |}.

Record State := {
  sem : Weighted;
  threads : list Thread
}.

(** [NewExecutor]: no call in flight. *)
Definition NewExecutor (maxConcurrent : Z) : State :=
  {| sem := NewWeighted maxConcurrent; threads := [] |}.

(** What makes a thread move: the semaphore grants the units, the
    context is done while the thread waits for them, the engine process
    ends, or the thread executes its next operation. *)
Inductive Action :=
| Granted
| ContextDone (ctxErr : string)
| ProcessExit (err : option string) (stderr : string)
| Advance.

(** One step of a thread.  [Acquire] is granted only while the units
    fit; it gives up, taking nothing, when the context is done.  A
    deferred [Release] gives the units back, and panics (no step) when
    more would be released than are held. *)
Definition thread_step (a : Action) (s : Weighted) (t : Thread)
    : option (Weighted * Thread) :=
  match a, point t with
  | Granted, At (Acquire n k) =>
      if cur s + n <=? size s then
        Some ({| size := size s; cur := cur s + n |},
              {| point := At (k None); defers := defers t;
                 acquired := acquired t + n; released := released t |})
      else None
  | ContextDone ctxErr, At (Acquire n k) =>
      Some (s, {| point := At (k (Some ctxErr)); defers := defers t;
                  acquired := acquired t; released := released t |})
  | Advance, At (Defer d k) =>
      Some (s, {| point := At k; defers := d :: defers t;
                  acquired := acquired t; released := released t |})
  | Advance, At (Run c k) =>
      Some (s, {| point := InProcess c k; defers := defers t;
                  acquired := acquired t; released := released t |})
  | ProcessExit err stderr, InProcess c k =>
      Some (s, {| point := At (k err stderr); defers := defers t;
                  acquired := acquired t; released := released t |})
  | Advance, At (Return err) =>
      Some (s, {| point := Returning err; defers := defers t;
                  acquired := acquired t; released := released t |})
  | Advance, Returning err =>
      match defers t with
      | Release n :: rest =>
          if cur s - n <? 0 then None
          else
            Some ({| size := size s; cur := cur s - n |},
                  {| point := Returning err; defers := rest;
                     acquired := acquired t; released := released t + n |})
      | Cancel :: rest =>
          Some (s, {| point := Returning err; defers := rest;
                      acquired := acquired t; released := released t |})
      | [] =>
          Some (s, {| point := Done err; defers := [];
                      acquired := acquired t; released := released t |})
      end
  | _, _ => None
  end.

(** What happens next in the system: a goroutine calls a method, or the
    call [i] moves. *)
Inductive Label :=
| NewCall (c : Call)
| Move (i : nat) (a : Action).

Definition exec (l : Label) (g : State) : option State :=
  match l with
  | NewCall c => Some {| sem := sem g; threads := threads g ++ [start (body c)] |}
  | Move i a =>
      t ← threads g !! i;
      '(s', t') ← thread_step a (sem g) t;
      Some {| sem := s'; threads := <[i := t']> (threads g) |}
  end.

Fixpoint run (ls : list Label) (g : State) : option State :=
  match ls with
  | [] => Some g
  | l :: rest => g' ← exec l g; run rest g'
  end.

Definition step (g g' : State) : Prop := exists l, exec l g = Some g'.

(** The states the system reaches from [NewExecutor K]. *)
Inductive reachable (K : Z) : State -> Prop :=
| reach_init : reachable K (NewExecutor K)
| reach_step g g' : reachable K g -> step g g' -> reachable K g'.

(** The states the call [i] reaches by its own steps. *)
Inductive moves (i : nat) : State -> State -> Prop :=
| moves_refl g : moves i g g
| moves_step g g' g'' a : exec (Move i a) g = Some g' -> moves i g' g'' -> moves i g g''.

End Methods.

(** ** What is counted *)

Definition in_process (t : Thread) : bool :=
  match point t with
  | InProcess _ _ => true
  | _ => false
  end.

(** A process started by [cmd.Run()], that is through [Execute]. *)
Definition in_gated_process (t : Thread) : bool :=
  match point t with
  | InProcess (CmdRun _) _ => true
  | _ => false
  end.

(** The units a call holds. *)
Definition holds (t : Thread) : Z := acquired t - released t.

Fixpoint total (f : Thread -> Z) (l : list Thread) : Z :=
  match l with
  | [] => 0
  | t :: rest => f t + total f rest
  end.

Definition indicator (b : bool) : Z := if b then 1 else 0.

(** The engine processes alive, those of them started through
    [Execute], and the units held by all calls. *)
Definition running (g : State) : Z := total (fun t => indicator (in_process t)) (threads g).
Definition gated_running (g : State) : Z :=
  total (fun t => indicator (in_gated_process t)) (threads g).
Definition held (g : State) : Z := total holds (threads g).

End gate.
(* ===================================================================== *)
(** * package api: handlers.go

    A handler is modelled from the point where the transport has bound
    the request: [bound] is either the response the binding part already
    returned, or the request.  [go f(job, req)] hands a task to the
    scheduler; the handler returns it with its response. *)
(* ===================================================================== *)

Module api.
Import GoStd models.

Record Config := {
  UploadDir : string;
  OutputDir : string;
  TempDir : string;
  JobsDir : string;
  JobTimeout : Z
}.

Inductive Body :=
| ErrorResponse (error message : string)
| JobCreated (r : JobResponse)
| JobStatusBody (r : JobStatusResponse).

Record Response := {
  status_code : Z;
  body : Body
}.

Definition StatusOK : Z := 200.
Definition StatusAccepted : Z := 202.
Definition StatusBadRequest : Z := 400.
Definition StatusNotFound : Z := 404.

(** The goroutines the handlers start. *)
Inductive Task :=
| GoMerge (job : nat) (req : MergeVideoRequest)
| GoOverlay (job : nat) (req : OverlayRequest)
| GoAudio (job : nat) (req : AudioRequest)
| GoComplete (job : nat) (req : CompleteProcessRequest)
| GoCombineFromURLs (job : nat) (videoURLs : list string)
| GoCombineFromFiles (job : nat) (uploadedFiles : list string).

(** The job a task works on. *)
Definition task_job (t : Task) : nat :=
  match t with
  | GoMerge job _ | GoOverlay job _ | GoAudio job _ | GoComplete job _
  | GoCombineFromURLs job _ | GoCombineFromFiles job _ => job
  end.

(** [storage.GetObjectName]. *)
Definition GetObjectName (jobID filePath : string) : string :=
  "combined/" +:+ jobID +:+ "/" +:+ Base filePath.

Section Handler.

Variable cfg : Config.
(** The collaborators: the file system and the engine behind the
    executor, the downloader, the object store and [os.Remove] on the
    merged output. *)
Variable stat : string -> ffmpeg.StatResult.
Variable engine : list string -> ffmpeg.ExecOutcome.
Variable DownloadVideosInOrder : list string -> string + list string.
Variable Upload : string -> string -> string + string.
Variable RemoveOutput : string -> option string.

(** [createAndStartJob]; [jobID] is what [uuid.New().String()] returns. *)
Definition createAndStartJob (jobID : string) (w : World) : nat * JobResponse * World :=
  let '(now, w) := Now w in
  let job := NewJob now jobID in
  let '(p, w) := alloc job w in
  let w := Add p w in
  let response :=
    {| jr_JobID := jobID; jr_Status := JobStatusPending;
       jr_Message := "Job created successfully"; jr_CreatedAt := job_CreatedAt job |} in
  (p, response, w).

(** [Handler.MergeVideos], from [// Validate request] on. *)
Definition MergeVideos (jobID : string) (bound : Response + MergeVideoRequest) (w : World)
    : Response * option Task * World :=
  match bound with
  | inl early => (early, None, w)
  | inr req =>
      if Z.of_nat (length (mr_Segments req)) <? 2 then
        ({| status_code := StatusBadRequest;
            body := ErrorResponse "Invalid request" "At least 2 video segments required" |},
         None, w)
      else
        let '(job, response, w) := createAndStartJob jobID w in
        ({| status_code := StatusAccepted; body := JobCreated response |},
         Some (GoMerge job req), w)
  end.

(** [Handler.AddImageOverlay]. *)
Definition AddImageOverlay (jobID : string) (bound : Response + OverlayRequest) (w : World)
    : Response * option Task * World :=
  match bound with
  | inl early => (early, None, w)
  | inr req =>
      let '(job, response, w) := createAndStartJob jobID w in
      ({| status_code := StatusAccepted; body := JobCreated response |},
       Some (GoOverlay job req), w)
  end.

(** [Handler.AddBackgroundMusic]. *)
Definition AddBackgroundMusic (jobID : string) (bound : Response + AudioRequest) (w : World)
    : Response * option Task * World :=
  match bound with
  | inl early => (early, None, w)
  | inr req =>
      let '(job, response, w) := createAndStartJob jobID w in
      ({| status_code := StatusAccepted; body := JobCreated response |},
       Some (GoAudio job req), w)
  end.


(** [handleCombineVideosJSON]. *)
Definition handleCombineVideosJSON (jobID : string) (bound : Response + CombineVideosRequest)
    (w : World) : Response * option Task * World :=
  match bound with
  | inl early => (early, None, w)
  | inr req =>
      if Z.of_nat (length (cv_Videos req)) <? 2 then
        ({| status_code := StatusBadRequest;
            body := ErrorResponse "Invalid request" "At least 2 video URLs are required" |},
         None, w)
      else
        let '(job, response, w) := createAndStartJob jobID w in
        let w :=
          if negb (String.eqb (cv_WebhookURL req) "") then
            let w := poke job (setWebhookURL (cv_WebhookURL req)) w in
            snd (Update job w)
          else w in
        ({| status_code := StatusOK; body := JobCreated response |},
         Some (GoCombineFromURLs job (cv_Videos req)), w)
  end.

(** [Handler.GetJobStatus]. *)
Definition GetJobStatus (jobID : string) (w : World) : Response :=
  match Get jobID w ≫= (fun p => heap w !! p) with
  | None =>
      {| status_code := StatusNotFound;
         body := ErrorResponse "Job not found"
                   ("Job with ID " +:+ jobID +:+ " does not exist") |}
  | Some job => {| status_code := StatusOK; body := JobStatusBody (GetStatus job) |}
  end.

(** [processJobCommon]. *)
Definition processJobCommon (job : nat) (processFn : string -> option string) (w : World)
    : World :=
  let w := call job (UpdateStatus JobStatusProcessing) w in
  let w := call job (UpdateProgress 10) w in
  let w := snd (Update job w) in
  let outputPath := PathJoin [OutputDir cfg; job_id_at job w +:+ ".mp4"] in
  let w := call job (UpdateProgress 30) w in
  let w := snd (Update job w) in
  match processFn outputPath with
  | Some err =>
      let w := call job (SetError err) w in
      snd (Update job w)
  | None =>
      let w := call job (UpdateProgress 100) w in
      let w := call job (SetOutput outputPath) w in
      let w := call job (UpdateStatus JobStatusCompleted) w in
      snd (Update job w)
  end.

Definition processMergeJob (job : nat) (req : MergeVideoRequest) : World -> World :=
  processJobCommon job (fun outputPath =>
    ffmpeg.MergeVideos stat engine (mr_Segments req) outputPath).

Definition processOverlayJob (job : nat) (req : OverlayRequest) : World -> World :=
  processJobCommon job (fun outputPath =>
    ffmpeg.AddImageOverlay stat engine (or_VideoPath req) (or_Overlay req) outputPath).

Definition processAudioJob (job : nat) (req : AudioRequest) : World -> World :=
  processJobCommon job (fun outputPath =>
    ffmpeg.AddBackgroundMusic stat engine (ar_VideoPath req) (ar_Audio req) outputPath).

Definition processCompleteJob (job : nat) (req : CompleteProcessRequest) : World -> World :=
  processJobCommon job (fun outputPath =>
    ffmpeg.CompleteProcess stat engine req outputPath).

(** [processCombineJobCommon]; the webhook notification leaves the core
    and is not part of the state. *)
Definition processCombineJobCommon (job : nat) (inputFiles : list string) (w : World)
    : World :=
  let outputPath := PathJoin [OutputDir cfg; job_id_at job w +:+ ".mp4"] in
  let w := call job (UpdateProgress 60) w in
  let w := snd (Update job w) in
  match ffmpeg.MergeVideosSimple engine inputFiles outputPath with
  | Some err =>
      let w := call job (SetError ("Failed to merge videos: " +:+ err)) w in
      snd (Update job w)
  | None =>
      let w := call job (UpdateProgress 80) w in
      let w := call job (SetOutput outputPath) w in
      let w := snd (Update job w) in
      let objectName := GetObjectName (job_id_at job w) outputPath in
      match Upload outputPath objectName with
      | inl err =>
          let w := call job (SetError ("Failed to upload to S3: " +:+ err)) w in
          snd (Update job w)
      | inr s3URL =>
          let w := call job (SetS3URL s3URL) w in
          let w := call job (UpdateProgress 90) w in
          let w := snd (Update job w) in
          let w :=
            match RemoveOutput outputPath with
            | Some _ => w
            | None => call job (SetOutput "") w
            end in
          let w := call job (UpdateProgress 100) w in
          let w := call job (UpdateStatus JobStatusCompleted) w in
          snd (Update job w)
      end
  end.

(** [processCombineJobFromURLs]. *)
Definition processCombineJobFromURLs (job : nat) (videoURLs : list string) (w : World)
    : World :=
  let w := call job (UpdateStatus JobStatusProcessing) w in
  let w := call job (UpdateProgress 10) w in
  let w := snd (Update job w) in
  let w := call job (UpdateProgress 20) w in
  let w := snd (Update job w) in
  match DownloadVideosInOrder videoURLs with
  | inl err =>
      let w := call job (SetError ("Failed to download videos: " +:+ err)) w in
      snd (Update job w)
  | inr downloadedFiles =>
      let w := call job (UpdateProgress 40) w in
      let w := snd (Update job w) in
      processCombineJobCommon job downloadedFiles w
  end.

(** [processCombineJobFromFiles]. *)
Definition processCombineJobFromFiles (job : nat) (uploadedFiles : list string) (w : World)
    : World :=
  let w := call job (UpdateStatus JobStatusProcessing) w in
  let w := call job (UpdateProgress 10) w in
  let w := snd (Update job w) in
  let w := call job (UpdateProgress 40) w in
  let w := snd (Update job w) in
  processCombineJobCommon job uploadedFiles w.

(** The body of a started goroutine. *)
Definition run_task (t : Task) : World -> World :=
  match t with
  | GoMerge job req => processMergeJob job req
  | GoOverlay job req => processOverlayJob job req
  | GoAudio job req => processAudioJob job req
  | GoComplete job req => processCompleteJob job req
  | GoCombineFromURLs job urls => processCombineJobFromURLs job urls
  | GoCombineFromFiles job files => processCombineJobFromFiles job files
  end.

End Handler.

End api.

(* ===================================================================== *)
(** * package mcp: tools.go *)
(* ===================================================================== *)

Module mcp.
Import GoStd models.

(** A tool result: an error text or the JSON of the job response. *)
Inductive CallToolResult :=
| ToolResultError (text : string)
| ToolResultText (job_id status message : string).

Inductive Task :=
| GoMerge (job : nat) (segments : list VideoSegment)
| GoOverlay (job : nat) (videoPath : string) (overlay : ImageOverlay)
| GoAudio (job : nat) (videoPath : string) (audio : AudioConfig)
| GoComplete (job : nat) (req : CompleteProcessRequest).

Definition task_job (t : Task) : nat :=
  match t with
  | GoMerge job _ | GoOverlay job _ _ | GoAudio job _ _ | GoComplete job _ => job
  end.

Section MCPServer.

Variable cfg : api.Config.
Variable stat : string -> ffmpeg.StatResult.
Variable engine : list string -> ffmpeg.ExecOutcome.

(** [createJobResponse]. *)
Definition createJobResponse (jobID : string) (w : World) : nat * CallToolResult * World :=
  let '(now, w) := Now w in
  let '(p, w) := alloc (NewJob now jobID) w in
  let w := Add p w in
  (p, ToolResultText jobID "pending" "Job created successfully", w).

(** [handleVideoProcessingTool]; [parsed] is the outcome of reading the
    arguments: the error result already built, or the video path and the
    decoded configuration; [processFn] names the goroutine to start. *)
Definition handleVideoProcessingTool {A : Type} (jobID : string)
    (parsed : CallToolResult + string * A) (processFn : nat -> string -> A -> Task)
    (w : World) : CallToolResult * option Task * World :=
  match parsed with
  | inl early => (early, None, w)
  | inr (videoPath, config) =>
      let '(job, responseJSON, w) := createJobResponse jobID w in
      (responseJSON, Some (processFn job videoPath config), w)
  end.

(** [handleAddImageOverlay] and [handleAddBackgroundMusic]. *)
Definition handleAddImageOverlay (jobID : string)
    (parsed : CallToolResult + string * ImageOverlay) : World -> _ :=
  handleVideoProcessingTool jobID parsed GoOverlay.

Definition handleAddBackgroundMusic (jobID : string)
    (parsed : CallToolResult + string * AudioConfig) : World -> _ :=
  handleVideoProcessingTool jobID parsed GoAudio.



(** [processJobCommon] of the MCP server: the job is changed through its
    pointer only, the store is not told. *)
Definition processJobCommon (job : nat) (processFn : string -> option string) (w : World)
    : World :=
  let w := call job (UpdateStatus JobStatusProcessing) w in
  let w := call job (UpdateProgress 10) w in
  let outputPath := PathJoin [api.OutputDir cfg; job_id_at job w +:+ ".mp4"] in
  let w := call job (UpdateProgress 30) w in
  match processFn outputPath with
  | Some err => call job (SetError err) w
  | None =>
      let w := call job (UpdateProgress 100) w in
      let w := call job (SetOutput outputPath) w in
      call job (UpdateStatus JobStatusCompleted) w
  end.

Definition processMergeJob (job : nat) (segments : list VideoSegment) : World -> World :=
  processJobCommon job (fun outputPath =>
    ffmpeg.MergeVideos stat engine segments outputPath).

Definition processOverlayJob (job : nat) (videoPath : string) (overlay : ImageOverlay)
    : World -> World :=
  processJobCommon job (fun outputPath =>
    ffmpeg.AddImageOverlay stat engine videoPath overlay outputPath).

Definition processAudioJob (job : nat) (videoPath : string) (audio : AudioConfig)
    : World -> World :=
  processJobCommon job (fun outputPath =>
    ffmpeg.AddBackgroundMusic stat engine videoPath audio outputPath).

Definition processCompleteJob (job : nat) (req : CompleteProcessRequest) : World -> World :=
  processJobCommon job (fun outputPath =>
    ffmpeg.CompleteProcess stat engine req outputPath).

(** The body of a started goroutine. *)
Definition run_task (t : Task) : World -> World :=
  match t with
  | GoMerge job segments => processMergeJob job segments
  | GoOverlay job videoPath overlay => processOverlayJob job videoPath overlay
  | GoAudio job videoPath audio => processAudioJob job videoPath audio
  | GoComplete job req => processCompleteJob job req
  end.

End MCPServer.

End mcp.

(* ===================================================================== *)
(** * package cleanup: scheduler.go *)
(* ===================================================================== *)

Module cleanup.
Import GoStd models.

Record Scheduler := {
  outputDir : string;
  uploadDir : string;
  tempDir : string;
  retentionDays : Z
}.

(** [entry.Info()]: the file is looked at again when it is asked for. *)
Definition Info (w : World) (dir : string) (entry : DirEntry) : option File :=
  fs w !! PathJoin [dir; Name entry].

(** The loop of [cleanDirectory]. *)
Fixpoint clean_entries (dir : string) (cutoffTime : Time) (entries : list DirEntry)
    (filesDeleted : Z) (w : World) : Z * World :=
  match entries with
  | [] => (filesDeleted, w)
  | entry :: rest =>
      if IsDir entry then clean_entries dir cutoffTime rest filesDeleted w
      else
        let filePath := PathJoin [dir; Name entry] in
        match Info w dir entry with
        | None => clean_entries dir cutoffTime rest filesDeleted w
        | Some info =>
            if Before (f_modTime info) cutoffTime then
              match Remove (fs w) filePath with
              | inl _ => clean_entries dir cutoffTime rest filesDeleted w
              | inr fs' => clean_entries dir cutoffTime rest (filesDeleted + 1) (set_fs fs' w)
              end
            else clean_entries dir cutoffTime rest filesDeleted w
        end
  end.

(** [cleanDirectory]. *)
Definition cleanDirectory (dir : string) (cutoffTime : Time) (w : World) : Z * World :=
  match ReadDir (fs w) dir with
  | inl _ => (0, w)
  | inr entries => clean_entries dir cutoffTime entries 0 w
  end.

(** The loop of [cleanOldJobs]. *)
Fixpoint clean_job_entries (jobsDir : string) (cutoffTime : Time) (entries : list DirEntry)
    (jobsDeleted : Z) (w : World) : Z * World :=
  match entries with
  | [] => (jobsDeleted, w)
  | entry :: rest =>
      if IsDir entry || negb (String.eqb (Ext (Name entry)) ".json") then
        clean_job_entries jobsDir cutoffTime rest jobsDeleted w
      else
        match Info w jobsDir entry with
        | None => clean_job_entries jobsDir cutoffTime rest jobsDeleted w
        | Some info =>
            if Before (f_modTime info) cutoffTime then
              let jobID := take_str (String.length (Name entry) - 5) (Name entry) in
              let w := Delete jobID w in
              clean_job_entries jobsDir cutoffTime rest (jobsDeleted + 1) w
            else clean_job_entries jobsDir cutoffTime rest jobsDeleted w
        end
  end.

(** [cleanOldJobs]. *)
Definition cleanOldJobs (cutoffTime : Time) (w : World) : Z * World :=
  let jobsDir := Dir (GetJobsDir w) in
  if String.eqb jobsDir "" then (0, w)
  else
    match ReadDir (fs w) jobsDir with
    | inl _ => (0, w)
    | inr entries => clean_job_entries jobsDir cutoffTime entries 0 w
    end.

(** [runCleanup]: the files deleted and the jobs deleted. *)
Definition runCleanup (s : Scheduler) (w : World) : Z * Z * World :=
  let '(startTime, w) := Now w in
  let '(now, w) := Now w in
  let cutoffTime := AddDays now (- retentionDays s) in
  let '(n1, w) := cleanDirectory (outputDir s) cutoffTime w in
  let '(n2, w) := cleanDirectory (uploadDir s) cutoffTime w in
  let '(n3, w) := cleanDirectory (tempDir s) cutoffTime w in
  let '(totalJobsDeleted, w) := cleanOldJobs cutoffTime w in
  (0 + n1 + n2 + n3, totalJobsDeleted, w).

End cleanup.

(* ===================================================================== *)
(** * package auth: auth.go *)
(* ===================================================================== *)

Module auth.
Import GoStd.

Definition ErrInvalidToken : string := "invalid or missing API key".
Definition ErrMissingAPIKey : string := "missing X-API-Key header".

Record Validator := { apiKey : string }.

Definition NewValidator (apiKey : string) : Validator := {| apiKey := apiKey |}.

(** [ValidateAPIKey]: [None] is the [nil] error. *)
Definition ValidateAPIKey (v : Validator) (key : string) : option string :=
  if String.eqb key "" then Some ErrMissingAPIKey
  else if negb (String.eqb key (apiKey v)) then Some ErrInvalidToken
  else None.

(** [ValidateToken]. *)
Definition ValidateToken (v : Validator) (authHeader : string) : option string :=
  if String.eqb authHeader "" then Some "missing Authorization header"
  else
    let token := authHeader in
    let token :=
      if (7 <? len authHeader) && String.eqb (take_str 7 authHeader) "Bearer "
      then drop_str 7 authHeader
      else token in
    if negb (String.eqb token (apiKey v)) then Some ErrInvalidToken
    else None.

End auth.

(* ===================================================================== *)
(** * More of the same packages *)
(* ===================================================================== *)

(** ** executor.go: [QuoteArg] *)

Module executor.
Import GoStd.

Definition squote : ascii := "039"%char.

(** The bytes [strings.ContainsAny] looks for: space, tab, new line,
    double quote and single quote. *)
Definition is_special (c : ascii) : bool :=
  (byte c =? 32) || (byte c =? 9) || (byte c =? 10) || (byte c =? 34) || (byte c =? 39).

Fixpoint ContainsAny (s : string) : bool :=
  match s with
  | EmptyString => false
  | String c s' => is_special c || ContainsAny s'
  end.

(** [strings.ReplaceAll(arg, "'", "'\\''")]. *)
Fixpoint replace_squote (s : string) : string :=
  match s with
  | EmptyString => EmptyString
  | String c s' =>
      if Ascii.eqb c squote
      then String squote (String json.backslash (String squote (String squote (replace_squote s'))))
      else String c (replace_squote s')
  end.

(** [QuoteArg]. *)
Definition QuoteArg (arg : string) : string :=
  if ContainsAny arg
  then String squote (replace_squote arg +:+ String squote EmptyString)
  else arg.

End executor.

(** ** audio.go: [ReplaceAudio] *)

Module audio.
Import GoStd models.

(** [buildAudioFilterNoMix]. *)
Definition buildAudioFilterNoMix (audio : AudioConfig) : string :=
  let audioStream := "[1:a]" in
  let audioStream :=
    if ffmpeg.is_set (au_StartTime audio) || ffmpeg.is_set (au_EndTime audio) then
      let trimFilter :=
        match au_StartTime audio, au_EndTime audio with
        | Some s, Some e => "atrim=start=" +:+ fmt_2f s +:+ ":end=" +:+ fmt_2f e
        | Some s, None => "atrim=start=" +:+ fmt_2f s
        | None, Some e => "atrim=end=" +:+ fmt_2f e
        | None, None => ""
        end in
      audioStream +:+ (trimFilter +:+ ",")
    else audioStream in
  let audioStream :=
    if ffmpeg.is_set (au_StartTime audio) || ffmpeg.is_set (au_EndTime audio)
    then audioStream +:+ "asetpts=PTS-STARTPTS,"
    else audioStream in
  let audioStream :=
    match au_FadeIn audio with
    | Some fi =>
        if (0 <? fi)%float
        then audioStream +:+ ("afade=t=in:st=0:d=" +:+ fmt_2f fi +:+ ",")
        else audioStream
    | None => audioStream
    end in
  let audioStream :=
    match au_FadeOut audio with
    | Some fo =>
        if (0 <? fo)%float then
          let fadeOutStart :=
            match au_EndTime audio, au_StartTime audio with
            | Some e, Some s => (e - s - fo)%float
            | _, _ => 0%float
            end in
          if (0 <? fadeOutStart)%float
          then audioStream +:+ ("afade=t=out:st=" +:+ fmt_2f fadeOutStart
                                  +:+ ":d=" +:+ fmt_2f fo +:+ ",")
          else audioStream +:+ ("afade=t=out:d=" +:+ fmt_2f fo +:+ ",")
        else audioStream
    | None => audioStream
    end in
  audioStream +:+ ("volume=" +:+ fmt_2f (au_Volume audio) +:+ "[aout]").

(** [ReplaceAudio] up to the call of [e.Execute]. *)
Definition ReplaceAudio_build (stat : string -> ffmpeg.StatResult) (videoPath : string)
    (audio : AudioConfig) (outputPath : string) : ffmpeg.Built :=
  match ffmpeg.ValidateFile stat videoPath with
  | Some err => ffmpeg.BuildError ("video file: " +:+ err)
  | None =>
      match ffmpeg.ValidateFile stat (au_FilePath audio) with
      | Some err => ffmpeg.BuildError ("audio file: " +:+ err)
      | None =>
          let args := ["-y"; "-i"; videoPath; "-i"; au_FilePath audio] in
          let audioFilter := buildAudioFilterNoMix audio in
          let args := args ++ ["-filter_complex"; audioFilter] in
          let args := args ++ ["-map"; "0:v"; "-map"; "[aout]"] in
          let args := args ++ ["-c:v"; "copy"; "-c:a"; "aac"; "-b:a"; "192k";
                               "-shortest"; outputPath] in
          ffmpeg.Exec args
      end
  end.

Definition ReplaceAudio (stat : string -> ffmpeg.StatResult)
    (engine : list string -> ffmpeg.ExecOutcome) (videoPath : string)
    (audio : AudioConfig) (outputPath : string) : option string :=
  ffmpeg.run engine (ReplaceAudio_build stat videoPath audio outputPath).

End audio.

(** ** handlers.go: [DownloadOutput] *)

Module handlers.
Import GoStd models.

Definition StatusInternalServerError : Z := 500.

(** What [DownloadOutput] answers: an error document, or the file sent
    with its [Content-Disposition] header. *)
Inductive Download :=
| DownloadError (status_code : Z) (error message : string)
| SendFile (path : string) (contentDisposition : string).

(** [Handler.DownloadOutput]. *)
Definition DownloadOutput (stat : string -> ffmpeg.StatResult) (jobID : string) (w : World)
    : Download :=
  match Get jobID w ≫= (fun p => heap w !! p) with
  | None =>
      DownloadError api.StatusNotFound "Job not found"
        ("Job with ID " +:+ jobID +:+ " does not exist")
  | Some job =>
      let status := GetStatus job in
      if negb (String.eqb (sr_Status status) JobStatusCompleted) then
        DownloadError api.StatusAccepted "Job not completed"
          ("Job is currently " +:+ sr_Status status +:+ ". Please wait for it to complete.")
      else if String.eqb (sr_OutputPath status) "" then
        DownloadError StatusInternalServerError "No output file"
          "Job completed but no output file was generated"
      else
        match stat (sr_OutputPath status) with
        | ffmpeg.StatNotExist =>
            DownloadError StatusInternalServerError "File not found"
              "The output file no longer exists on the server"
        | _ =>
            let filename := Base (sr_OutputPath status) in
            SendFile (sr_OutputPath status)
              ("attachment; filename=" +:+ String json.dquote
                 (filename +:+ String json.dquote EmptyString))
        end
  end.

End handlers.

(** ** middleware.go: [AuthMiddleware] *)

Module middleware.
Import GoStd models.

Definition StatusUnauthorized : Z := 401.

(** [AuthMiddleware]: [apiKey] is what [c.Get("X-API-Key")] returns (the
    empty string without the header), [next] what the rest of the chain
    answers. *)
Definition AuthMiddleware (validator : auth.Validator) (apiKey : string)
    (next : api.Response) : api.Response :=
  match auth.ValidateAPIKey validator apiKey with
  | Some _ =>
      {| api.status_code := StatusUnauthorized;
         api.body := api.ErrorResponse "Unauthorized" "Missing or invalid X-API-Key header" |}
  | None => next
  end.

End middleware.

(** ** tools.go: [handleGetJobStatus] *)

Module tools.
Import GoStd models.

Inductive StatusResult :=
| StatusResultError (text : string)
| StatusResultJSON (status : JobStatusResponse).

(** [handleGetJobStatus]; [parsed] is the outcome of reading the
    arguments: the error text already chosen, or the job identifier. *)
Definition handleGetJobStatus (parsed : string + string) (w : World) : StatusResult :=
  match parsed with
  | inl early => StatusResultError early
  | inr jobID =>
      match Get jobID w ≫= (fun p => heap w !! p) with
      | None => StatusResultError ("Job with ID " +:+ jobID +:+ " does not exist")
      | Some job => StatusResultJSON (GetStatus job)
      end
  end.

End tools.
(* ===================================================================== *)
(** * Properties *)
(* ===================================================================== *)

Import GoStd models.

(** [simpl] may compute a concatenation whose left operand is known. *)
Arguments String.append !s1 s2.

(** ** The filter graph of a merge (video.go) *)

Module MergeGraph.
Import ffmpeg.

(** The operations the specification names, and their text in the
    engine's filter syntax. *)
Inductive StreamKind := VideoStream | AudioStream.

Inductive FilterOp :=
| OpTrim (kind : StreamKind) (input : Z) (start : float) (end_bound : option float)
| OpConcat (n : Z) (inputs : list Z).

Definition kind_letter (k : StreamKind) : string :=
  match k with
  | VideoStream => "v"
  | AudioStream => "a"
  end.

Definition kind_prefix (k : StreamKind) : string :=
  match k with
  | VideoStream => ""
  | AudioStream => "a"
  end.

(** [trim=start=S(:end=E)] followed by the reset of the timestamps, from
    stream [input:kind] to the label [kind input]. *)
Definition render (op : FilterOp) : string :=
  match op with
  | OpTrim k i s e =>
      "[" +:+ fmt_d i +:+ ":" +:+ kind_letter k +:+ "]" +:+ kind_prefix k
        +:+ "trim=start=" +:+ fmt_2f s
        +:+ match e with
            | Some e => ":end=" +:+ fmt_2f e
            | None => ""
            end
        +:+ "," +:+ kind_prefix k +:+ "setpts=PTS-STARTPTS[" +:+ kind_letter k
        +:+ fmt_d i +:+ "]"
  | OpConcat n inputs =>
      Join (map (fun i => "[v" +:+ fmt_d i +:+ "][a" +:+ fmt_d i +:+ "]") inputs) ""
        +:+ "concat=n=" +:+ fmt_d n +:+ ":v=1:a=1[outv][outa]"
  end.

Definition is_concat (op : FilterOp) : bool :=
  match op with
  | OpConcat _ _ => true
  | OpTrim _ _ _ _ => false
  end.

(** The upper bound of a segment's trim: none when [end_time] is not
    positive. *)
Definition end_bound (seg : VideoSegment) : option float :=
  if (0 <? seg_EndTime seg)%float then Some (seg_EndTime seg) else None.

(** The trimmed pair of segment [i]. *)
Definition pair_ops (i : Z) (seg : VideoSegment) : list FilterOp :=
  [OpTrim VideoStream i (seg_StartTime seg) (end_bound seg);
   OpTrim AudioStream i (seg_StartTime seg) (end_bound seg)].

Fixpoint trim_ops (i : Z) (segments : list VideoSegment) : list FilterOp :=
  match segments with
  | [] => []
  | seg :: rest => pair_ops i seg ++ trim_ops (i + 1) rest
  end.

Fixpoint indexes (i : Z) (segments : list VideoSegment) : list Z :=
  match segments with
  | [] => []
  | _ :: rest => i :: indexes (i + 1) rest
  end.

End MergeGraph.

Section StringFacts.

Lemma append_assoc (a b c : string) : (a +:+ b) +:+ c = a +:+ (b +:+ c).
Proof. induction a as [|x a IH]; simpl; [reflexivity | now rewrite IH]. Qed.

Lemma append_nil_r (a : string) : a +:+ "" = a.
Proof. induction a as [|x a IH]; simpl; [reflexivity | now rewrite IH]. Qed.

Lemma append_length (a b : string) :
  String.length (a +:+ b) = (String.length a + String.length b)%nat.
Proof. induction a as [|x a IH]; simpl; [reflexivity | now rewrite IH]. Qed.

Lemma eqb_eq_true (a b : string) : String.eqb a b = true <-> a = b.
Proof. apply String.eqb_eq. Qed.

Lemma eqb_eq_false (a b : string) : String.eqb a b = false <-> a <> b.
Proof. apply String.eqb_neq. Qed.

End StringFacts.

(** Two texts built by concatenation are compared after both are put in
    right-nested form. *)
Ltac str_norm := repeat (progress (rewrite ?append_assoc; simpl)).

(** A comparison with zero, through the specification of the primitive
    floats. *)
Lemma float_le0_not_pos (x : float) : (x <=? 0)%float = true -> (0 <? x)%float = false.
Proof.
  rewrite leb_spec, ltb_spec.
  change (Prim2SF 0) with (S754_zero false).
  unfold SFleb, SFltb.
  destruct (Prim2SF x) as [s | s | | s m e]; simpl; try destruct s; simpl; congruence.
Qed.

Section MergeProofs.
Import ffmpeg MergeGraph.

Variable stat : string -> StatResult.

Lemma trimFilter_render i seg :
  trimFilter i seg = render (OpTrim VideoStream i (seg_StartTime seg) (end_bound seg)).
Proof.
  unfold trimFilter, end_bound, render. destruct (0 <? seg_EndTime seg)%float; reflexivity.
Qed.

Lemma atrimFilter_render i seg :
  atrimFilter i seg = render (OpTrim AudioStream i (seg_StartTime seg) (end_bound seg)).
Proof.
  unfold atrimFilter, end_bound, render. destruct (0 <? seg_EndTime seg)%float; reflexivity.
Qed.

Lemma merge_loop_spec segments : forall i filterParts concatInputs,
  merge_loop i segments filterParts concatInputs =
    (filterParts ++ map render (trim_ops i segments),
     concatInputs ++
       map (fun i => "[v" +:+ fmt_d i +:+ "][a" +:+ fmt_d i +:+ "]") (indexes i segments)).
Proof.
  induction segments as [|seg rest IH]; intros i fp ci; simpl.
  - now rewrite !app_nil_r.
  - rewrite IH, trimFilter_render, atrimFilter_render.
    now rewrite <- !app_assoc.
Qed.

Lemma add_inputs_spec segments : forall args,
  add_inputs args segments = args ++ flat_map (fun seg => ["-i"; seg_FilePath seg]) segments.
Proof.
  induction segments as [|seg rest IH]; intros args; simpl.
  - now rewrite app_nil_r.
  - rewrite IH. now rewrite <- app_assoc.
Qed.

Lemma trim_ops_length segments : forall i,
  length (trim_ops i segments) = (2 * length segments)%nat.
Proof. induction segments as [|seg rest IH]; intros i; simpl; [reflexivity | rewrite IH; lia]. Qed.

Lemma trim_ops_lookup segments : forall i k seg,
  segments !! k = Some seg ->
  trim_ops i segments !! (2 * k)%nat =
    Some (OpTrim VideoStream (i + Z.of_nat k) (seg_StartTime seg) (end_bound seg)) /\
  trim_ops i segments !! (2 * k + 1)%nat =
    Some (OpTrim AudioStream (i + Z.of_nat k) (seg_StartTime seg) (end_bound seg)).
Proof.
  induction segments as [|s rest IH]; intros i k seg Hk; [discriminate |].
  destruct k as [|k]; simpl in Hk.
  - injection Hk as ->. simpl. rewrite Z.add_0_r. split; reflexivity.
  - destruct (IH (i + 1) k seg Hk) as [Hv Ha].
    replace (2 * S k)%nat with (S (S (2 * k))) by lia.
    replace (S (S (2 * k)) + 1)%nat with (S (S (2 * k + 1))) by lia.
    simpl trim_ops. simpl lookup.
    replace (i + Z.of_nat (S k)) with (i + 1 + Z.of_nat k) by lia.
    split; assumption.
Qed.

Lemma trim_ops_no_concat segments : forall i,
  filter (fun op => is_concat op = true) (trim_ops i segments) = [].
Proof.
  induction segments as [|s rest IH]; intros i; simpl; [reflexivity |].
  rewrite !filter_cons. simpl.
  destruct (decide (false = true)) as [E|_]; [discriminate | apply IH].
Qed.

Lemma indexes_seq segments : forall i,
  indexes i segments = map (fun k => i + Z.of_nat k) (seq 0 (length segments)).
Proof.
  induction segments as [|s rest IH]; intros i; simpl; [reflexivity |].
  rewrite Z.add_0_r. f_equal. rewrite IH, <- seq_shift, map_map.
  apply map_ext. intros k. lia.
Qed.

Lemma validate_segments_ok segments : forall i,
  Forall (fun seg => ValidateFile stat (seg_FilePath seg) = None) segments ->
  validate_segments stat i segments = None.
Proof.
  induction segments as [|s rest IH]; intros i H; simpl; [reflexivity |].
  inversion H as [|? ? Hs Hrest]; subst. rewrite Hs. now apply IH.
Qed.

End MergeProofs.

(** C1. For a Merge request with N >= 2 segments whose files validate,
    [MergeVideos] hands the engine an argument list whose filter graph
    is, in request order, one video trim and one audio trim (each with
    the timestamps reset) per segment, followed by exactly one
    concatenation with n = N that consumes the N trimmed pairs in request
    order; a segment whose end time is not positive is trimmed with a
    start bound and no end bound. *)
Theorem MergeVideos_filter_graph (stat : string -> ffmpeg.StatResult)
    (segments : list VideoSegment) (outputPath : string) :
  (2 <= length segments)%nat ->
  Forall (fun seg => ffmpeg.ValidateFile stat (seg_FilePath seg) = None) segments ->
  exists ops : list MergeGraph.FilterOp,
    ffmpeg.MergeVideos_build stat segments outputPath =
      ffmpeg.Exec
        (["-y"] ++ flat_map (fun seg => ["-i"; seg_FilePath seg]) segments
           ++ ["-filter_complex"; Join (map MergeGraph.render ops) ";";
               "-map"; "[outv]"; "-map"; "[outa]";
               "-c:v"; "libx264"; "-preset"; "medium"; "-crf"; "23";
               "-c:a"; "aac"; "-b:a"; "192k"; outputPath])
    /\ length ops = (2 * length segments + 1)%nat
    /\ (forall i seg, segments !! i = Some seg ->
          ops !! (2 * i)%nat =
            Some (MergeGraph.OpTrim MergeGraph.VideoStream (Z.of_nat i)
                    (seg_StartTime seg) (MergeGraph.end_bound seg))
          /\ ops !! (2 * i + 1)%nat =
            Some (MergeGraph.OpTrim MergeGraph.AudioStream (Z.of_nat i)
                    (seg_StartTime seg) (MergeGraph.end_bound seg))
          /\ ((seg_EndTime seg <=? 0)%float = true -> MergeGraph.end_bound seg = None)
          /\ ((0 <? seg_EndTime seg)%float = true ->
              MergeGraph.end_bound seg = Some (seg_EndTime seg)))
    /\ ops !! (2 * length segments)%nat =
         Some (MergeGraph.OpConcat (Z.of_nat (length segments))
                 (map Z.of_nat (seq 0 (length segments))))
    /\ length (filter (fun op => MergeGraph.is_concat op = true) ops) = 1%nat.
Proof.
  intros Hlen Hvalid.
  exists (MergeGraph.trim_ops 0 segments
            ++ [MergeGraph.OpConcat (Z.of_nat (length segments))
                  (map Z.of_nat (seq 0 (length segments)))]).
  repeat split.
  - unfold ffmpeg.MergeVideos_build.
    destruct (Z.ltb_spec (Z.of_nat (length segments)) 2) as [Hlt|_]; [lia |].
    rewrite (validate_segments_ok stat segments 0 Hvalid).
    rewrite merge_loop_spec, add_inputs_spec.
    unfold ffmpeg.BuildFilterComplex. rewrite !app_nil_l, map_app, indexes_seq.
    rewrite <- !app_assoc.
    replace (map (fun k : nat => 0 + Z.of_nat k) (seq 0 (length segments)))
      with (map Z.of_nat (seq 0 (length segments)))
      by (apply map_ext; intros; lia).
    reflexivity.
  - rewrite length_app, trim_ops_length. simpl. lia.
  - rewrite lookup_app_l.
    + destruct (trim_ops_lookup segments 0 i seg H) as [Hv _].
      rewrite Hv. now rewrite Z.add_0_l.
    + rewrite trim_ops_length. apply lookup_lt_Some in H. lia.
  - rewrite lookup_app_l.
    + destruct (trim_ops_lookup segments 0 i seg H) as [_ Ha].
      rewrite Ha. now rewrite Z.add_0_l.
    + rewrite trim_ops_length. apply lookup_lt_Some in H. lia.
  - intros Hle. unfold MergeGraph.end_bound. now rewrite (float_le0_not_pos _ Hle).
  - intros Hpos. unfold MergeGraph.end_bound. now rewrite Hpos.
  - rewrite lookup_app_r; rewrite trim_ops_length; [|lia].
    now rewrite Nat.sub_diag.
  - rewrite filter_app, trim_ops_no_concat. reflexivity.
Qed.

(** The request of scenario (a): two segments, the second to its end. *)
Definition merge_example : list VideoSegment :=
  [{| seg_FilePath := "a.mp4"; seg_StartTime := 0; seg_EndTime := 10 |};
   {| seg_FilePath := "b.mp4"; seg_StartTime := 5; seg_EndTime := 0 |}].

Lemma MergeVideos_filter_graph_witness :
  (2 <= length merge_example)%nat
  /\ Forall (fun seg => ffmpeg.ValidateFile (fun _ => ffmpeg.StatOk) (seg_FilePath seg) = None)
       merge_example
  /\ exists ops : list MergeGraph.FilterOp,
       ffmpeg.MergeVideos_build (fun _ => ffmpeg.StatOk) merge_example "out.mp4" =
         ffmpeg.Exec
           (["-y"] ++ flat_map (fun seg => ["-i"; seg_FilePath seg]) merge_example
              ++ ["-filter_complex"; Join (map MergeGraph.render ops) ";";
                  "-map"; "[outv]"; "-map"; "[outa]";
                  "-c:v"; "libx264"; "-preset"; "medium"; "-crf"; "23";
                  "-c:a"; "aac"; "-b:a"; "192k"; "out.mp4"])
       /\ length ops = 5%nat.
Proof.
  assert (H1 : (2 <= length merge_example)%nat) by (simpl; lia).
  assert (H2 : Forall (fun seg =>
                 ffmpeg.ValidateFile (fun _ => ffmpeg.StatOk) (seg_FilePath seg) = None)
                 merge_example) by (repeat constructor).
  split; [exact H1 | split; [exact H2 |]].
  destruct (MergeVideos_filter_graph (fun _ => ffmpeg.StatOk) merge_example "out.mp4" H1 H2)
    as (ops & Hbuild & Hlen & _).
  exists ops. split; [exact Hbuild | exact Hlen].
Defined.

(** ** Fades of an overlay and of the music track *)

Module FadeSpec.
Import ffmpeg_go.

(** A fade as the specification speaks of it: it covers
    [[fade_start, fade_start + fade_duration)]. *)
Record FadeOp := {
  fade_type : string;
  fade_start : float;
  fade_duration : float
}.

(** Its text in a filter chain. *)
Definition fade_text (op : FadeOp) : string :=
  "fade=t=" +:+ fade_type op +:+ ":st=" +:+ fmt_2f (fade_start op)
    +:+ ":d=" +:+ fmt_2f (fade_duration op).

Definition kw_number (v : KwVal) : option float :=
  match v with
  | KwInt z => Some (PrimFloat.of_uint63 (Uint63.of_Z z))
  | KwFloat x => Some x
  | KwStr _ => None
  end.

Definition kw_text (v : KwVal) : option string :=
  match v with
  | KwStr s => Some s
  | _ => None
  end.

(** The fade a [fade] node of the graph stands for. *)
Definition node_fade (kwargs : gmap string KwVal) : option FadeOp :=
  t ← kwargs !! "t" ≫= kw_text;
  st ← kwargs !! "st" ≫= kw_number;
  d ← kwargs !! "d" ≫= kw_number;
  Some {| fade_type := t; fade_start := st; fade_duration := d |}.

(** The fades on the way from the source of a stream to its end. *)
Fixpoint graph_fades (s : Stream) : list FadeOp :=
  match s with
  | Filter [s'] name _ kwargs =>
      if String.eqb name "fade"
      then graph_fades s' ++ option_list (node_fade kwargs)
      else graph_fades s'
  | _ => []
  end.

(** The fade duration in force: the request's, or one second. *)
Definition fade_duration_of (overlay : ImageOverlay) : float :=
  default 1%float (ov_FadeDuration overlay).

(** The fade-in text of the music track. *)
Definition fade_in_text (audio : AudioConfig) : string :=
  match au_FadeIn audio with
  | Some fi => if (0 <? fi)%float then "afade=t=in:st=0:d=" +:+ fmt_2f fi +:+ "," else ""
  | None => ""
  end.

End FadeSpec.

(** An overlay shown from second 2 to second 7 that fades for one second. *)
Definition overlay_2_7 : ImageOverlay :=
  {| ov_FilePath := "logo.png"; ov_Position := PositionTopRight;
     ov_X := None; ov_Y := None; ov_StartTime := 2; ov_EndTime := 7;
     ov_Animation := AnimationFade; ov_FadeDuration := Some 1%float;
     ov_SlideDirection := None; ov_SlideDuration := None;
     ov_ZoomFrom := None; ov_ZoomTo := None |}.

(** C5, as stated, fails on the graph builder: for the window [2,7) and a
    one second fade it emits a fade-in at 0 and a fade-out at 4, not at 2
    and at 6. *)
Lemma overlay_fade_graph_counterexample :
  FadeSpec.graph_fades
    (ffmpeg_go.animate overlay_2_7
       (ffmpeg_go.Filter [ffmpeg_go.Input "logo.png"] "format" ["rgba"] ∅)) =
    [{| FadeSpec.fade_type := "in"; FadeSpec.fade_start := 0; FadeSpec.fade_duration := 1 |};
     {| FadeSpec.fade_type := "out"; FadeSpec.fade_start := 4; FadeSpec.fade_duration := 1 |}]
  /\ (0 =? ov_StartTime overlay_2_7)%float = false
  /\ (4 =? ov_EndTime overlay_2_7 - 1)%float = false.
Proof. vm_compute. repeat split; reflexivity. Qed.

Lemma graph_fades_animate (overlay : ImageOverlay) (base : ffmpeg_go.Stream) :
  ov_Animation overlay = AnimationFade ->
  FadeSpec.graph_fades (ffmpeg_go.animate overlay base) =
    FadeSpec.graph_fades base ++
    [{| FadeSpec.fade_type := "in"; FadeSpec.fade_start := 0;
        FadeSpec.fade_duration := FadeSpec.fade_duration_of overlay |};
     {| FadeSpec.fade_type := "out";
        FadeSpec.fade_start :=
          (ov_EndTime overlay - ov_StartTime overlay - FadeSpec.fade_duration_of overlay)%float;
        FadeSpec.fade_duration := FadeSpec.fade_duration_of overlay |}].
Proof.
  intros Hfade. unfold ffmpeg_go.animate. rewrite Hfade.
  change (String.eqb AnimationFade AnimationFade) with true. cbv iota.
  cbn [FadeSpec.graph_fades String.eqb Ascii.eqb Bool.eqb].
  rewrite <- app_assoc. f_equal.
Qed.

(** C5 (amended). With fade animation and fade duration d (one second
    when the request gives none), the text builder [buildOverlayFilter]
    emits a fade-in with st = start and a fade-out with st = end - d, both
    of duration d; the graph builder [AddImageOverlay] emits them relative
    to the window, at 0 and at (end - start) - d.  For the window [0,5)
    and d = 1.0 both emit a fade-in over [0,1) and a fade-out from 4. *)
Theorem overlay_fade_windows (overlay : ImageOverlay) (base : ffmpeg_go.Stream) :
  ov_Animation overlay = AnimationFade ->
  let d := FadeSpec.fade_duration_of overlay in
  ffmpeg.buildOverlayFilter overlay =
    "[1:v]"
      +:+ FadeSpec.fade_text
            {| FadeSpec.fade_type := "in"; FadeSpec.fade_start := ov_StartTime overlay;
               FadeSpec.fade_duration := d |}
      +:+ ","
      +:+ FadeSpec.fade_text
            {| FadeSpec.fade_type := "out";
               FadeSpec.fade_start := (ov_EndTime overlay - d)%float;
               FadeSpec.fade_duration := d |}
      +:+ "[overlay];[0:v][overlay]" +:+ ffmpeg.buildOverlayExpression overlay
  /\ FadeSpec.graph_fades (ffmpeg_go.animate overlay base) =
       FadeSpec.graph_fades base ++
       [{| FadeSpec.fade_type := "in"; FadeSpec.fade_start := 0;
           FadeSpec.fade_duration := d |};
        {| FadeSpec.fade_type := "out";
           FadeSpec.fade_start := (ov_EndTime overlay - ov_StartTime overlay - d)%float;
           FadeSpec.fade_duration := d |}]
  /\ (ov_StartTime overlay = 0%float -> ov_EndTime overlay = 5%float ->
      ov_FadeDuration overlay = Some 1%float ->
      ffmpeg.buildOverlayFilter overlay =
        "[1:v]fade=t=in:st=0.00:d=1.00,fade=t=out:st=4.00:d=1.00[overlay];[0:v][overlay]"
          +:+ ffmpeg.buildOverlayExpression overlay
      /\ FadeSpec.graph_fades (ffmpeg_go.animate overlay base) =
           FadeSpec.graph_fades base ++
           [{| FadeSpec.fade_type := "in"; FadeSpec.fade_start := 0;
               FadeSpec.fade_duration := 1 |};
            {| FadeSpec.fade_type := "out"; FadeSpec.fade_start := 4;
               FadeSpec.fade_duration := 1 |}]).
Proof.
  intros Hfade d.
  assert (Htext : ffmpeg.buildOverlayFilter overlay =
    "[1:v]"
      +:+ FadeSpec.fade_text
            {| FadeSpec.fade_type := "in"; FadeSpec.fade_start := ov_StartTime overlay;
               FadeSpec.fade_duration := d |}
      +:+ ","
      +:+ FadeSpec.fade_text
            {| FadeSpec.fade_type := "out";
               FadeSpec.fade_start := (ov_EndTime overlay - d)%float;
               FadeSpec.fade_duration := d |}
      +:+ "[overlay];[0:v][overlay]" +:+ ffmpeg.buildOverlayExpression overlay).
  { unfold ffmpeg.buildOverlayFilter. rewrite Hfade.
    change (String.eqb AnimationFade AnimationFade) with true. cbv iota.
    unfold FadeSpec.fade_text, d, FadeSpec.fade_duration_of.
    cbn [app Join FadeSpec.fade_type FadeSpec.fade_start FadeSpec.fade_duration].
    str_norm. reflexivity. }
  split; [exact Htext | split; [now apply graph_fades_animate |]].
  intros Hs He Hd. split.
  - rewrite Htext. unfold d, FadeSpec.fade_duration_of, FadeSpec.fade_text.
    rewrite Hs, He, Hd. reflexivity.
  - rewrite (graph_fades_animate overlay base Hfade).
    unfold FadeSpec.fade_duration_of. rewrite Hs, He, Hd. reflexivity.
Qed.

(** Scenario (c): the window [0,5) with a one second fade. *)
Definition overlay_0_5 : ImageOverlay :=
  {| ov_FilePath := "logo.png"; ov_Position := PositionTopRight;
     ov_X := None; ov_Y := None; ov_StartTime := 0; ov_EndTime := 5;
     ov_Animation := AnimationFade; ov_FadeDuration := Some 1%float;
     ov_SlideDirection := None; ov_SlideDuration := None;
     ov_ZoomFrom := None; ov_ZoomTo := None |}.

Lemma overlay_fade_windows_witness :
  ov_Animation overlay_0_5 = AnimationFade
  /\ ffmpeg.buildOverlayFilter overlay_0_5 =
       "[1:v]fade=t=in:st=0.00:d=1.00,fade=t=out:st=4.00:d=1.00[overlay];[0:v][overlay]overlay=(main_w-overlay_w-10):10:enable='between(t,0.00,5.00)'"
  /\ FadeSpec.graph_fades (ffmpeg_go.animate overlay_0_5 (ffmpeg_go.Input "logo.png")) =
       [{| FadeSpec.fade_type := "in"; FadeSpec.fade_start := 0; FadeSpec.fade_duration := 1 |};
        {| FadeSpec.fade_type := "out"; FadeSpec.fade_start := 4; FadeSpec.fade_duration := 1 |}].
Proof.
  assert (H : ov_Animation overlay_0_5 = AnimationFade) by reflexivity.
  split; [exact H |].
  destruct (overlay_fade_windows overlay_0_5 (ffmpeg_go.Input "logo.png") H)
    as (_ & _ & Hex).
  destruct (Hex eq_refl eq_refl eq_refl) as [Ht Hg].
  split; [rewrite Ht; vm_compute; reflexivity | exact Hg].
Defined.

(** C6. With a fade-out of duration f > 0 and a trim window [start, end],
    both builders of the music track start the fade-out at
    end - start - f when that value is positive and emit it without a
    start (it then starts with the track) otherwise; for the window
    [0,30] and f = 2 the fade-out starts at 28. *)
Theorem audio_fade_out_start (audio : AudioConfig) (s e f : float)
    (base : ffmpeg_go.Stream) :
  au_StartTime audio = Some s ->
  au_EndTime audio = Some e ->
  au_FadeOut audio = Some f ->
  (0 <? f)%float = true ->
  ffmpeg.buildAudioFilter audio =
    "[1:a]atrim=start=" +:+ fmt_2f s +:+ ":end=" +:+ fmt_2f e +:+ ",asetpts=PTS-STARTPTS,"
      +:+ FadeSpec.fade_in_text audio
      +:+ (if (0 <? e - s - f)%float
           then "afade=t=out:st=" +:+ fmt_2f (e - s - f)%float +:+ ":d=" +:+ fmt_2f f +:+ ","
           else "afade=t=out:d=" +:+ fmt_2f f +:+ ",")
      +:+ "volume=" +:+ fmt_2f (au_Volume audio)
      +:+ "[music];[0:a][music]amix=inputs=2:duration=first:dropout_transition=2[aout]"
  /\ (exists before : ffmpeg_go.Stream,
        ffmpeg_go.applyAudioFilters base audio =
          ffmpeg_go.Filter
            [ffmpeg_go.Filter [before] "afade" []
               (if (0 <? e - s - f)%float
                then <["st" := ffmpeg_go.KwFloat (e - s - f)%float]>
                       (<["t" := ffmpeg_go.KwStr "out"]> (<["d" := ffmpeg_go.KwFloat f]> ∅))
                else <["t" := ffmpeg_go.KwStr "out"]> (<["d" := ffmpeg_go.KwFloat f]> ∅))]
            "volume" [fmt_2f (au_Volume audio)] ∅)
  /\ (s = 0%float -> e = 30%float -> f = 2%float ->
      (0 <? e - s - f)%float = true /\ (e - s - f)%float = 28%float
      /\ fmt_2f (e - s - f)%float = "28.00").
Proof.
  intros Hs He Hf Hpos. split; [| split].
  - unfold ffmpeg.buildAudioFilter, FadeSpec.fade_in_text.
    rewrite Hs, He, Hf, Hpos. cbn [ffmpeg.is_set orb app Join].
    destruct (au_FadeIn audio) as [fi|]; [destruct (0 <? fi)%float |];
      destruct (0 <? e - s - f)%float; str_norm; reflexivity.
  - unfold ffmpeg_go.applyAudioFilters.
    rewrite Hs, He, Hf, Hpos. cbn [ffmpeg.is_set orb].
    destruct (0 <? e - s - f)%float; eexists; reflexivity.
  - intros -> -> ->. vm_compute. repeat split; reflexivity.
Qed.

(** Scenario (d): volume 0.3, a two second fade-out, the window [0,30]. *)
Definition audio_0_30 : AudioConfig :=
  {| au_FilePath := "music.mp3"; au_Volume := 0x1.3333333333333p-2;
     au_StartTime := Some 0%float; au_EndTime := Some 30%float;
     au_FadeIn := None; au_FadeOut := Some 2%float |}.

Lemma audio_fade_out_start_witness :
  au_StartTime audio_0_30 = Some 0%float
  /\ au_EndTime audio_0_30 = Some 30%float
  /\ au_FadeOut audio_0_30 = Some 2%float
  /\ (0 <? 2)%float = true
  /\ ffmpeg.buildAudioFilter audio_0_30 =
       "[1:a]atrim=start=0.00:end=30.00,asetpts=PTS-STARTPTS,afade=t=out:st=28.00:d=2.00,volume=0.30[music];[0:a][music]amix=inputs=2:duration=first:dropout_transition=2[aout]".
Proof.
  assert (H1 : au_StartTime audio_0_30 = Some 0%float) by reflexivity.
  assert (H2 : au_EndTime audio_0_30 = Some 30%float) by reflexivity.
  assert (H3 : au_FadeOut audio_0_30 = Some 2%float) by reflexivity.
  assert (H4 : (0 <? 2)%float = true) by reflexivity.
  repeat (split; [assumption |]).
  destruct (audio_fade_out_start audio_0_30 0 30 2 (ffmpeg_go.Input "music.mp3") H1 H2 H3 H4)
    as (Ht & _ & _).
  rewrite Ht. vm_compute. reflexivity.
Defined.

(** ** The token check of the MCP endpoint (auth.go) *)

Section TokenFacts.

Lemma take_drop_str (n : nat) (s : string) : take_str n s +:+ drop_str n s = s.
Proof.
  revert s. induction n as [|n IH]; intros s; [reflexivity |].
  destruct s as [|c s]; [reflexivity |]. simpl. now rewrite IH.
Qed.

Lemma drop_str_length (n : nat) (s : string) :
  String.length (drop_str n s) = (String.length s - n)%nat.
Proof.
  revert s. induction n as [|n IH]; intros s; simpl; [lia |].
  destruct s as [|c s]; simpl; [reflexivity | apply IH].
Qed.

Lemma length_zero_empty (s : string) : String.length s = 0%nat -> s = "".
Proof. destruct s; [reflexivity | discriminate]. Qed.

End TokenFacts.

(** C10, as stated, fails for a configured key that itself begins with
    the scheme: the bare key is then refused. *)
Lemma ValidateToken_bare_key_counterexample :
  let v := auth.NewValidator "Bearer abc" in
  let header := auth.apiKey v in
  auth.ValidateToken v header = Some auth.ErrInvalidToken.
Proof. reflexivity. Qed.

(** C10 (amended). [ValidateToken] succeeds exactly when the header is
    the configured key behind the prefix "Bearer " and the key is not
    empty, or the header is the bare configured key, is not empty and is
    not itself longer than seven bytes with the prefix "Bearer "; the
    empty header is always an error.  So for a key that is not empty and
    does not begin with "Bearer " the accepted headers are exactly the key
    with the prefix and the bare key: the Bearer scheme is not needed. *)
Theorem ValidateToken_succeeds_iff (v : auth.Validator) (header : string) :
  (auth.ValidateToken v header = None <->
   (header = "Bearer " +:+ auth.apiKey v /\ auth.apiKey v <> "")
   \/ (header = auth.apiKey v /\ header <> ""
       /\ ~ (7 < len header /\ take_str 7 header = "Bearer ")))
  /\ auth.ValidateToken v "" = Some "missing Authorization header"
  /\ (auth.apiKey v <> "" -> take_str 7 (auth.apiKey v) <> "Bearer " ->
      (auth.ValidateToken v header = None <->
       header = "Bearer " +:+ auth.apiKey v \/ header = auth.apiKey v)).
Proof.
  assert (Hiff : auth.ValidateToken v header = None <->
    (header = "Bearer " +:+ auth.apiKey v /\ auth.apiKey v <> "")
    \/ (header = auth.apiKey v /\ header <> ""
        /\ ~ (7 < len header /\ take_str 7 header = "Bearer "))).
  { unfold auth.ValidateToken, len. split.
    - destruct (String.eqb_spec header "") as [->|Hne]; [discriminate |].
      destruct (Z.ltb_spec 7 (Z.of_nat (String.length header))) as [Hlen|Hlen];
        destruct (String.eqb_spec (take_str 7 header) "Bearer ") as [Hpre|Hpre];
        cbn [andb];
        match goal with
        | |- context [String.eqb ?t (auth.apiKey v)] =>
            destruct (String.eqb_spec t (auth.apiKey v)) as [Htok|Htok];
            [| discriminate]
        end; intros _.
      + left. split.
        * rewrite <- Htok, <- Hpre. symmetry. apply take_drop_str.
        * intros Hempty. rewrite Hempty in Htok.
          apply (f_equal String.length) in Htok. rewrite drop_str_length in Htok.
          simpl in Htok. lia.
      + right. split; [exact Htok | split; [exact Hne |]]. intros [_ H]. contradiction.
      + right. split; [exact Htok | split; [exact Hne |]]. intros [H _]. lia.
      + right. split; [exact Htok | split; [exact Hne |]]. intros [H _]. lia.
    - intros [[-> Hkey] | (-> & Hne & Hnot)].
      + simpl String.eqb at 1. rewrite append_length. simpl String.length.
        destruct (Z.ltb_spec 7 (Z.of_nat (7 + String.length (auth.apiKey v)))) as [_|Hlen].
        * simpl. now rewrite String.eqb_refl.
        * destruct (auth.apiKey v); [contradiction | simpl in Hlen; lia].
      + destruct (String.eqb_spec (auth.apiKey v) "") as [E|_]; [contradiction |].
        destruct (Z.ltb_spec 7 (Z.of_nat (String.length (auth.apiKey v)))) as [Hlen|Hlen];
          destruct (String.eqb_spec (take_str 7 (auth.apiKey v)) "Bearer ") as [Hpre|Hpre];
          cbn [andb]; rewrite ?String.eqb_refl; try reflexivity.
        exfalso. apply Hnot. split; assumption. }
  split; [exact Hiff | split; [reflexivity |]].
  intros Hkey Hpre. rewrite Hiff. split.
  - intros [[-> _] | [-> _]]; [now left | now right].
  - intros [-> | ->]; [left; now split | right].
    split; [reflexivity | split; [exact Hkey |]]. intros [_ H]. contradiction.
Qed.

Lemma ValidateToken_succeeds_iff_witness :
  auth.apiKey (auth.NewValidator "secret") <> ""
  /\ take_str 7 (auth.apiKey (auth.NewValidator "secret")) <> "Bearer "
  /\ auth.ValidateToken (auth.NewValidator "secret") "secret" = None
  /\ auth.ValidateToken (auth.NewValidator "secret") "Bearer secret" = None.
Proof.
  assert (H1 : auth.apiKey (auth.NewValidator "secret") <> "") by discriminate.
  assert (H2 : take_str 7 (auth.apiKey (auth.NewValidator "secret")) <> "Bearer ")
    by discriminate.
  split; [exact H1 | split; [exact H2 |]].
  split.
  - apply (proj2 (proj2 (ValidateToken_succeeds_iff (auth.NewValidator "secret") "secret"))
             H1 H2).
    now right.
  - apply (proj2 (proj2 (ValidateToken_succeeds_iff (auth.NewValidator "secret")
                           "Bearer secret")) H1 H2).
    now left.
Defined.
(** ** The admission gate (executor.go) *)

Module GateSpec.
Import gate.

(** The units the deferred calls of a thread will give back. *)
Fixpoint pending (ds : list Deferred) : Z :=
  match ds with
  | [] => 0
  | Release n :: rest => n + pending rest
  | Cancel :: rest => pending rest
  end.

Fixpoint nonneg (ds : list Deferred) : Prop :=
  match ds with
  | [] => True
  | Release n :: rest => 0 <= n /\ nonneg rest
  | Cancel :: rest => nonneg rest
  end.

(** The units a thread holds and has not yet deferred the release of. *)
Definition owed (t : Thread) : Z := holds t - pending (defers t).

(** A program that keeps the discipline of the gate, run by a thread
    that holds [held] units of which [owed] have no deferred release yet:
    it defers the release of every unit it acquires before it returns,
    never defers more than it holds, and starts a process with
    [cmd.Run()] only while it holds a unit.  Nothing is asked of
    [output.Run()]. *)
Inductive disciplined : Prog -> Z -> Z -> Prop :=
| disc_acquire n k owed held :
    0 <= n ->
    disciplined (k None) (owed + n) (held + n) ->
    (forall ctxErr, disciplined (k (Some ctxErr)) owed held) ->
    disciplined (Acquire n k) owed held
| disc_release n k owed held :
    0 <= n -> n <= owed ->
    disciplined k (owed - n) held ->
    disciplined (Defer (Release n) k) owed held
| disc_cancel k owed held :
    disciplined k owed held ->
    disciplined (Defer Cancel k) owed held
| disc_cmd args k owed held :
    1 <= held ->
    (forall err stderr, disciplined (k err stderr) owed held) ->
    disciplined (Run (CmdRun args) k) owed held
| disc_output graph k owed held :
    (forall err stderr, disciplined (k err stderr) owed held) ->
    disciplined (Run (OutputRun graph) k) owed held
| disc_return err held :
    disciplined (Return err) 0 held.

(** What holds of a thread at every point. *)
Definition thread_ok (t : Thread) : Prop :=
  0 <= owed t /\ nonneg (defers t)
  /\ match point t with
     | At code => disciplined code (owed t) (holds t)
     | InProcess c k =>
         match c with
         | CmdRun _ => 1 <= holds t
         | OutputRun _ => True
         end
         /\ forall err stderr, disciplined (k err stderr) (owed t) (holds t)
     | Returning _ => owed t = 0
     | Done _ => owed t = 0 /\ defers t = []
     end.

(** What holds of every reachable state. *)
Definition gate_inv (K : Z) (g : State) : Prop :=
  size (sem g) = K /\ cur (sem g) = held g /\ held g <= K
  /\ Forall thread_ok (threads g).



(** The steps of a new call of [Execute] that is admitted and whose
    process ends with [err]. *)
Definition process_path (i : nat) (args : list string) (err : option string)
    (stderr : string) : list Label :=
  [NewCall (CallExecute args);
   Move i Granted;                   (* [e.sem.Acquire] returns [nil] *)
   Move i Advance;                   (* [defer e.sem.Release(1)] *)
   Move i Advance;                   (* [defer cancel()] *)
   Move i Advance;                   (* [cmd.Run()] starts the process *)
   Move i (ProcessExit err stderr);  (* the process ends *)
   Move i Advance;                   (* [return] *)
   Move i Advance;                   (* deferred [cancel()] *)
   Move i Advance;                   (* deferred [e.sem.Release(1)] *)
   Move i Advance].                  (* back at the caller *)

Definition is_move (l : Label) : bool :=
  match l with
  | Move _ _ => true
  | NewCall _ => false
  end.

Definition is_done (t : Thread) : Prop :=
  exists err, point t = Done err /\ acquired t = released t.

End GateSpec.

Section GateFacts.
Import gate GateSpec.

Variable stat : string -> ffmpeg.StatResult.

Lemma total_app f l1 l2 : total f (l1 ++ l2) = total f l1 + total f l2.
Proof. induction l1 as [|t l1 IH]; simpl; [reflexivity | rewrite IH; lia]. Qed.

Lemma total_insert f (l : list Thread) : forall i old new,
  l !! i = Some old -> total f (<[i := new]> l) = total f l - f old + f new.
Proof.
  induction l as [|t l IH]; intros i old new Hi; [discriminate |].
  destruct i as [|i]; simpl in *.
  - injection Hi as ->. lia.
  - rewrite (IH i old new Hi). lia.
Qed.


Lemma total_lookup_le f (l : list Thread) i t :
  Forall (fun t => 0 <= f t) l -> l !! i = Some t -> f t <= total f l.
Proof.
  intros Hall. revert i. induction Hall as [|x l Hx Hl IH]; intros i Hi; [discriminate |].
  destruct i as [|i]; simpl in *.
  - injection Hi as ->. assert (0 <= total f l) by (clear -Hl; induction Hl; simpl; lia). lia.
  - specialize (IH i Hi). lia.
Qed.

Lemma pending_nonneg ds : nonneg ds -> 0 <= pending ds.
Proof.
  induction ds as [|[n|] ds IH]; simpl; [lia | intros [Hn Hd]; specialize (IH Hd); lia | exact IH].
Qed.

Lemma thread_ok_holds t : thread_ok t -> 0 <= holds t.
Proof.
  intros (Ho & Hn & _). pose proof (pending_nonneg _ Hn). unfold owed in Ho. lia.
Qed.


(** The bodies of the methods keep the discipline. *)
Lemma Execute_disciplined args : disciplined (Execute args) 0 0.
Proof.
  unfold Execute. apply disc_acquire; [lia | | intros ctxErr; apply disc_return].
  apply disc_release; [lia | lia |]. apply disc_cancel.
  apply disc_cmd; [lia |]. intros err stderr. apply disc_return.
Qed.

Lemma of_built_disciplined b : disciplined (of_built b) 0 0.
Proof. destruct b; [apply disc_return | apply Execute_disciplined]. Qed.

Lemma body_disciplined c : disciplined (body stat c) 0 0.
Proof.
  destruct c; cbn [body].
  - apply Execute_disciplined.
  - apply of_built_disciplined.
  - apply of_built_disciplined.
  - unfold AddBackgroundMusic.
    destruct (ffmpeg_go.AddBackgroundMusic _ _ _ _); [apply disc_return |].
    apply disc_output. intros err stderr. apply disc_return.
Qed.

(** One step of a thread keeps what holds of it, and moves the count of
    the semaphore by what the thread takes or gives back. *)
Lemma thread_step_ok a s t s' t' :
  thread_ok t ->
  thread_step a s t = Some (s', t') ->
  thread_ok t'
  /\ size s' = size s
  /\ cur s' - holds t' = cur s - holds t
  /\ (cur s' <= size s \/ cur s' <= cur s).
Proof.
  intros (Ho & Hn & Hp) Hstep. unfold thread_step in Hstep.
  unfold thread_ok, owed, holds in *.
  destruct a as [|ctxErr|err stderr|];
    destruct (point t) as [[n k|d k|c k|e]|c k|e|e]; try discriminate.
  - (* granted *)
    destruct (Z.leb_spec (cur s + n) (size s)) as [Hfit|]; [| discriminate].
    injection Hstep as <- <-. cbn [point defers acquired released size cur].
    inversion Hp as [n0 k0 o h Hn0 Hk Hfail| | | | |]; subst.
    repeat split; try lia; try exact Hn.
    replace (acquired t + n - released t - pending (defers t))
      with (acquired t - released t - pending (defers t) + n) by lia.
    replace (acquired t + n - released t) with (acquired t - released t + n) by lia.
    exact Hk.
  - (* the context is done *)
    injection Hstep as <- <-. cbn [point defers acquired released].
    inversion Hp as [n0 k0 o h Hn0 Hk Hfail| | | | |]; subst.
    repeat split; try lia; auto.
  - (* the process ends *)
    injection Hstep as <- <-. cbn [point defers acquired released].
    destruct Hp as [_ Hk]. repeat split; try lia; auto.
  - (* a call is deferred *)
    injection Hstep as <- <-. cbn [point defers acquired released].
    inversion Hp as [|n0 k0 o h Hn0 Hle Hk|k0 o h Hk| | |]; subst; cbn [pending nonneg].
    + repeat split; try lia; auto.
      replace (acquired t - released t - (n0 + pending (defers t)))
        with (acquired t - released t - pending (defers t) - n0) by lia.
      exact Hk.
    + repeat split; try lia; auto.
  - (* a process is started *)
    injection Hstep as <- <-. cbn [point defers acquired released].
    inversion Hp as [| | |args k0 o h Hheld Hk|graph k0 o h Hk|]; subst;
      repeat split; try lia; auto.
  - (* return *)
    injection Hstep as <- <-. cbn [point defers acquired released].
    inversion Hp; subst. repeat split; try lia; auto.
  - (* a deferred call runs *)
    destruct (defers t) as [|[n|] rest] eqn:Hd.
    + injection Hstep as <- <-. cbn [point defers acquired released pending] in *.
      repeat split; try lia; auto.
    + destruct (Z.ltb_spec (cur s - n) 0); [discriminate |].
      injection Hstep as <- <-. cbn [point defers acquired released size cur pending nonneg] in *.
      destruct Hn as [Hn0 Hrest]. repeat split; try lia; auto.
    + injection Hstep as <- <-. cbn [point defers acquired released pending nonneg] in *.
      repeat split; try lia; auto.
Qed.

(** Only a grant raises the count of the semaphore. *)
Lemma thread_step_takes a s t s' t' :
  thread_ok t ->
  thread_step a s t = Some (s', t') ->
  cur s < cur s' -> a = Granted.
Proof.
  intros (_ & Hn & _) Hstep Hup. unfold thread_step in Hstep.
  destruct a as [|ctxErr|err stderr|]; [reflexivity | exfalso ..];
    destruct (point t) as [[n k|d k|c k|e]|c k|e|e]; try discriminate;
    try (injection Hstep as <- <-; lia).
  destruct (defers t) as [|[n|] rest].
  - injection Hstep as <- <-; lia.
  - destruct (Z.ltb_spec (cur s - n) 0); [discriminate |].
    injection Hstep as <- <-. cbn [cur nonneg] in *. lia.
  - injection Hstep as <- <-; lia.
Qed.

Lemma exec_move i a g g' :
  exec stat (Move i a) g = Some g' ->
  exists t s' t',
    threads g !! i = Some t /\ thread_step a (sem g) t = Some (s', t')
    /\ g' = {| sem := s'; threads := <[i := t']> (threads g) |}.
Proof.
  intros H. unfold exec in H.
  destruct (threads g !! i) as [t|] eqn:Ht; [| discriminate]. cbn [mbind option_bind] in H.
  destruct (thread_step a (sem g) t) as [[s' t']|] eqn:Hs; [| discriminate].
  cbn [mbind option_bind] in H. injection H as <-. exists t, s', t'. auto.
Qed.

Lemma move_exec i a g t s' t' :
  threads g !! i = Some t -> thread_step a (sem g) t = Some (s', t') ->
  exec stat (Move i a) g = Some {| sem := s'; threads := <[i := t']> (threads g) |}.
Proof. intros Ht Hs. unfold exec. rewrite Ht. simpl. now rewrite Hs. Qed.

Lemma gate_inv_move K g i t a s' t' :
  gate_inv K g ->
  threads g !! i = Some t -> thread_step a (sem g) t = Some (s', t') ->
  gate_inv K {| sem := s'; threads := <[i := t']> (threads g) |}.
Proof.
  intros (Hsize & Hcur & Hle & Hall) Ht Hs.
  assert (Hok : thread_ok t) by (rewrite Forall_lookup in Hall; eauto).
  destruct (thread_step_ok a _ t s' t' Hok Hs) as (Hok' & Hsz & Hdelta & Hbound).
  unfold gate_inv, held in *. cbn [sem threads].
  rewrite (total_insert holds _ i t t' Ht).
  repeat split; try lia.
  now apply Forall_insert.
Qed.

Lemma gate_inv_step K g g' : gate_inv K g -> step stat g g' -> gate_inv K g'.
Proof.
  intros Hinv [[c|i a] Hexec].
  - injection Hexec as <-. destruct Hinv as (Hsize & Hcur & Hle & Hall).
    unfold gate_inv, held in *. cbn [sem threads]. rewrite total_app. cbn [total].
    assert (Hnew : holds (start (body stat c)) = 0) by reflexivity.
    split; [exact Hsize |]. split; [lia |]. split; [lia |].
    apply Forall_app. split; [exact Hall |]. constructor; [| constructor].
    unfold thread_ok, owed, holds, start. cbn.
    repeat split; try lia. apply body_disciplined.
  - destruct (exec_move i a g g' Hexec) as (t & s' & t' & Ht & Hs & ->).
    eapply gate_inv_move; eassumption.
Qed.

Lemma gate_inv_reachable K g : 0 <= K -> reachable stat K g -> gate_inv K g.
Proof.
  intros HK Hreach. induction Hreach as [|g g' _ IH Hstep].
  - unfold gate_inv, held. cbn. repeat split; try lia. constructor.
  - exact (gate_inv_step K g g' IH Hstep).
Qed.

Lemma moves_trans i g1 g2 g3 : moves stat i g1 g2 -> moves stat i g2 g3 -> moves stat i g1 g3.
Proof. induction 1; [auto |]. intros H3. econstructor; eauto. Qed.


(** The call [i], at [t] in [g], can move on by its own steps until it
    is back at its caller, and by then it has given back what it held. *)
Definition finishes (K : Z) (i : nat) (g : State) (t : Thread) : Prop :=
  exists g' t' err,
    moves stat i g g' /\ gate_inv K g'
    /\ threads g' !! i = Some t' /\ point t' = Done err
    /\ cur (sem g') = cur (sem g) - holds t.

Lemma finishes_step K i g t a s' t' :
  gate_inv K g ->
  threads g !! i = Some t ->
  thread_step a (sem g) t = Some (s', t') ->
  (forall g1, gate_inv K g1 -> threads g1 !! i = Some t' -> finishes K i g1 t') ->
  finishes K i g t.
Proof.
  intros Hinv Ht Hs Hnext.
  pose proof (gate_inv_move K g i t a s' t' Hinv Ht Hs) as Hinv1.
  assert (Hok : thread_ok t).
  { destruct Hinv as (_ & _ & _ & Hall). rewrite Forall_lookup in Hall. eauto. }
  destruct (thread_step_ok a _ t s' t' Hok Hs) as (_ & _ & Hdelta & _).
  set (g1 := {| sem := s'; threads := <[i := t']> (threads g) |}) in *.
  assert (Ht1 : threads g1 !! i = Some t').
  { cbn [g1 threads]. apply list_lookup_insert_eq. eapply lookup_lt_Some; eauto. }
  destruct (Hnext g1 Hinv1 Ht1) as (g' & t'' & err & Hm & Hinv' & Ht' & Hdone & Hcur).
  exists g', t'', err.
  split; [| split; [exact Hinv' | split; [exact Ht' | split; [exact Hdone |]]]].
  - eapply moves_step; [| exact Hm]. exact (move_exec i a g t s' t' Ht Hs).
  - rewrite Hcur. cbn [g1 sem]. lia.
Qed.

Lemma held_covers K g i t :
  gate_inv K g -> threads g !! i = Some t -> holds t <= cur (sem g).
Proof.
  intros (_ & Hcur & _ & Hall) Ht. rewrite Hcur. unfold held.
  apply (total_lookup_le holds (threads g) i t); [| exact Ht].
  eapply Forall_impl; [exact Hall |]. exact thread_ok_holds.
Qed.

(** On the way out the deferred calls run, and a deferred [Release]
    never asks for more than the semaphore counts. *)
Lemma returning_finishes K err : forall ds g i t,
  gate_inv K g -> threads g !! i = Some t ->
  point t = Returning err -> defers t = ds ->
  finishes K i g t.
Proof.
  induction ds as [|d rest IH]; intros g i t Hinv Ht Hpt Hds.
  - assert (Hok : thread_ok t).
    { destruct Hinv as (_ & _ & _ & Hall). rewrite Forall_lookup in Hall. eauto. }
    destruct Hok as (_ & _ & Hp). rewrite Hpt in Hp. unfold owed in Hp.
    rewrite Hds in Hp. cbn [pending] in Hp.
    set (t' := {| point := Done err; defers := []; acquired := acquired t;
                  released := released t |}).
    assert (Hs : thread_step Advance (sem g) t = Some (sem g, t')).
    { unfold thread_step. rewrite Hpt, Hds. reflexivity. }
    pose proof (gate_inv_move K g i t Advance _ t' Hinv Ht Hs) as Hinv1.
    exists {| sem := sem g; threads := <[i := t']> (threads g) |}, t', err.
    split; [| split; [exact Hinv1 | split; [| split; [reflexivity |]]]].
    + eapply moves_step; [exact (move_exec i Advance g t _ t' Ht Hs) | apply moves_refl].
    + cbn [threads]. apply list_lookup_insert_eq. eapply lookup_lt_Some; eauto.
    + cbn [sem]. unfold holds in *. lia.
  - assert (Hok : thread_ok t).
    { destruct Hinv as (_ & _ & _ & Hall). rewrite Forall_lookup in Hall. eauto. }
    pose proof (held_covers K g i t Hinv Ht) as Hcov.
    destruct Hok as (_ & Hn & Hp). rewrite Hpt in Hp. unfold owed in Hp.
    rewrite Hds in Hp, Hn.
    destruct d as [n|]; cbn [pending nonneg] in Hp, Hn.
    + destruct Hn as [Hn0 Hrest]. pose proof (pending_nonneg _ Hrest) as Hpend.
      set (s' := {| size := size (sem g); cur := cur (sem g) - n |}).
      set (t' := {| point := Returning err; defers := rest; acquired := acquired t;
                    released := released t + n |}).
      assert (Hs : thread_step Advance (sem g) t = Some (s', t')).
      { unfold thread_step. rewrite Hpt, Hds.
        destruct (Z.ltb_spec (cur (sem g) - n) 0); [lia | reflexivity]. }
      apply (finishes_step K i g t Advance s' t' Hinv Ht Hs).
      intros g1 Hinv1 Ht1. apply (IH g1 i t' Hinv1 Ht1); reflexivity.
    + set (t' := {| point := Returning err; defers := rest; acquired := acquired t;
                    released := released t |}).
      assert (Hs : thread_step Advance (sem g) t = Some (sem g, t')).
      { unfold thread_step. rewrite Hpt, Hds. reflexivity. }
      apply (finishes_step K i g t Advance _ t' Hinv Ht Hs).
      intros g1 Hinv1 Ht1. apply (IH g1 i t' Hinv1 Ht1); reflexivity.
Qed.

(** Whatever is left of a method body, the call gets through it: the
    wait for the semaphore ends with the context, the engine process
    ends, and the deferred calls run. *)
Lemma at_finishes K : forall code g i t,
  gate_inv K g -> threads g !! i = Some t -> point t = At code ->
  finishes K i g t.
Proof.
  induction code as [n k IH|d k IH|c k IH|err]; intros g i t Hinv Ht Hpt.
  - set (ctxErr := "context deadline exceeded"%string).
    set (t' := {| point := At (k (Some ctxErr)); defers := defers t;
                  acquired := acquired t; released := released t |}).
    assert (Hs : thread_step (ContextDone ctxErr) (sem g) t = Some (sem g, t')).
    { unfold thread_step. rewrite Hpt. reflexivity. }
    apply (finishes_step K i g t _ _ t' Hinv Ht Hs).
    intros g1 Hinv1 Ht1. apply (IH (Some ctxErr) g1 i t' Hinv1 Ht1). reflexivity.
  - set (t' := {| point := At k; defers := d :: defers t;
                  acquired := acquired t; released := released t |}).
    assert (Hs : thread_step Advance (sem g) t = Some (sem g, t')).
    { unfold thread_step. rewrite Hpt. reflexivity. }
    apply (finishes_step K i g t _ _ t' Hinv Ht Hs).
    intros g1 Hinv1 Ht1. apply (IH g1 i t' Hinv1 Ht1). reflexivity.
  - set (t1 := {| point := InProcess c k; defers := defers t;
                  acquired := acquired t; released := released t |}).
    assert (Hs : thread_step Advance (sem g) t = Some (sem g, t1)).
    { unfold thread_step. rewrite Hpt. reflexivity. }
    apply (finishes_step K i g t _ _ t1 Hinv Ht Hs).
    intros g1 Hinv1 Ht1.
    set (t2 := {| point := At (k None ""%string); defers := defers t1;
                  acquired := acquired t1; released := released t1 |}).
    assert (Hs1 : thread_step (ProcessExit None "") (sem g1) t1 = Some (sem g1, t2)).
    { reflexivity. }
    apply (finishes_step K i g1 t1 _ _ t2 Hinv1 Ht1 Hs1).
    intros g2 Hinv2 Ht2. apply (IH None ""%string g2 i t2 Hinv2 Ht2). reflexivity.
  - set (t' := {| point := Returning err; defers := defers t;
                  acquired := acquired t; released := released t |}).
    assert (Hs : thread_step Advance (sem g) t = Some (sem g, t')).
    { unfold thread_step. rewrite Hpt. reflexivity. }
    apply (finishes_step K i g t _ _ t' Hinv Ht Hs).
    intros g1 Hinv1 Ht1.
    apply (returning_finishes K err (defers t') g1 i t' Hinv1 Ht1); reflexivity.
Qed.

Lemma call_finishes K g i t :
  gate_inv K g -> threads g !! i = Some t -> finishes K i g t.
Proof.
  intros Hinv Ht. destruct (point t) as [code|c k|err|err] eqn:Hpt.
  - exact (at_finishes K code g i t Hinv Ht Hpt).
  - set (t2 := {| point := At (k None ""%string); defers := defers t;
                  acquired := acquired t; released := released t |}).
    assert (Hs : thread_step (ProcessExit None "") (sem g) t = Some (sem g, t2)).
    { unfold thread_step. rewrite Hpt. reflexivity. }
    apply (finishes_step K i g t _ _ t2 Hinv Ht Hs).
    intros g2 Hinv2 Ht2. apply (at_finishes K (k None ""%string) g2 i t2 Hinv2 Ht2). reflexivity.
  - exact (returning_finishes K err (defers t) g i t Hinv Ht Hpt eq_refl).
  - assert (Hok : thread_ok t).
    { destruct Hinv as (_ & _ & _ & Hall). rewrite Forall_lookup in Hall. eauto. }
    destruct Hok as (_ & _ & Hp). rewrite Hpt in Hp. destruct Hp as [Ho Hd].
    unfold owed in Ho. rewrite Hd in Ho. cbn [pending] in Ho.
    exists g, t, err.
    split; [apply moves_refl | split; [exact Hinv | split; [exact Ht | split; [exact Hpt |]]]].
    unfold holds in *. lia.
Qed.

(** A call that is back at its caller holds nothing. *)
Lemma done_released K g i t err :
  gate_inv K g -> threads g !! i = Some t -> point t = Done err ->
  acquired t = released t /\ defers t = [].
Proof.
  intros (_ & _ & _ & Hall) Ht Hpt. rewrite Forall_lookup in Hall.
  destruct (Hall i t Ht) as (_ & _ & Hp). rewrite Hpt in Hp. destruct Hp as [Ho Hd].
  unfold owed, holds in Ho. rewrite Hd in Ho. cbn [pending] in Ho. split; [lia | exact Hd].
Qed.




Lemma run_app ls1 ls2 g g1 g2 :
  run stat ls1 g = Some g1 -> run stat ls2 g1 = Some g2 -> run stat (ls1 ++ ls2) g = Some g2.
Proof.
  revert g. induction ls1 as [|l ls1 IH]; intros g H1 H2; cbn [run app] in *.
  - injection H1 as ->. exact H2.
  - destruct (exec stat l g) as [g'|]; [| discriminate]. cbn [mbind option_bind] in *.
    exact (IH g' H1 H2).
Qed.

Lemma run_reachable K ls : forall g g',
  reachable stat K g -> run stat ls g = Some g' -> reachable stat K g'.
Proof.
  induction ls as [|l ls IH]; intros g g' Hr Hrun; cbn [run] in Hrun.
  - injection Hrun as <-. exact Hr.
  - destruct (exec stat l g) as [g1|] eqn:Hexec; [| discriminate].
    cbn [mbind option_bind] in Hrun.
    apply (IH g1 g'); [| exact Hrun]. eapply reach_step; [exact Hr |]. now exists l.
Qed.

Lemma moves_run i g g' :
  moves stat i g g' ->
  exists ls, run stat ls g = Some g' /\ forallb is_move ls = true.
Proof.
  induction 1 as [g|g g' g'' a Hexec _ (ls & Hrun & Hmv)].
  - now exists [].
  - exists (Move i a :: ls). split; [| exact Hmv].
    cbn [run]. rewrite Hexec. exact Hrun.
Qed.

(** The steps of the call [i] leave the other calls as they are. *)
Lemma moves_others i g g' :
  moves stat i g g' ->
  length (threads g') = length (threads g)
  /\ forall j, j <> i -> threads g' !! j = threads g !! j.
Proof.
  induction 1 as [g|g g' g'' a Hexec _ (Hlen & Hoth)]; [auto |].
  destruct (exec_move i a g g' Hexec) as (t & s' & t' & _ & _ & ->).
  cbn [threads] in *. rewrite length_insert in Hlen. split; [exact Hlen |].
  intros j Hj. rewrite (Hoth j Hj). apply list_lookup_insert_ne. auto.
Qed.

(** The calls in flight can all run to their return, one after the
    other, with no new call. *)
Lemma drains_prefix K : forall n g,
  gate_inv K g -> (n <= length (threads g))%nat ->
  exists ls g',
    run stat ls g = Some g' /\ forallb is_move ls = true
    /\ gate_inv K g' /\ length (threads g') = length (threads g)
    /\ forall j t, (j < n)%nat -> threads g' !! j = Some t -> is_done t.
Proof.
  induction n as [|n IH]; intros g Hinv Hn.
  - exists [], g. repeat split; try apply Hinv; auto. intros j t Hj. lia.
  - destruct (IH g Hinv ltac:(lia)) as (ls1 & g1 & Hrun1 & Hmv1 & Hinv1 & Hlen1 & Hdone1).
    destruct (lookup_lt_is_Some_2 (threads g1) n ltac:(lia)) as [t Ht].
    destruct (call_finishes K g1 n t Hinv1 Ht)
      as (g2 & t2 & err & Hm & Hinv2 & Ht2 & Hpt2 & _).
    destruct (moves_run n g1 g2 Hm) as (ls2 & Hrun2 & Hmv2).
    destruct (moves_others n g1 g2 Hm) as (Hlen2 & Hoth).
    exists (ls1 ++ ls2), g2.
    split; [exact (run_app ls1 ls2 g g1 g2 Hrun1 Hrun2) |].
    split; [rewrite forallb_app, Hmv1, Hmv2; reflexivity |].
    split; [exact Hinv2 |]. split; [lia |].
    intros j t' Hj Ht'. destruct (Nat.eq_dec j n) as [-> | Hne].
    + rewrite Ht2 in Ht'. injection Ht' as <-. exists err.
      split; [exact Hpt2 |]. exact (proj1 (done_released K g2 n t2 err Hinv2 Ht2 Hpt2)).
    + rewrite (Hoth j Hne) in Ht'. apply (Hdone1 j t'); [lia | exact Ht'].
Qed.

Lemma total_zero f (l : list Thread) : Forall (fun t => f t = 0) l -> total f l = 0.
Proof. induction 1 as [|t l Ht _ IH]; simpl; lia. Qed.

Lemma drains K g :
  gate_inv K g ->
  exists ls g',
    run stat ls g = Some g' /\ forallb is_move ls = true
    /\ length (threads g') = length (threads g)
    /\ Forall is_done (threads g')
    /\ cur (sem g') = 0.
Proof.
  intros Hinv.
  destruct (drains_prefix K (length (threads g)) g Hinv ltac:(lia))
    as (ls & g' & Hrun & Hmv & Hinv' & Hlen & Hdone).
  assert (Hall : Forall is_done (threads g')).
  { apply Forall_lookup. intros j t Ht. apply (Hdone j t); [| exact Ht].
    rewrite <- Hlen. eapply lookup_lt_Some; eauto. }
  exists ls, g'. repeat split; auto.
  destruct Hinv' as (_ & Hcur & _ & _). rewrite Hcur. unfold held.
  apply total_zero. eapply Forall_impl; [exact Hall |].
  intros t (err & _ & Heq). unfold holds. lia.
Qed.






End GateFacts.


(** Every file is there. *)
Definition all_present : string -> ffmpeg.StatResult := fun _ => ffmpeg.StatOk.

Definition music : models.AudioConfig :=
  {| models.au_FilePath := "music.mp3"; models.au_Volume := 0.5%float;
     models.au_StartTime := None; models.au_EndTime := None;
     models.au_FadeIn := None; models.au_FadeOut := None |}.



(** Capacity 2: a call of [Execute] whose process failed and that is
    back at its caller, a merge and a call of [Execute] in their
    processes, a call of [AddBackgroundMusic] in its process, and a call
    of [Execute] waiting for the semaphore. *)
Definition busy_schedule : list gate.Label :=
  GateSpec.process_path 0 ["-y"; "-i"; "a.mp4"; "a.out.mp4"] (Some "exit status 1") "Invalid data"
  ++ [gate.NewCall (gate.CallMergeVideosSimple ["a.mp4"; "b.mp4"] "merged.mp4");
      gate.Move 1 gate.Granted; gate.Move 1 gate.Advance; gate.Move 1 gate.Advance;
      gate.Move 1 gate.Advance;
      gate.NewCall (gate.CallAddBackgroundMusic "a.mp4" music "a.out.mp4");
      gate.Move 2 gate.Advance;
      gate.NewCall (gate.CallExecute ["-y"; "-i"; "b.mp4"; "b.out.mp4"]);
      gate.Move 3 gate.Granted; gate.Move 3 gate.Advance; gate.Move 3 gate.Advance;
      gate.Move 3 gate.Advance;
      gate.NewCall (gate.CallExecute ["-y"; "-i"; "c.mp4"; "c.out.mp4"])].

Definition gate_example : gate.State :=
  default (gate.NewExecutor 2) (gate.run all_present busy_schedule (gate.NewExecutor 2)).



Lemma gate_example_counts :
  gate.gated_running gate_example = 2 /\ gate.running gate_example = 3
  /\ gate.cur (gate.sem gate_example) = 2 /\ length (gate.threads gate_example) = 5%nat.
Proof. vm_compute. repeat split; reflexivity. Qed.


(** ** The life of a job *)

Module JobTrace.

(** The record [SaveJob] serialises for a job. *)
Definition record_of (j : Job) : jobData :=
  {| jd_ID := job_ID j; jd_Status := job_Status j; jd_Progress := job_Progress j;
     jd_OutputPath := job_OutputPath j; jd_Error := job_Error j;
     jd_CreatedAt := FormatRFC3339 (job_CreatedAt j);
     jd_UpdatedAt := FormatRFC3339 (job_UpdatedAt j) |}.

(** The progress an event shows: of the state a job takes, or of the
    record persisted. *)
Definition event_progress (e : Event) : Z :=
  match e with
  | EvJob _ r => sr_Progress r
  | EvSave d _ => jd_Progress d
  end.

(** The event is about the job at address [p] with identifier [id]. *)
Definition concerns (p : nat) (id : string) (e : Event) : Prop :=
  match e with
  | EvJob q r => q = p /\ sr_JobID r = id
  | EvSave d _ => jd_ID d = id
  end.

Fixpoint nondecreasing (l : list Z) : bool :=
  match l with
  | x :: ((y :: _) as rest) => (x <=? y) && nondecreasing rest
  | _ => true
  end.

(** [Error] is populated exactly in status [failed]. *)
Definition error_iff_failed (e : Event) : Prop :=
  match e with
  | EvJob _ r => sr_Error r <> "" <-> sr_Status r = JobStatusFailed
  | EvSave d _ => jd_Error d <> "" <-> jd_Status d = JobStatusFailed
  end.

(** [OutputPath] is populated exactly in status [completed]. *)
Definition output_iff_completed (e : Event) : Prop :=
  match e with
  | EvJob _ r => sr_OutputPath r <> "" <-> sr_Status r = JobStatusCompleted
  | EvSave d _ => jd_OutputPath d <> "" <-> jd_Status d = JobStatusCompleted
  end.

(** What holds of [OutputPath] on the routes through [processJobCommon]:
    a persisted record has it exactly when completed; a state observed
    through [GetStatus] has it when completed, and an output is only ever
    seen at full progress. *)
Definition output_when_completed (e : Event) : Prop :=
  match e with
  | EvJob _ r =>
      (sr_Status r = JobStatusCompleted -> sr_OutputPath r <> "")
      /\ (sr_OutputPath r <> "" -> sr_Progress r = 100)
  | EvSave d _ => jd_OutputPath d <> "" <-> jd_Status d = JobStatusCompleted
  end.

(** An output is only ever seen late in a job's life. *)
Definition output_late (e : Event) : Prop :=
  match e with
  | EvJob _ r => sr_OutputPath r <> "" -> 80 <= sr_Progress r
  | EvSave d _ => jd_OutputPath d <> "" -> 80 <= jd_Progress d
  end.

(** The state [NewJob] leaves a job in. *)
Definition fresh_job (j : Job) : Prop :=
  job_Status j = JobStatusPending /\ job_Progress j = 0
  /\ job_OutputPath j = "" /\ job_Error j = "".

(** The world [w] holds job [j] at address [p], its log is [L], its
    store persists to [P] and, when [S] names an identifier, maps it to
    [p]. *)
Definition at_job (p : nat) (S : option string) (P : option string) (w : World) (j : Job)
    (L : list Event) : Prop :=
  heap w !! p = Some j /\ log w = L /\ persistence (store w) = P
  /\ (forall id, S = Some id -> jobs (store w) !! id = Some p).

End JobTrace.

Section JobSteps.
Import JobTrace.

Variable p : nat.
Variable S : option string.

Lemma call_at P w j L (method : Time -> Job -> Job) :
  at_job p S P w j L ->
  at_job p S P (call p method w) (method (clock w (ticks w)) j)
    (L ++ [EvJob p (GetStatus (method (clock w (ticks w)) j))]).
Proof.
  intros (Hh & Hl & Hp & Hs). unfold at_job, call. rewrite Hh. simpl.
  repeat split.
  - apply list_lookup_insert_eq. now apply lookup_lt_Some in Hh.
  - now rewrite Hl.
  - exact Hp.
  - exact Hs.
Qed.

Lemma poke_at P w j L (f : Job -> Job) :
  at_job p S P w j L ->
  at_job p S P (poke p f w) (f j) (L ++ [EvJob p (GetStatus (f j))]).
Proof.
  intros (Hh & Hl & Hp & Hs). unfold at_job, poke. rewrite Hh. simpl.
  repeat split.
  - apply list_lookup_insert_eq. now apply lookup_lt_Some in Hh.
  - now rewrite Hl.
  - exact Hp.
  - exact Hs.
Qed.

Lemma job_id_at_at P w j L : at_job p S P w j L -> job_id_at p w = job_ID j.
Proof. intros (Hh & _). unfold job_id_at. now rewrite Hh. Qed.

Lemma SaveJob_at dir P w j L :
  at_job p S P w j L ->
  exists err, at_job p S P (snd (SaveJob dir p w)) j (L ++ [EvSave (record_of j) err]).
Proof.
  intros (Hh & Hl & Hp & Hs). unfold SaveJob. rewrite Hh. unfold Now.
  match goal with
  | |- context [WriteFile ?a ?b ?c ?d] => destruct (WriteFile a b c d) as [err|fs']
  end; simpl.
  - exists (Some err). unfold at_job. simpl. rewrite Hl. repeat split; assumption.
  - exists None. unfold at_job. simpl. rewrite Hl. repeat split; assumption.
Qed.

Lemma store_insert_at P w j L :
  at_job p S P w j L ->
  at_job p S P
    (set_store {| jobs := <[job_id_at p w := p]> (jobs (store w));
                  persistence := P |} w) j L.
Proof.
  intros (Hh & Hl & Hp & Hs). unfold at_job. simpl. repeat split; try assumption.
  intros id Hid. destruct (decide (job_id_at p w = id)) as [->|Hne].
  - apply lookup_insert_eq.
  - rewrite lookup_insert_ne by assumption. now apply Hs.
Qed.

Lemma Update_at_None w j L :
  at_job p S None w j L -> at_job p S None (snd (Update p w)) j L.
Proof.
  intros H. pose proof (store_insert_at _ _ _ _ H) as H'.
  destruct H as (_ & _ & Hp & _). unfold Update. rewrite Hp. exact H'.
Qed.

Lemma Update_at_Some dir w j L :
  at_job p S (Some dir) w j L ->
  exists err, at_job p S (Some dir) (snd (Update p w)) j (L ++ [EvSave (record_of j) err]).
Proof.
  intros H. pose proof (store_insert_at _ _ _ _ H) as H'.
  destruct H as (_ & _ & Hp & _). unfold Update. rewrite Hp.
  apply SaveJob_at. exact H'.
Qed.

End JobSteps.

(** Symbolic execution of a task on the job at [p]: one call through the
    pointer, or one [Update] of the store, at a time. *)
Ltac step_call :=
  match goal with
  | H : JobTrace.at_job ?p ?S ?P ?w ?j ?L |- context [call ?p ?m ?w] =>
      let H' := fresh "Hat" in
      pose proof (call_at p S P w j L m H) as H';
      let now := fresh "now" in
      set (now := clock w (ticks w)) in *;
      let w' := fresh "w" in
      set (w' := call p m w) in *;
      clearbody w' now; clear H;
      rewrite ?(job_id_at_at p _ _ _ _ _ H')
  end.

Ltac step_update :=
  match goal with
  | H : JobTrace.at_job ?p ?S (Some ?dir) ?w ?j ?L |- context [Update ?p ?w] =>
      let err := fresh "err" in
      let H' := fresh "Hat" in
      destruct (Update_at_Some p S dir w j L H) as [err H'];
      let w' := fresh "w" in
      set (w' := snd (Update p w)) in *;
      clearbody w'; clear H;
      rewrite ?(job_id_at_at p _ _ _ _ _ H')
  | H : JobTrace.at_job ?p ?S None ?w ?j ?L |- context [Update ?p ?w] =>
      let H' := fresh "Hat" in
      pose proof (Update_at_None p S w j L H) as H';
      let w' := fresh "w" in
      set (w' := snd (Update p w)) in *;
      clearbody w'; clear H;
      rewrite ?(job_id_at_at p _ _ _ _ _ H')
  end.

(** A branch on an outcome is taken once the worlds before it are known. *)
Ltac case_outcome :=
  match goal with
  | |- context [match ?s with _ => _ end] =>
      lazymatch s with
      | context [call _ _ _] => fail
      | context [Update _ _] => fail
      | context [job_id_at _ _] => fail
      | _ => destruct s eqn:?
      end
  end.

Ltac steps := repeat first [case_outcome | step_call | step_update].

(** The events are read off the final [at_job] fact. *)
Ltac finish_log :=
  match goal with
  | H : JobTrace.at_job _ _ _ ?w _ _ |- exists evs, log ?w = _ ++ evs /\ _ =>
      destruct H as (_ & -> & _); rewrite <- ?app_assoc;
      cbn [app job_ID job_Progress job_Status job_OutputPath job_Error];
      eexists; split; [reflexivity |]
  end.

Section PathFacts.

Lemma Clean_nonempty (path : string) : Clean path <> "".
Proof.
  unfold Clean. destruct (String.eqb path ""); [discriminate |].
  destruct (HasPrefix path "/"); [discriminate |].
  match goal with |- context [String.eqb ?b ""] => destruct (String.eqb_spec b "") end;
    [discriminate | assumption].
Qed.

Lemma PathJoin_nonempty (dir name : string) : name <> "" -> PathJoin [dir; name] <> "".
Proof.
  intros Hname. unfold PathJoin. rewrite !filter_cons, filter_nil.
  destruct (String.eqb_spec name "") as [E|_]; [contradiction |].
  destruct (String.eqb_spec dir "") as [_|_]; simpl;
    repeat match goal with
    | |- context [decide ?P] => destruct (decide P)
    end; try apply Clean_nonempty; simpl in *; try congruence; try tauto.
Qed.

Lemma append_nonempty_r (a b : string) : b <> "" -> a +:+ b <> "".
Proof. intros Hb. destruct a; simpl; [assumption | discriminate]. Qed.

End PathFacts.

Lemma output_path_nonempty (dir id : string) : PathJoin [dir; id +:+ ".mp4"] <> "".
Proof. apply PathJoin_nonempty, append_nonempty_r. discriminate. Qed.

(** One event of an explicit trace against one of the predicates. *)
Ltac solve_event :=
  cbn [JobTrace.concerns JobTrace.error_iff_failed JobTrace.output_when_completed
       JobTrace.output_iff_completed JobTrace.output_late JobTrace.record_of
       GetStatus UpdateStatus UpdateProgress SetOutput SetS3URL SetError setWebhookURL NewJob
       sr_JobID sr_Status sr_Progress sr_OutputPath sr_S3URL sr_Error
       jd_ID jd_Status jd_Progress jd_OutputPath jd_Error
       job_ID job_Status job_Progress job_OutputPath job_S3URL job_Error];
  repeat split; intros;
  try reflexivity; try congruence; try discriminate; try lia;
  try (apply output_path_nonempty);
  try (apply append_nonempty_r; discriminate);
  try (simpl; discriminate);
  try (exfalso; eapply output_path_nonempty; eassumption);
  eauto.

Ltac solve_events :=
  repeat (apply List.Forall_cons; [solve_event |]); try apply List.Forall_nil.

Section ErrorTexts.
Import ffmpeg.

Variable stat : string -> StatResult.
Variable engine : list string -> ExecOutcome.

Lemma Execute_error_nonempty o err : Execute_error o = Some err -> err <> "".
Proof.
  destruct o as [c | [e|] s]; simpl; intros [= <-]; discriminate.
Qed.

Lemma ValidateFile_nonempty path err : ValidateFile stat path = Some err -> err <> "".
Proof.
  unfold ValidateFile. destruct (String.eqb path ""); [intros [= <-]; discriminate |].
  destruct (stat path); intros [= <-]; discriminate.
Qed.

Lemma validate_segments_nonempty segments : forall i err,
  validate_segments stat i segments = Some err -> err <> "".
Proof.
  induction segments as [|seg rest IH]; intros i err; simpl; [discriminate |].
  destruct (ValidateFile stat (seg_FilePath seg)); [intros [= <-]; discriminate | apply IH].
Qed.

Lemma validate_overlays_nonempty overlays : forall i err,
  validate_overlays stat i overlays = Some err -> err <> "".
Proof.
  induction overlays as [|o rest IH]; intros i err; simpl; [discriminate |].
  destruct (ValidateFile stat (ov_FilePath o)); [intros [= <-]; discriminate | apply IH].
Qed.

Lemma MergeVideos_nonempty segments out err :
  MergeVideos stat engine segments out = Some err -> err <> "".
Proof.
  unfold MergeVideos, MergeVideos_build, run, Execute.
  destruct (Z.of_nat (length segments) <? 2); [intros [= <-]; discriminate |].
  destruct (validate_segments stat 0 segments) eqn:Hv.
  - intros [= <-]. eapply validate_segments_nonempty; eassumption.
  - destruct (merge_loop 0 segments [] []). apply Execute_error_nonempty.
Qed.

Lemma AddImageOverlay_nonempty video overlay out err :
  AddImageOverlay stat engine video overlay out = Some err -> err <> "".
Proof.
  unfold AddImageOverlay, AddImageOverlay_build, run, Execute.
  destruct (ValidateFile stat video); [intros [= <-]; discriminate |].
  destruct (ValidateFile stat (ov_FilePath overlay)); [intros [= <-]; discriminate |].
  apply Execute_error_nonempty.
Qed.

Lemma AddMultipleOverlays_nonempty video overlays out err :
  AddMultipleOverlays stat engine video overlays out = Some err -> err <> "".
Proof.
  unfold AddMultipleOverlays, AddMultipleOverlays_build, run, Execute.
  destruct (length overlays =? 0)%nat; [intros [= <-]; discriminate |].
  destruct (ValidateFile stat video); [intros [= <-]; discriminate |].
  destruct (validate_overlays stat 0 overlays) eqn:Hv.
  - intros [= <-]. eapply validate_overlays_nonempty; eassumption.
  - apply Execute_error_nonempty.
Qed.

Lemma AddBackgroundMusic_nonempty video audio out err :
  AddBackgroundMusic stat engine video audio out = Some err -> err <> "".
Proof.
  unfold AddBackgroundMusic, AddBackgroundMusic_build, run, Execute.
  destruct (ValidateFile stat video); [intros [= <-]; discriminate |].
  destruct (ValidateFile stat (au_FilePath audio)); [intros [= <-]; discriminate |].
  apply Execute_error_nonempty.
Qed.

Lemma CompleteProcess_nonempty req out err :
  CompleteProcess stat engine req out = Some err -> err <> "".
Proof.
  unfold CompleteProcess.
  repeat match goal with
  | |- context [match ?s with _ => _ end] =>
      lazymatch s with
      | context [match _ with _ => _ end] => fail
      | _ => destruct s; cbv iota
      end
  end; intros [= <-]; simpl; discriminate.
Qed.

End ErrorTexts.

Section Routes.
Import JobTrace.

Variable cfg : api.Config.
Variable stat : string -> ffmpeg.StatResult.
Variable engine : list string -> ffmpeg.ExecOutcome.
Variable DownloadVideosInOrder : list string -> string + list string.
Variable Upload : string -> string -> string + string.
Variable RemoveOutput : string -> option string.

Variable p : nat.

(** *** Progress along every route *)

Lemma api_common_progress S P fn w j L :
  at_job p S P w j L -> job_Progress j = 0 ->
  exists evs, log (api.processJobCommon cfg p fn w) = L ++ evs
    /\ Forall (concerns p (job_ID j)) evs
    /\ nondecreasing (job_Progress j :: map event_progress evs) = true.
Proof.
  intros H Hpr. unfold api.processJobCommon.
  destruct j as [id st pr out s3 wu wh er ca ua]. simpl in Hpr. subst.
  destruct P as [dir|]; steps; finish_log; (split; [solve_events | reflexivity]).
Qed.

Lemma mcp_common_progress S P fn w j L :
  at_job p S P w j L -> job_Progress j = 0 ->
  exists evs, log (mcp.processJobCommon cfg p fn w) = L ++ evs
    /\ Forall (concerns p (job_ID j)) evs
    /\ nondecreasing (job_Progress j :: map event_progress evs) = true.
Proof.
  intros H Hpr. unfold mcp.processJobCommon.
  destruct j as [id st pr out s3 wu wh er ca ua]. simpl in Hpr. subst.
  destruct P as [dir|]; steps; finish_log; (split; [solve_events | reflexivity]).
Qed.

Lemma api_combine_urls_progress S P urls w j L :
  at_job p S P w j L -> job_Progress j = 0 ->
  exists evs,
    log (api.processCombineJobFromURLs cfg engine DownloadVideosInOrder Upload RemoveOutput
           p urls w) = L ++ evs
    /\ Forall (concerns p (job_ID j)) evs
    /\ nondecreasing (job_Progress j :: map event_progress evs) = true.
Proof.
  intros H Hpr. unfold api.processCombineJobFromURLs, api.processCombineJobCommon.
  destruct j as [id st pr out s3 wu wh er ca ua]. simpl in Hpr. subst.
  destruct P as [dir|]; steps; finish_log; (split; [solve_events | reflexivity]).
Qed.

Lemma api_combine_files_progress S P files w j L :
  at_job p S P w j L -> job_Progress j = 0 ->
  exists evs,
    log (api.processCombineJobFromFiles cfg engine Upload RemoveOutput p files w) = L ++ evs
    /\ Forall (concerns p (job_ID j)) evs
    /\ nondecreasing (job_Progress j :: map event_progress evs) = true.
Proof.
  intros H Hpr. unfold api.processCombineJobFromFiles, api.processCombineJobCommon.
  destruct j as [id st pr out s3 wu wh er ca ua]. simpl in Hpr. subst.
  destruct P as [dir|]; steps; finish_log; (split; [solve_events | reflexivity]).
Qed.

(** *** The creation of a job *)

Lemma alloc_at (w : World) (j : Job) :
  at_job (length (heap w)) None (persistence (store w)) (snd (alloc j w)) j
    (log w ++ [EvJob (length (heap w)) (GetStatus j)]).
Proof.
  unfold at_job, alloc. simpl. repeat split.
  - rewrite lookup_app_r by lia. now rewrite Nat.sub_diag.
  - intros id [=].
Qed.

Lemma Add_at (q : nat) (P : option string) (w : World) (j : Job) (L : list Event) :
  at_job q None P w j L ->
  exists evs, at_job q (Some (job_ID j)) P (Add q w) j (L ++ evs)
    /\ (evs = [] \/ exists err, evs = [EvSave (record_of j) err]).
Proof.
  intros H.
  assert (H' : at_job q (Some (job_ID j)) P
                 (set_store {| jobs := <[job_id_at q w := q]> (jobs (store w));
                               persistence := P |} w) j L).
  { destruct H as (Hh & Hl & Hp & _). unfold at_job. simpl.
    repeat split; try assumption.
    intros id [= <-]. unfold job_id_at. rewrite Hh. apply lookup_insert_eq. }
  destruct H as (_ & _ & Hp & _). unfold Add. rewrite Hp. destruct P as [dir|].
  - destruct (SaveJob_at q _ dir _ _ _ _ H') as [err Herr].
    exists [EvSave (record_of j) err]. split; [exact Herr | right; now exists err].
  - exists []. rewrite app_nil_r. split; [exact H' | now left].
Qed.

Lemma createAndStartJob_at (jobID : string) (w : World) :
  exists now evs,
    at_job (length (heap w)) (Some jobID) (persistence (store w))
      (snd (api.createAndStartJob jobID w)) (NewJob now jobID)
      (log w ++ EvJob (length (heap w)) (GetStatus (NewJob now jobID)) :: evs)
    /\ (evs = [] \/ exists err, evs = [EvSave (record_of (NewJob now jobID)) err])
    /\ fst (fst (api.createAndStartJob jobID w)) = length (heap w)
    /\ jr_JobID (snd (fst (api.createAndStartJob jobID w))) = jobID.
Proof.
  pose proof (alloc_at (snd (Now w)) (NewJob (clock w (ticks w)) jobID)) as H0.
  destruct (Add_at _ _ _ _ _ H0) as (evs & Hadd & Hevs).
  exists (clock w (ticks w)), evs.
  rewrite <- app_assoc in Hadd.
  repeat split; try apply Hadd; try exact Hevs; reflexivity.
Qed.

Lemma createJobResponse_at (jobID : string) (w : World) :
  exists now evs,
    at_job (length (heap w)) (Some jobID) (persistence (store w))
      (snd (mcp.createJobResponse jobID w)) (NewJob now jobID)
      (log w ++ EvJob (length (heap w)) (GetStatus (NewJob now jobID)) :: evs)
    /\ (evs = [] \/ exists err, evs = [EvSave (record_of (NewJob now jobID)) err])
    /\ fst (fst (mcp.createJobResponse jobID w)) = length (heap w).
Proof.
  pose proof (alloc_at (snd (Now w)) (NewJob (clock w (ticks w)) jobID)) as H0.
  destruct (Add_at _ _ _ _ _ H0) as (evs & Hadd & Hevs).
  exists (clock w (ticks w)), evs.
  rewrite <- app_assoc in Hadd.
  repeat split; try apply Hadd; try exact Hevs; reflexivity.
Qed.

Lemma at_job_intro (w : World) (j : Job) :
  heap w !! p = Some j -> at_job p None (persistence (store w)) w j (log w).
Proof. intros H. unfold at_job. repeat split; try assumption. intros id [=]. Qed.

(** C7. On every route (the HTTP tasks, the combine tasks and the MCP
    tasks), whatever the outcome of the engine, of the download and of
    the upload, the progress values a job shows after its creation,
    in the states it takes and in the records persisted, never decrease;
    and the creation itself shows progress 0 only. *)
Theorem job_progress_nondecreasing (w : World) (j : Job) :
  heap w !! p = Some j ->
  job_Progress j = 0 ->
  (forall t, api.task_job t = p ->
   exists evs,
     log (api.run_task cfg stat engine DownloadVideosInOrder Upload RemoveOutput t w)
       = log w ++ evs
     /\ Forall (concerns p (job_ID j)) evs
     /\ nondecreasing (job_Progress j :: map event_progress evs) = true)
  /\ (forall t, mcp.task_job t = p ->
      exists evs,
        log (mcp.run_task cfg stat engine t w) = log w ++ evs
        /\ Forall (concerns p (job_ID j)) evs
        /\ nondecreasing (job_Progress j :: map event_progress evs) = true)
  /\ (forall jobID w0,
      exists now evs,
        log (snd (api.createAndStartJob jobID w0)) = log w0 ++ evs
        /\ Forall (fun e => event_progress e = 0) evs
        /\ heap (snd (api.createAndStartJob jobID w0)) !! length (heap w0)
             = Some (NewJob now jobID)
        /\ job_Progress (NewJob now jobID) = 0)
  /\ (forall jobID w0,
      exists now evs,
        log (snd (mcp.createJobResponse jobID w0)) = log w0 ++ evs
        /\ Forall (fun e => event_progress e = 0) evs
        /\ heap (snd (mcp.createJobResponse jobID w0)) !! length (heap w0)
             = Some (NewJob now jobID)
        /\ job_Progress (NewJob now jobID) = 0).
Proof.
  intros Hh Hpr. pose proof (at_job_intro w j Hh) as Hat.
  split; [| split; [| split]].
  - intros t Ht. destruct t; simpl in Ht; subst; simpl;
      unfold api.processMergeJob, api.processOverlayJob, api.processAudioJob,
        api.processCompleteJob.
    + eapply api_common_progress; eassumption.
    + eapply api_common_progress; eassumption.
    + eapply api_common_progress; eassumption.
    + eapply api_common_progress; eassumption.
    + eapply api_combine_urls_progress; eassumption.
    + eapply api_combine_files_progress; eassumption.
  - intros t Ht. destruct t; simpl in Ht; subst; simpl;
      unfold mcp.processMergeJob, mcp.processOverlayJob, mcp.processAudioJob,
        mcp.processCompleteJob;
      eapply mcp_common_progress; eassumption.
  - intros jobID w0.
    destruct (createAndStartJob_at jobID w0) as (now & evs & Hc & Hevs & _).
    exists now, (EvJob (length (heap w0)) (GetStatus (NewJob now jobID)) :: evs).
    destruct Hc as (Hheap & Hlog & _).
    repeat split; try assumption.
    apply List.Forall_cons; [reflexivity |].
    destruct Hevs as [-> | [err ->]]; repeat constructor.
  - intros jobID w0.
    destruct (createJobResponse_at jobID w0) as (now & evs & Hc & Hevs & _).
    exists now, (EvJob (length (heap w0)) (GetStatus (NewJob now jobID)) :: evs).
    destruct Hc as (Hheap & Hlog & _).
    repeat split; try assumption.
    apply List.Forall_cons; [reflexivity |].
    destruct Hevs as [-> | [err ->]]; repeat constructor.
Qed.

End Routes.

(** The configuration and the collaborators of the examples: every file
    is there, the engine succeeds, the upload succeeds and the merged
    file is removed. *)
Definition example_cfg : api.Config :=
  {| api.UploadDir := "./uploads"; api.OutputDir := "./outputs"; api.TempDir := "./temp";
     api.JobsDir := "./jobs"; api.JobTimeout := 3600 |}.

Definition a_directory : File := {| f_isDir := true; f_modTime := 0; f_data := "" |}.

Definition example_world : World :=
  {| clock := fun n => 1736762400 + Z.of_nat n; ticks := 0; heap := [];
     store := {| jobs := ∅; persistence := Some "./jobs" |};
     fs := <["." := a_directory]> (<["jobs" := a_directory]> ∅);
     log := [] |}.

Definition stat_ok : string -> ffmpeg.StatResult := fun _ => ffmpeg.StatOk.
Definition engine_ok : list string -> ffmpeg.ExecOutcome := fun _ => ffmpeg.Exited None "".
Definition download_ok : list string -> string + list string := fun urls => inr urls.
Definition upload_ok : string -> string -> string + string :=
  fun _ objectName => inr ("https://s3.example/bucket/" +:+ objectName).
Definition remove_ok : string -> option string := fun _ => None.

(** The world after a job was created under the identifier [job-1]. *)
Definition started_world : World := snd (api.createAndStartJob "job-1" example_world).

Lemma job_progress_nondecreasing_witness :
  heap started_world !! 0%nat = Some (NewJob 1736762400 "job-1")
  /\ job_Progress (NewJob 1736762400 "job-1") = 0
  /\ exists evs,
       log (api.run_task example_cfg stat_ok engine_ok download_ok upload_ok remove_ok
              (api.GoMerge 0 {| mr_Segments := merge_example |}) started_world)
         = log started_world ++ evs
       /\ JobTrace.nondecreasing (0 :: map JobTrace.event_progress evs) = true.
Proof.
  assert (H1 : heap started_world !! 0%nat = Some (NewJob 1736762400 "job-1"))
    by reflexivity.
  assert (H2 : job_Progress (NewJob 1736762400 "job-1") = 0) by reflexivity.
  split; [exact H1 | split; [exact H2 |]].
  destruct (proj1 (job_progress_nondecreasing example_cfg stat_ok engine_ok download_ok
                     upload_ok remove_ok 0%nat started_world _ H1 H2)
              (api.GoMerge 0 {| mr_Segments := merge_example |}) eq_refl)
    as (evs & Hlog & _ & Hnd).
  exists evs. split; [exact Hlog | exact Hnd].
Defined.

Module StatusSpec.

(** The tasks that go through [processJobCommon]. *)
Definition through_common (t : api.Task) : bool :=
  match t with
  | api.GoCombineFromURLs _ _ | api.GoCombineFromFiles _ _ => false
  | _ => true
  end.

End StatusSpec.

Section StatusRoutes.
Import JobTrace.

Variable cfg : api.Config.
Variable stat : string -> ffmpeg.StatResult.
Variable engine : list string -> ffmpeg.ExecOutcome.
Variable DownloadVideosInOrder : list string -> string + list string.
Variable Upload : string -> string -> string + string.
Variable RemoveOutput : string -> option string.

Variable p : nat.

Lemma api_common_status S P fn w j L :
  at_job p S P w j L -> fresh_job j ->
  (forall out err, fn out = Some err -> err <> "") ->
  exists evs, log (api.processJobCommon cfg p fn w) = L ++ evs
    /\ Forall error_iff_failed evs /\ Forall output_late evs
    /\ Forall output_when_completed evs.
Proof.
  intros H (Hst & Hpr & Hout & Herr) Hfn. unfold api.processJobCommon.
  destruct j as [id st pr out s3 wu wh er ca ua].
  simpl in Hst, Hpr, Hout, Herr. subst.
  destruct P as [dir|]; steps; finish_log;
    (split; [solve_events | split; solve_events]).
Qed.

Lemma mcp_common_status S P fn w j L :
  at_job p S P w j L -> fresh_job j ->
  (forall out err, fn out = Some err -> err <> "") ->
  exists evs, log (mcp.processJobCommon cfg p fn w) = L ++ evs
    /\ Forall error_iff_failed evs /\ Forall output_late evs
    /\ Forall output_when_completed evs.
Proof.
  intros H (Hst & Hpr & Hout & Herr) Hfn. unfold mcp.processJobCommon.
  destruct j as [id st pr out s3 wu wh er ca ua].
  simpl in Hst, Hpr, Hout, Herr. subst.
  destruct P as [dir|]; steps; finish_log;
    (split; [solve_events | split; solve_events]).
Qed.

Lemma api_combine_urls_status S P urls w j L :
  at_job p S P w j L -> fresh_job j ->
  exists evs,
    log (api.processCombineJobFromURLs cfg engine DownloadVideosInOrder Upload RemoveOutput
           p urls w) = L ++ evs
    /\ Forall error_iff_failed evs /\ Forall output_late evs.
Proof.
  intros H (Hst & Hpr & Hout & Herr).
  unfold api.processCombineJobFromURLs, api.processCombineJobCommon.
  destruct j as [id st pr out s3 wu wh er ca ua].
  simpl in Hst, Hpr, Hout, Herr. subst.
  destruct P as [dir|]; steps; finish_log; (split; solve_events).
Qed.

Lemma api_combine_files_status S P files w j L :
  at_job p S P w j L -> fresh_job j ->
  exists evs,
    log (api.processCombineJobFromFiles cfg engine Upload RemoveOutput p files w) = L ++ evs
    /\ Forall error_iff_failed evs /\ Forall output_late evs.
Proof.
  intros H (Hst & Hpr & Hout & Herr).
  unfold api.processCombineJobFromFiles, api.processCombineJobCommon.
  destruct j as [id st pr out s3 wu wh er ca ua].
  simpl in Hst, Hpr, Hout, Herr. subst.
  destruct P as [dir|]; steps; finish_log; (split; solve_events).
Qed.

(** C2 (amended). From its creation on, at every state a job takes and
    in every record persisted, on every route: [Error] is non-empty
    exactly when the status is [failed], and an output path is only seen
    from progress 80 on.  On the routes through [processJobCommon] (HTTP
    and MCP) a persisted record has an output path exactly when it is
    [completed], a completed state always has one, and an output path is
    seen at progress 100 only.  The combine routes are left out of that
    second part: they set the output path before completion and clear it
    when the merged file was removed. *)
Theorem job_error_and_output_by_status (w : World) (j : Job) :
  heap w !! p = Some j ->
  fresh_job j ->
  (forall t, api.task_job t = p ->
   exists evs,
     log (api.run_task cfg stat engine DownloadVideosInOrder Upload RemoveOutput t w)
       = log w ++ evs
     /\ Forall error_iff_failed evs
     /\ Forall output_late evs
     /\ (StatusSpec.through_common t = true -> Forall output_when_completed evs))
  /\ (forall t, mcp.task_job t = p ->
      exists evs,
        log (mcp.run_task cfg stat engine t w) = log w ++ evs
        /\ Forall error_iff_failed evs
        /\ Forall output_late evs
        /\ Forall output_when_completed evs)
  /\ (forall jobID w0,
      exists now evs,
        log (snd (api.createAndStartJob jobID w0)) = log w0 ++ evs
        /\ Forall error_iff_failed evs /\ Forall output_iff_completed evs
        /\ heap (snd (api.createAndStartJob jobID w0)) !! length (heap w0)
             = Some (NewJob now jobID)
        /\ fresh_job (NewJob now jobID)).
Proof.
  intros Hh Hfresh. pose proof (at_job_intro p w j Hh) as Hat.
  split; [| split].
  - intros t Ht. destruct t; simpl in Ht; subst; simpl;
      unfold api.processMergeJob, api.processOverlayJob, api.processAudioJob,
        api.processCompleteJob.
    + destruct (api_common_status _ _
                  (fun out => ffmpeg.MergeVideos stat engine (mr_Segments req) out)
                  _ _ _ Hat Hfresh) as (evs & ? & ? & ? & ?);
        [intros; eapply MergeVideos_nonempty; eassumption | eauto 10].
    + destruct (api_common_status _ _
                  (fun out => ffmpeg.AddImageOverlay stat engine (or_VideoPath req)
                                (or_Overlay req) out)
                  _ _ _ Hat Hfresh) as (evs & ? & ? & ? & ?);
        [intros; eapply AddImageOverlay_nonempty; eassumption | eauto 10].
    + destruct (api_common_status _ _
                  (fun out => ffmpeg.AddBackgroundMusic stat engine (ar_VideoPath req)
                                (ar_Audio req) out)
                  _ _ _ Hat Hfresh) as (evs & ? & ? & ? & ?);
        [intros; eapply AddBackgroundMusic_nonempty; eassumption | eauto 10].
    + destruct (api_common_status _ _
                  (fun out => ffmpeg.CompleteProcess stat engine req out)
                  _ _ _ Hat Hfresh) as (evs & ? & ? & ? & ?);
        [intros; eapply CompleteProcess_nonempty; eassumption | eauto 10].
    + destruct (api_combine_urls_status _ _ videoURLs _ _ _ Hat Hfresh)
        as (evs & ? & ? & ?).
      exists evs. repeat split; try assumption. discriminate.
    + destruct (api_combine_files_status _ _ uploadedFiles _ _ _ Hat Hfresh)
        as (evs & ? & ? & ?).
      exists evs. repeat split; try assumption. discriminate.
  - intros t Ht. destruct t; simpl in Ht; subst; simpl;
      unfold mcp.processMergeJob, mcp.processOverlayJob, mcp.processAudioJob,
        mcp.processCompleteJob.
    + apply (mcp_common_status _ _ _ _ _ _ Hat Hfresh).
      intros; eapply MergeVideos_nonempty; eassumption.
    + apply (mcp_common_status _ _ _ _ _ _ Hat Hfresh).
      intros; eapply AddImageOverlay_nonempty; eassumption.
    + apply (mcp_common_status _ _ _ _ _ _ Hat Hfresh).
      intros; eapply AddBackgroundMusic_nonempty; eassumption.
    + apply (mcp_common_status _ _ _ _ _ _ Hat Hfresh).
      intros; eapply CompleteProcess_nonempty; eassumption.
  - intros jobID w0.
    destruct (createAndStartJob_at jobID w0) as (now & evs & Hc & Hevs & _).
    exists now, (EvJob (length (heap w0)) (GetStatus (NewJob now jobID)) :: evs).
    destruct Hc as (Hheap & Hlog & _).
    assert (Hfr : fresh_job (NewJob now jobID)) by (repeat split).
    repeat split; try assumption.
    + apply List.Forall_cons; [solve_event |].
      destruct Hevs as [-> | [err ->]]; solve_events.
    + apply List.Forall_cons; [solve_event |].
      destruct Hevs as [-> | [err ->]]; solve_events.
Qed.

End StatusRoutes.

(** C2, as stated, fails on the combine route: the record persisted at
    completion has status [completed] and an empty output path. *)
Lemma combine_completed_without_output_counterexample :
  let w :=
    api.run_task example_cfg stat_ok engine_ok download_ok upload_ok remove_ok
      (api.GoCombineFromFiles 0 ["a.mp4"; "b.mp4"]) started_world in
  exists d,
    last (log w) = Some (EvSave d None)
    /\ jd_Status d = JobStatusCompleted
    /\ jd_OutputPath d = ""
    /\ ~ JobTrace.output_iff_completed (EvSave d None).
Proof.
  eexists. split; [vm_compute; reflexivity |].
  split; [reflexivity | split; [reflexivity |]].
  intros [_ H]. apply H; reflexivity.
Qed.

Lemma job_error_and_output_by_status_witness :
  heap started_world !! 0%nat = Some (NewJob 1736762400 "job-1")
  /\ JobTrace.fresh_job (NewJob 1736762400 "job-1")
  /\ exists evs,
       log (api.run_task example_cfg stat_ok engine_ok download_ok upload_ok remove_ok
              (api.GoMerge 0 {| mr_Segments := merge_example |}) started_world)
         = log started_world ++ evs
       /\ Forall JobTrace.error_iff_failed evs
       /\ Forall JobTrace.output_when_completed evs.
Proof.
  assert (H1 : heap started_world !! 0%nat = Some (NewJob 1736762400 "job-1"))
    by reflexivity.
  assert (H2 : JobTrace.fresh_job (NewJob 1736762400 "job-1")) by (repeat split).
  split; [exact H1 | split; [exact H2 |]].
  destruct (proj1 (job_error_and_output_by_status example_cfg stat_ok engine_ok download_ok
                     upload_ok remove_ok 0%nat started_world _ H1 H2)
              (api.GoMerge 0 {| mr_Segments := merge_example |}) eq_refl)
    as (evs & Hlog & Herr & _ & Hout).
  exists evs. split; [exact Hlog | split; [exact Herr | exact (Hout eq_refl)]].
Defined.

(** ** Validation at submission *)

Module Submission.



End Submission.

Section Validation.
Import JobTrace Submission.

Variable cfg : api.Config.
Variable stat : string -> ffmpeg.StatResult.
Variable engine : list string -> ffmpeg.ExecOutcome.
Variable DownloadVideosInOrder : list string -> string + list string.
Variable Upload : string -> string -> string + string.
Variable RemoveOutput : string -> option string.




End Validation.

(** A Merge request that names no file at all. *)
Definition no_file_request : MergeVideoRequest :=
  {| mr_Segments :=
       [{| seg_FilePath := ""; seg_StartTime := 0; seg_EndTime := 0 |};
        {| seg_FilePath := ""; seg_StartTime := 0; seg_EndTime := 0 |}] |}.



(** ** The retention sweep over the job records *)

(** A job record written long before the cutoff, under the default jobs
    directory, and the job it belongs to. *)
Definition expired_job : Job :=
  {| job_ID := "abc"; job_Status := JobStatusCompleted; job_Progress := 100;
     job_OutputPath := "outputs/abc.mp4"; job_S3URL := ""; job_WebhookURL := "";
     job_WebhookHeader := None; job_Error := "";
     job_CreatedAt := 0; job_UpdatedAt := 0 |}.

Definition sweep_world : World :=
  {| clock := fun n => 1736762400 + Z.of_nat n; ticks := 0; heap := [expired_job];
     store := {| jobs := <["abc" := 0%nat]> ∅; persistence := Some "./jobs" |};
     fs := <["jobs/abc.json" :=
               {| f_isDir := false; f_modTime := 0;
                  f_data := Marshal_jobData (JobTrace.record_of expired_job) |}]>
             (<["." := a_directory]> (<["jobs" := a_directory]> ∅));
     log := [] |}.

(** C3. [cleanOldJobs] does not scan the directory of the job records
    but its parent: [filepath.Dir] of a directory path is the directory
    above it.  With the jobs directory [./jobs] and one record in it that
    is older than the cutoff, the sweep reads [.], finds no record there,
    reports no deletion and leaves the job in the store and its file on
    disk.  The guard on an empty directory can never fire, since
    [filepath.Dir] never returns the empty string. *)
Theorem cleanOldJobs_scans_parent_directory :
  let cutoffTime := 1000 in
  GetJobsDir sweep_world = "./jobs"
  /\ (exists f, fs sweep_world !! PathJoin ["./jobs"; "abc.json"] = Some f
        /\ f_isDir f = false /\ Before (f_modTime f) cutoffTime = true)
  /\ Dir (GetJobsDir sweep_world) = "."
  /\ cleanup.cleanOldJobs cutoffTime sweep_world = (0, sweep_world)
  /\ Get "abc" (snd (cleanup.cleanOldJobs cutoffTime sweep_world)) = Some 0%nat
  /\ (exists f, fs (snd (cleanup.cleanOldJobs cutoffTime sweep_world))
                  !! PathJoin ["./jobs"; "abc.json"] = Some f)
  /\ (forall w, Dir (GetJobsDir w) <> "").
Proof.
  cbv zeta.
  assert (Hdir : Dir (GetJobsDir sweep_world) = ".") by (vm_compute; reflexivity).
  assert (Hpath : PathJoin ["./jobs"; "abc.json"] = "jobs/abc.json")
    by (vm_compute; reflexivity).
  assert (Hread : ReadDir (fs sweep_world) "."
                  = inr [{| Name := "jobs"; IsDir := true; ModTime := 0 |}])
    by (vm_compute; reflexivity).
  assert (Hrun : cleanup.cleanOldJobs 1000 sweep_world = (0, sweep_world)).
  { unfold cleanup.cleanOldJobs. cbv zeta. rewrite Hdir. simpl String.eqb. cbv iota.
    rewrite Hread. reflexivity. }
  rewrite Hrun, Hpath.
  split; [reflexivity |].
  split; [eexists; split; [reflexivity | split; reflexivity] |].
  split; [exact Hdir |].
  split; [reflexivity |].
  split; [reflexivity |].
  split; [eexists; reflexivity |].
  intros w. apply Clean_nonempty.
Qed.

(** ** The job record on disk: encoding and decoding *)

Module Utf8Facts.

(** The bytes a rune was read from. *)
Definition rune_raw (r : rune) : string :=
  match r with
  | RAscii c => String c EmptyString
  | RMulti bs => bs
  | RInvalid c => String c EmptyString
  end.

(** A multi-byte sequence: whatever follows it, it is read as one
    encoding of its own length. *)
Definition multi (bs : string) : Prop :=
  exists c0 rest, bs = String c0 rest /\ 128 <= byte c0
    /\ (String.length bs = 2 \/ String.length bs = 3 \/ String.length bs = 4)%nat
    /\ forall t, utf8_size (bs +:+ t) = String.length bs.

End Utf8Facts.

Section Utf8Proofs.
Import Utf8Facts.

Lemma runes_cons (c0 : ascii) (s1 : string) :
  runes (String c0 s1) =
    if byte c0 <? 128 then RAscii c0 :: runes s1
    else
      match utf8_size (String c0 s1), s1 with
      | 2%nat, String c1 s2 =>
          RMulti (String c0 (String c1 EmptyString)) :: runes s2
      | 3%nat, String c1 (String c2 s3) =>
          RMulti (String c0 (String c1 (String c2 EmptyString))) :: runes s3
      | 4%nat, String c1 (String c2 (String c3 s4)) =>
          RMulti (String c0 (String c1 (String c2 (String c3 EmptyString)))) :: runes s4
      | _, _ => RInvalid c0 :: runes s1
      end.
Proof. reflexivity. Qed.

Ltac split_size :=
  repeat match goal with
  | |- context [if ?b then _ else _] => destruct b eqn:?
  | H : context [if ?b then _ else _] |- _ => destruct b eqn:?
  end; try discriminate; try reflexivity.

Lemma utf8_size_2 c0 c1 s2 t :
  utf8_size (String c0 (String c1 s2)) = 2%nat ->
  utf8_size (String c0 (String c1 t)) = 2%nat.
Proof.
  unfold utf8_size. intros H. destruct s2 as [|c2 [|c3 s4]], t as [|d2 [|d3 t4]];
    split_size.
Qed.

Lemma utf8_size_3 c0 c1 c2 s3 t :
  utf8_size (String c0 (String c1 (String c2 s3))) = 3%nat ->
  utf8_size (String c0 (String c1 (String c2 t))) = 3%nat.
Proof.
  unfold utf8_size. intros H. destruct s3 as [|c3 s4], t as [|d3 t4]; split_size.
Qed.

Lemma utf8_size_4 c0 c1 c2 c3 s4 t :
  utf8_size (String c0 (String c1 (String c2 (String c3 s4)))) = 4%nat ->
  utf8_size (String c0 (String c1 (String c2 (String c3 t)))) = 4%nat.
Proof. unfold utf8_size. intros H. split_size. Qed.

(** How [runes] takes a string apart, as an induction principle. *)
Lemma runes_ind (P : string -> list rune -> Prop) :
  P EmptyString [] ->
  (forall c s l, byte c < 128 -> P s l -> P (String c s) (RAscii c :: l)) ->
  (forall bs s l, multi bs -> P s l -> P (bs +:+ s) (RMulti bs :: l)) ->
  (forall c s l, 128 <= byte c -> P s l -> P (String c s) (RInvalid c :: l)) ->
  forall s, P s (runes s).
Proof.
  intros Hnil Hascii Hmulti Hinvalid s.
  remember (String.length s) as n eqn:Hn.
  assert (Hle : (String.length s <= n)%nat) by lia. clear Hn.
  revert s Hle. induction n as [|n IH]; intros s Hle.
  - destruct s; [exact Hnil | simpl in Hle; lia].
  - destruct s as [|c0 s1]; [exact Hnil |].
    rewrite runes_cons. simpl in Hle.
    destruct (Z.ltb_spec (byte c0) 128) as [Hlt|Hge].
    + apply Hascii; [assumption | apply IH; lia].
    + destruct (utf8_size (String c0 s1)) as [|[|[|[|[|k]]]]] eqn:Hsz;
        try (apply Hinvalid; [assumption | apply IH; lia]).
      * destruct s1 as [|c1 s2]; [apply Hinvalid; [assumption | apply IH; lia] |].
        apply (Hmulti (String c0 (String c1 EmptyString)) s2).
        -- exists c0, (String c1 EmptyString). repeat split; try assumption.
           ++ now left.
           ++ intros t. exact (utf8_size_2 c0 c1 s2 t Hsz).
        -- apply IH. simpl in Hle. lia.
      * destruct s1 as [|c1 [|c2 s3]]; try (apply Hinvalid; [assumption | apply IH; lia]).
        apply (Hmulti (String c0 (String c1 (String c2 EmptyString))) s3).
        -- exists c0, (String c1 (String c2 EmptyString)). repeat split; try assumption.
           ++ right; now left.
           ++ intros t. exact (utf8_size_3 c0 c1 c2 s3 t Hsz).
        -- apply IH. simpl in Hle. lia.
      * destruct s1 as [|c1 [|c2 [|c3 s4]]];
          try (apply Hinvalid; [assumption | apply IH; lia]).
        apply (Hmulti (String c0 (String c1 (String c2 (String c3 EmptyString)))) s4).
        -- exists c0, (String c1 (String c2 (String c3 EmptyString))).
           repeat split; try assumption.
           ++ right; now right.
           ++ intros t. exact (utf8_size_4 c0 c1 c2 c3 s4 t Hsz).
        -- apply IH. simpl in Hle. lia.
Qed.

(** The runes of a string hold all its bytes, in order. *)
Lemma runes_raw (s : string) : concat_str (map rune_raw (runes s)) = s.
Proof.
  apply (runes_ind (fun s l => concat_str (map rune_raw l) = s)); simpl; intros;
    try congruence.
Qed.

(** A valid string is left as it is. *)
Lemma ToValidUTF8_valid (s : string) : ValidString s = true -> ToValidUTF8 s = s.
Proof.
  unfold ValidString, ToValidUTF8. intros H.
  rewrite <- (runes_raw s) at 2. f_equal.
  induction (runes s) as [|r l IH]; [reflexivity |].
  simpl in H. apply andb_prop in H as [Hr Hl]. simpl. f_equal; [| now apply IH].
  destruct r; [reflexivity | reflexivity | discriminate].
Qed.

End Utf8Proofs.

Section JsonStrings.
Import Utf8Facts json.

Lemma prepend_prepend (a b : string) (x : option (string * string)) :
  prepend a (prepend b x) = prepend (a +:+ b) x.
Proof. destruct x as [[v r]|]; simpl; [now rewrite append_assoc | reflexivity]. Qed.

Lemma prepend_nil (x : option (string * string)) : prepend EmptyString x = x.
Proof. destruct x as [[v r]|]; reflexivity. Qed.

(** An ASCII byte is read back from its escape. *)
Lemma read_string_ascii (c : ascii) (t : string) :
  byte c < 128 ->
  read_string (esc_ascii c +:+ t) = prepend (String c EmptyString) (read_string t).
Proof.
  intros H. destruct c as [b0 b1 b2 b3 b4 b5 b6 b7].
  destruct b7; [exfalso; destruct b0, b1, b2, b3, b4, b5, b6; vm_compute in H; discriminate |].
  clear H. destruct b0, b1, b2, b3, b4, b5, b6; reflexivity.
Qed.

Lemma read_string_high (c0 : ascii) (s1 : string) :
  128 <= byte c0 ->
  read_string (String c0 s1) =
    match utf8_size (String c0 s1), s1 with
    | 2%nat, String c1 s2 =>
        prepend (String c0 (String c1 EmptyString)) (read_string s2)
    | 3%nat, String c1 (String c2 s3) =>
        prepend (String c0 (String c1 (String c2 EmptyString))) (read_string s3)
    | 4%nat, String c1 (String c2 (String c3 s4)) =>
        prepend (String c0 (String c1 (String c2 (String c3 EmptyString))))
          (read_string s4)
    | _, _ => prepend replacement (read_string s1)
    end.
Proof.
  intros H. cbn [read_string].
  destruct (Z.ltb_spec (byte c0) 128) as [Hlt|_]; [lia | reflexivity].
Qed.

(** A multi-byte sequence is read back as it is; the line and the
    paragraph separator from their escapes. *)
Lemma read_string_multi (bs t : string) :
  multi bs ->
  read_string (enc_rune (RMulti bs) +:+ t) = prepend bs (read_string t).
Proof.
  intros (c0 & rest & -> & Hge & Hlen & Hsz). cbn [enc_rune].
  destruct (String.eqb_spec (String c0 rest) line_sep) as [->|_]; [reflexivity |].
  destruct (String.eqb_spec (String c0 rest) para_sep) as [->|_]; [reflexivity |].
  specialize (Hsz t).
  change (String c0 rest +:+ t) with (String c0 (rest +:+ t)) in *.
  rewrite read_string_high by assumption. rewrite Hsz.
  destruct rest as [|c1 [|c2 [|c3 [|c4 r]]]]; simpl in Hlen |- *;
    try reflexivity; lia.
Qed.

Lemma read_string_invalid (c : ascii) (t : string) :
  read_string (enc_rune (RInvalid c) +:+ t) = prepend replacement (read_string t).
Proof. reflexivity. Qed.

(** The text between the quotes is read back as the string coerced to
    valid UTF-8. *)
Lemma read_string_body (s t : string) :
  read_string (quote_body s +:+ t) = prepend (ToValidUTF8 s) (read_string t).
Proof.
  unfold quote_body, ToValidUTF8. revert t.
  apply (runes_ind (fun _ l => forall t,
           read_string (concat_str (map enc_rune l) +:+ t)
           = prepend (concat_str (map rune_bytes l)) (read_string t))).
  - intros t. simpl. now rewrite prepend_nil.
  - intros c s' l Hc IH t. cbn [map concat_str foldr enc_rune rune_bytes].
    rewrite append_assoc, read_string_ascii by assumption.
    unfold concat_str in IH. rewrite IH. apply prepend_prepend.
  - intros bs s' l Hbs IH t. cbn [map concat_str foldr rune_bytes].
    rewrite append_assoc, read_string_multi by assumption.
    unfold concat_str in IH. rewrite IH. apply prepend_prepend.
  - intros c s' l Hc IH t. cbn [map concat_str foldr rune_bytes].
    rewrite append_assoc, read_string_invalid.
    unfold concat_str in IH. rewrite IH. apply prepend_prepend.
Qed.

Lemma read_string_quote (s rest : string) :
  read_string (quote_body s +:+ String dquote rest) = Some (ToValidUTF8 s, rest).
Proof.
  rewrite read_string_body. change (read_string (String dquote rest))
    with (Some (EmptyString, rest)).
  simpl. now rewrite append_nil_r.
Qed.

End JsonStrings.

Module IntFacts.

(** What may follow an integer literal: no digit, and no fraction or
    exponent mark. *)
Definition number_end (rest : string) : bool :=
  match rest with
  | String c _ => negb (json.is_digit c) && negb (json.starts_number_tail rest)
  | EmptyString => true
  end.

(** A numeral that is not empty and has no leading zero. *)
Definition headed (d : Decimal.uint) : Prop :=
  match d with
  | Decimal.Nil | Decimal.D0 _ => False
  | _ => True
  end.

End IntFacts.

Section JsonInts.
Import IntFacts json.

Lemma to_uint_headed (p : positive) : headed (Pos.to_uint p).
Proof.
  pose proof (DecimalPos.Unsigned.to_of (Pos.to_uint p)) as H.
  rewrite DecimalPos.Unsigned.of_to in H.
  change (N.to_uint (N.pos p)) with (Pos.to_uint p) in H.
  pose proof (DecimalPos.Unsigned.to_uint_nonnil p) as Hnil.
  pose proof (DecimalPos.Unsigned.to_uint_nonzero p) as Hzero.
  destruct (Pos.to_uint p) as [|d|d|d|d|d|d|d|d|d|d]; simpl; try exact I.
  - now apply Hnil.
  - rewrite DecimalFacts.unorm_D0 in H. unfold Decimal.unorm in H.
    destruct (Decimal.nzhead d) eqn:En; try discriminate.
    + exact (Hzero H).
    + exact (DecimalFacts.nzhead_nonzero _ _ En).
Qed.

Lemma span_digits_uint (d : Decimal.uint) (rest : string) :
  number_end rest = true ->
  span_digits (NilEmpty.string_of_uint d +:+ rest) = (NilEmpty.string_of_uint d, rest).
Proof.
  intros Hrest.
  induction d as [|d IH|d IH|d IH|d IH|d IH|d IH|d IH|d IH|d IH|d IH];
    try (cbn [NilEmpty.string_of_uint String.append span_digits];
         change (is_digit _) with true; cbv iota; rewrite IH; reflexivity).
  simpl. destruct rest as [|c r]; [reflexivity |].
  simpl in Hrest. apply andb_prop in Hrest as [Hd _].
  simpl. destruct (is_digit c); [discriminate | reflexivity].
Qed.

Lemma string_of_uint_head (d : Decimal.uint) :
  headed d \/ d = Decimal.D0 Decimal.Nil ->
  exists c more,
    NilEmpty.string_of_uint d = String c more /\ is_digit c = true
    /\ ((byte c =? 48) && negb (String.eqb more "")) = false.
Proof.
  intros [Hd | ->].
  - destruct d; try contradiction; simpl; eexists; eexists;
      (split; [reflexivity | split; reflexivity]).
  - exists "0"%char, EmptyString. repeat split.
Qed.

Lemma number_end_tail (rest : string) :
  number_end rest = true -> starts_number_tail rest = false.
Proof.
  destruct rest as [|c r]; [reflexivity |]. simpl. intros H.
  apply andb_prop in H as [_ Ht]. now apply negb_true_iff in Ht.
Qed.

Lemma digit_not_minus (c : ascii) : is_digit c = true -> (byte c =? 45) = false.
Proof. unfold is_digit. intros H. apply andb_prop in H as [H _]. lia. Qed.

(** A numeral without a leading zero is read back as the number it
    writes. *)
Lemma read_int_uint (neg : bool) (d : Decimal.uint) (rest : string) :
  headed d \/ d = Decimal.D0 Decimal.Nil ->
  number_end rest = true ->
  read_int ((if neg then "-" else "") +:+ NilEmpty.string_of_uint d +:+ rest)
    = Some (if neg then - Z.of_uint d else Z.of_uint d, rest).
Proof.
  intros Hd Hrest.
  assert (Hnn : d <> Decimal.Nil)
    by (destruct Hd as [Hd | ->]; [now destruct d | discriminate]).
  pose proof (NilZero.usu d Hnn) as Hus.
  assert (Hsz : NilZero.string_of_uint d = NilEmpty.string_of_uint d) by now destruct d.
  rewrite Hsz in Hus.
  pose proof (span_digits_uint d rest Hrest) as Hspan.
  pose proof (number_end_tail rest Hrest) as Hend.
  destruct (string_of_uint_head d Hd) as (c & more & Hs & Hc & Hz).
  rewrite Hs in *. unfold read_int.
  destruct neg; cbn [String.append].
  - change (byte "-" =? 45) with true. cbv iota.
    change (String c (more +:+ rest)) with (String c more +:+ rest).
    rewrite Hspan. rewrite Hz, Hend, Hus. reflexivity.
  - rewrite (digit_not_minus c Hc).
    change (String c (more +:+ rest)) with (String c more +:+ rest).
    rewrite Hspan. rewrite Hz, Hend, Hus. reflexivity.
Qed.

(** [%d] is read back as the integer it writes. *)
Lemma read_int_fmt_d (z : Z) (rest : string) :
  number_end rest = true -> read_int (fmt_d z +:+ rest) = Some (z, rest).
Proof.
  intros Hrest. unfold fmt_d.
  destruct z as [|p|p]; cbn [Z.to_int NilZero.string_of_int].
  - apply (read_int_uint false (Decimal.D0 Decimal.Nil) rest); [now right | assumption].
  - pose proof (to_uint_headed p) as Hh.
    replace (NilZero.string_of_uint (Pos.to_uint p))
      with (NilEmpty.string_of_uint (Pos.to_uint p)) by now destruct (Pos.to_uint p).
    assert (R := read_int_uint false (Pos.to_uint p) rest (or_introl Hh) Hrest).
    cbn [String.append] in R. cbn [String.append]. rewrite R.
    unfold Z.of_uint. now rewrite DecimalPos.Unsigned.of_to.
  - pose proof (to_uint_headed p) as Hh.
    replace (NilZero.string_of_uint (Pos.to_uint p))
      with (NilEmpty.string_of_uint (Pos.to_uint p)) by now destruct (Pos.to_uint p).
    assert (R := read_int_uint true (Pos.to_uint p) rest (or_introl Hh) Hrest).
    cbn [String.append] in R. cbn [String.append]. rewrite R.
    unfold Z.of_uint. now rewrite DecimalPos.Unsigned.of_to.
Qed.

(** The first byte of [%d]: a digit or the sign. *)
Lemma fmt_d_head (z : Z) :
  exists c more, fmt_d z = String c more /\ is_ws c = false /\ (byte c =? 34) = false.
Proof.
  unfold fmt_d. destruct z as [|p|p]; cbn [Z.to_int NilZero.string_of_int].
  - exists "0"%char, EmptyString. repeat split.
  - pose proof (to_uint_headed p) as Hh.
    destruct (Pos.to_uint p); try contradiction; simpl; eexists; eexists;
      (split; [reflexivity | split; reflexivity]).
  - eexists; eexists; (split; [reflexivity | split; reflexivity]).
Qed.

End JsonInts.

Module JsonFacts.

(** The value the decoder gives back for an encoded one. *)
Definition decoded (v : json.JValue) : json.JValue :=
  match v with
  | json.JString s => json.JString (ToValidUTF8 s)
  | json.JInt z => json.JInt z
  end.

Definition decoded_member (m : string * json.JValue) : string * json.JValue :=
  (ToValidUTF8 (fst m), decoded (snd m)).

End JsonFacts.

Section JsonObjects.
Import IntFacts JsonFacts json.

Lemma skip_ws_value (v : JValue) (rest : string) :
  skip_ws (encode_value v +:+ rest) = encode_value v +:+ rest.
Proof.
  destruct v as [s|z]; [reflexivity |].
  cbn [encode_value]. destruct (fmt_d_head z) as (c & more & -> & Hws & _).
  cbn [String.append skip_ws]. now rewrite Hws.
Qed.

Lemma read_value_encode (v : JValue) (rest : string) :
  number_end rest = true ->
  read_value (encode_value v +:+ rest) = Some (decoded v, rest).
Proof.
  intros Hrest. destruct v as [s|z]; cbn [encode_value decoded].
  - unfold quote. cbn [String.append read_value].
    change (byte dquote =? 34) with true. cbv iota.
    rewrite append_assoc. cbn [String.append].
    now rewrite read_string_quote.
  - pose proof (read_int_fmt_d z rest Hrest) as Hread.
    destruct (fmt_d_head z) as (c & more & Hz & _ & Hq). rewrite Hz in *.
    cbn [String.append read_value] in *. rewrite Hq.
    cbn [String.append] in Hread. now rewrite Hread.
Qed.

(** One member of an object, read from its line. *)
Lemma read_members_step (fuel : nat) (k : string) (v : JValue) (rest : string) :
  number_end rest = true ->
  read_members (S fuel) (nl +:+ "  " +:+ quote k +:+ ": " +:+ encode_value v +:+ rest) =
    match skip_ws rest with
    | String d s5 =>
        if byte d =? 44 then
          '(ms, r) ← read_members fuel s5;
          Some ((ToValidUTF8 k, decoded v) :: ms, r)
        else if byte d =? 125 then Some ([(ToValidUTF8 k, decoded v)], s5)
        else None
    | EmptyString => None
    end.
Proof.
  intros Hrest. unfold quote, nl. cbn [String.append read_members].
  cbn [skip_ws]. change (is_ws "010") with true. cbv iota.
  change (is_ws " ") with true. cbv iota. change (is_ws dquote) with false. cbv iota.
  change (byte dquote =? 34) with true. cbv iota.
  rewrite append_assoc. cbn [String.append].
  rewrite read_string_quote. cbn [mbind option_bind].
  cbn [skip_ws]. change (is_ws ":") with false. cbv iota.
  change (byte ":" =? 58) with true. cbv iota.
  cbn [skip_ws]. change (is_ws " ") with true. cbv iota.
  rewrite skip_ws_value. rewrite read_value_encode by assumption.
  reflexivity.
Qed.

Lemma encode_members_length (ms : list (string * JValue)) :
  (length ms <= String.length (encode_members "  " ms))%nat.
Proof.
  induction ms as [|[k v] [|m ms'] IH]; [simpl; lia | simpl; lia |].
  change (encode_members "  " ((k, v) :: m :: ms'))
    with ("  " +:+ quote k +:+ ": " +:+ encode_value v +:+ "," +:+ nl
            +:+ encode_members "  " (m :: ms')).
  cbn [String.append String.length length].
  repeat (rewrite append_length; cbn [String.length]).
  cbn [length] in IH. lia.
Qed.

(** The members of an object, read back from the lines [MarshalIndent]
    writes. *)
Lemma read_members_encode (ms : list (string * JValue)) :
  ms <> [] ->
  forall fuel tail,
    (length ms <= fuel)%nat ->
    read_members fuel (nl +:+ encode_members "  " ms +:+ "}" +:+ tail)
      = Some (map decoded_member ms, tail).
Proof.
  induction ms as [|[k v] [|m ms'] IH]; intros Hne fuel tail Hfuel;
    [contradiction | |].
  - destruct fuel as [|fuel]; [simpl in Hfuel; lia |].
    cbn [encode_members]. rewrite !append_assoc.
    rewrite read_members_step by reflexivity. reflexivity.
  - destruct fuel as [|fuel]; [simpl in Hfuel; lia |].
    change (encode_members "  " ((k, v) :: m :: ms'))
      with ("  " +:+ quote k +:+ ": " +:+ encode_value v +:+ "," +:+ nl
              +:+ encode_members "  " (m :: ms')).
    rewrite !append_assoc.
    rewrite read_members_step by reflexivity.
    cbn [String.append skip_ws]. change (is_ws ",") with false. cbv iota.
    change (byte "," =? 44) with true. cbv iota.
    change (String "}" tail) with ("}" +:+ tail).
    rewrite IH by (try discriminate; simpl in Hfuel |- *; lia).
    reflexivity.
Qed.

(** [json.Unmarshal] after [json.MarshalIndent]: the members come back
    in order, every string coerced to valid UTF-8. *)
Lemma parse_object_MarshalIndent (ms : list (string * JValue)) :
  parse_object (MarshalIndent "  " ms) = Some (map decoded_member ms).
Proof.
  destruct ms as [|m ms']; [reflexivity |].
  unfold MarshalIndent, parse_object.
  set (body := encode_members "  " (m :: ms')).
  assert (Hlen : (length (m :: ms') <= String.length ("{" +:+ nl +:+ body +:+ "}"))%nat).
  { cbn [String.append String.length nl]. rewrite append_length.
    pose proof (encode_members_length (m :: ms')). fold body in H. lia. }
  pose proof (read_members_encode (m :: ms') ltac:(discriminate) _ "" Hlen) as Hread.
  fold body in Hread.
  cbn [String.append skip_ws]. change (is_ws "{") with false. cbv iota.
  change (byte "{" =? 123) with true. cbv iota.
  assert (Hfirst : exists s2, skip_ws (nl +:+ body +:+ "}") = String dquote s2).
  { subst body. destruct m as [k v]. destruct ms'; eexists; reflexivity. }
  destruct Hfirst as [s2 ->].
  change (byte dquote =? 125) with false. cbv iota.
  cbn [String.append] in Hread. rewrite Hread. reflexivity.
Qed.

End JsonObjects.

Module RecordFacts.

(** The record [json.Unmarshal] fills from the document [SaveJob] wrote
    for [d]. *)
Definition reloaded (d : jobData) : jobData :=
  {| jd_ID := ToValidUTF8 (jd_ID d); jd_Status := ToValidUTF8 (jd_Status d);
     jd_Progress := jd_Progress d; jd_OutputPath := ToValidUTF8 (jd_OutputPath d);
     jd_Error := ToValidUTF8 (jd_Error d);
     jd_CreatedAt := ToValidUTF8 (jd_CreatedAt d);
     jd_UpdatedAt := ToValidUTF8 (jd_UpdatedAt d) |}.

End RecordFacts.

Section RecordProofs.
Import JsonFacts RecordFacts json.

Lemma Unmarshal_Marshal_jobData (d : jobData) :
  int_range (jd_Progress d) = true ->
  Unmarshal_jobData (Marshal_jobData d) = Some (reloaded d).
Proof.
  intros Hrange. unfold Unmarshal_jobData, Marshal_jobData.
  rewrite parse_object_MarshalIndent. cbn [mbind option_bind].
  unfold reloaded, jobData_members, decoded_member, decoded.
  destruct d as [i s p o e c u]. cbn [map fst snd] in *.
  cbn [jd_ID jd_Status jd_Progress jd_OutputPath jd_Error jd_CreatedAt jd_UpdatedAt] in *.
  change (ToValidUTF8 "id") with "id".
  change (ToValidUTF8 "status") with "status".
  change (ToValidUTF8 "progress") with "progress".
  change (ToValidUTF8 "output_path") with "output_path".
  change (ToValidUTF8 "error") with "error".
  change (ToValidUTF8 "created_at") with "created_at".
  change (ToValidUTF8 "updated_at") with "updated_at".
  generalize (ToValidUTF8 i) (ToValidUTF8 s) (ToValidUTF8 o) (ToValidUTF8 e)
    (ToValidUTF8 c) (ToValidUTF8 u).
  intros i' s' o' e' c' u'.
  cbv - [int_range]. rewrite Hrange. reflexivity.
Qed.

End RecordProofs.

Section SaveLoad.
Import JobTrace RecordFacts.

(** What [LoadJob] rebuilds from the file [SaveJob] wrote: the job that
    was saved, every text field coerced to valid UTF-8. *)
Lemma SaveJob_LoadJob (jobsDir : string) (p : nat) (w w1 : World) (j : Job) :
  heap w !! p = Some j ->
  int_range (job_Progress j) = true ->
  SaveJob jobsDir p w = (None, w1) ->
  exists q w2 now,
    LoadJob jobsDir (job_ID j) w1 = (inr q, w2)
    /\ heap w2 !! q = Some (job_of_data now (reloaded (record_of j))).
Proof.
  intros Hheap Hrange Hsave. unfold SaveJob in Hsave. rewrite Hheap in Hsave.
  cbv zeta in Hsave. unfold Now in Hsave.
  cbn [GetStatus sr_JobID sr_Status sr_Progress sr_OutputPath sr_Error sr_CreatedAt
       sr_UpdatedAt] in Hsave.
  fold (record_of j) in Hsave.
  set (w' := {| clock := clock w; ticks := Datatypes.S (ticks w); heap := heap w;
                store := store w; fs := fs w; log := log w |}) in *.
  unfold WriteFile in Hsave. cbn [fs] in Hsave. cbv zeta in Hsave.
  set (path := Clean (PathJoin [jobsDir; job_ID j +:+ ".json"])) in *.
  destruct (is_dir (fs w') path); [discriminate |].
  destruct (is_dir (fs w') (Dir path)); [| discriminate].
  injection Hsave as <-. subst w'.
  unfold LoadJob. cbv zeta. unfold ReadFile. cbn [fs add_log set_fs]. fold path.
  rewrite lookup_insert_eq. cbn [f_isDir f_data].
  rewrite Unmarshal_Marshal_jobData by exact Hrange.
  unfold Now, alloc. cbn [clock ticks heap store fs log add_log set_fs].
  eexists _, _, (clock w (Datatypes.S (ticks w))). split; [reflexivity |].
  cbn [heap]. rewrite lookup_app_r by lia. rewrite Nat.sub_diag. reflexivity.
Qed.

(** C9 (amended). A Completed job whose output path is valid UTF-8 and
    whose progress fits an [int], once saved with [SaveJob] without an
    error, is loaded by [LoadJob] under its identifier, and the job
    loaded has the status, the progress and the output path of the
    original. *)
Theorem SaveJob_LoadJob_round_trip (jobsDir : string) (p : nat) (w w1 : World) (j : Job) :
  heap w !! p = Some j ->
  job_Status j = JobStatusCompleted ->
  ValidString (job_OutputPath j) = true ->
  int_range (job_Progress j) = true ->
  SaveJob jobsDir p w = (None, w1) ->
  exists q w2 j',
    LoadJob jobsDir (job_ID j) w1 = (inr q, w2)
    /\ heap w2 !! q = Some j'
    /\ job_Status j' = job_Status j
    /\ job_Progress j' = job_Progress j
    /\ job_OutputPath j' = job_OutputPath j.
Proof.
  intros Hheap Hst Hout Hrange Hsave.
  destruct (SaveJob_LoadJob jobsDir p w w1 j Hheap Hrange Hsave)
    as (q & w2 & now & Hload & Hq).
  exists q, w2, (job_of_data now (reloaded (record_of j))).
  split; [exact Hload | split; [exact Hq |]].
  cbn [job_of_data reloaded record_of job_Status job_Progress job_OutputPath
       jd_Status jd_Progress jd_OutputPath].
  split; [| split; [reflexivity | now apply ToValidUTF8_valid]].
  rewrite Hst. reflexivity.
Qed.

End SaveLoad.

(** A completed job whose output path holds the byte [0xFF], which is
    not valid UTF-8. *)
Definition raw_path_job : Job :=
  {| job_ID := "job-9"; job_Status := JobStatusCompleted; job_Progress := 100;
     job_OutputPath := String (chr 255) ".mp4"; job_S3URL := ""; job_WebhookURL := "";
     job_WebhookHeader := None; job_Error := "";
     job_CreatedAt := 1736762400; job_UpdatedAt := 1736762400 |}.

Definition raw_path_world : World :=
  {| clock := clock example_world; ticks := 0; heap := [raw_path_job];
     store := store example_world; fs := fs example_world; log := [] |}.

(** C9, as stated, fails for a job whose output path is not valid UTF-8:
    the path comes back with the replacement character in place of the
    invalid byte. *)
Lemma SaveJob_LoadJob_invalid_path_counterexample :
  let saved := SaveJob "./jobs" 0 raw_path_world in
  let loaded := LoadJob "./jobs" "job-9" (snd saved) in
  job_Status raw_path_job = JobStatusCompleted
  /\ fst saved = None
  /\ fst loaded = inr 1%nat
  /\ (job_OutputPath <$> heap (snd loaded) !! 1%nat) = Some (replacement +:+ ".mp4")
  /\ replacement +:+ ".mp4" <> job_OutputPath raw_path_job.
Proof.
  cbv zeta.
  split; [reflexivity |].
  split; [vm_compute; reflexivity |].
  split; [vm_compute; reflexivity |].
  split; [vm_compute; reflexivity |].
  vm_compute. discriminate.
Qed.

(** A completed job with an ordinary output path. *)
Definition done_job : Job :=
  {| job_ID := "job-1"; job_Status := JobStatusCompleted; job_Progress := 100;
     job_OutputPath := "outputs/job-1.mp4"; job_S3URL := ""; job_WebhookURL := "";
     job_WebhookHeader := None; job_Error := "";
     job_CreatedAt := 1736762400; job_UpdatedAt := 1736762400 |}.

Definition done_world : World :=
  {| clock := clock example_world; ticks := 0; heap := [done_job];
     store := store example_world; fs := fs example_world; log := [] |}.

Lemma SaveJob_LoadJob_round_trip_witness :
  exists q w2 j',
    LoadJob "./jobs" "job-1" (snd (SaveJob "./jobs" 0 done_world)) = (inr q, w2)
    /\ heap w2 !! q = Some j'
    /\ job_Status j' = JobStatusCompleted
    /\ job_Progress j' = 100
    /\ job_OutputPath j' = "outputs/job-1.mp4".
Proof.
  assert (Hsave : SaveJob "./jobs" 0 done_world
                  = (None, snd (SaveJob "./jobs" 0 done_world))).
  { rewrite (surjective_pairing (SaveJob "./jobs" 0 done_world)) at 1.
    f_equal; vm_compute; reflexivity. }
  exact (SaveJob_LoadJob_round_trip "./jobs" 0 done_world _ done_job
           eq_refl eq_refl eq_refl eq_refl Hsave).
Defined.

(** ** The job store *)

Module StoreSpec.

(** Every key of the store is the identifier of the job it points to. *)
Definition store_ok (w : World) : Prop :=
  forall id p, Get id w = Some p -> exists j, heap w !! p = Some j /\ job_ID j = id.

(** A method that leaves the identifier of the job alone. *)
Definition keeps_id (method : Time -> Job -> Job) : Prop :=
  forall now j, job_ID (method now j) = job_ID j.

(** The path of the record of a job. *)
Definition record_path (dir id : string) : string :=
  Clean (PathJoin [dir; id +:+ ".json"]).

End StoreSpec.

Section StoreFacts.
Import StoreSpec.

Lemma SaveJob_keeps dir p w :
  store (snd (SaveJob dir p w)) = store w /\ heap (snd (SaveJob dir p w)) = heap w.
Proof.
  unfold SaveJob. destruct (heap w !! p); [| now split]. unfold Now.
  match goal with
  | |- context [WriteFile ?a ?b ?c ?d] => destruct (WriteFile a b c d)
  end; now split.
Qed.

Lemma DeleteJob_keeps dir id w :
  store (snd (DeleteJob dir id w)) = store w /\ heap (snd (DeleteJob dir id w)) = heap w.
Proof.
  unfold DeleteJob.
  destruct (Remove (fs w) _) as [[|msg]|fs']; now split.
Qed.

Lemma Add_store p w :
  jobs (store (Add p w)) = <[job_id_at p w := p]> (jobs (store w))
  /\ persistence (store (Add p w)) = persistence (store w)
  /\ heap (Add p w) = heap w.
Proof.
  unfold Add. destruct (persistence (store w)) as [dir|] eqn:Hp.
  - destruct (SaveJob_keeps dir p
                (set_store {| jobs := <[job_id_at p w := p]> (jobs (store w));
                              persistence := Some dir |} w)) as [-> ->].
    now repeat split.
  - now repeat split.
Qed.

Lemma Update_store p w :
  jobs (store (snd (Update p w))) = <[job_id_at p w := p]> (jobs (store w))
  /\ persistence (store (snd (Update p w))) = persistence (store w)
  /\ heap (snd (Update p w)) = heap w.
Proof.
  unfold Update. destruct (persistence (store w)) as [dir|] eqn:Hp.
  - destruct (SaveJob_keeps dir p
                (set_store {| jobs := <[job_id_at p w := p]> (jobs (store w));
                              persistence := Some dir |} w)) as [-> ->].
    now repeat split.
  - now repeat split.
Qed.

Lemma Delete_store id w :
  jobs (store (Delete id w)) = delete id (jobs (store w))
  /\ persistence (store (Delete id w)) = persistence (store w)
  /\ heap (Delete id w) = heap w.
Proof.
  unfold Delete. destruct (persistence (store w)) as [dir|] eqn:Hp.
  - destruct (DeleteJob_keeps dir id
                (set_store {| jobs := delete id (jobs (store w));
                              persistence := Some dir |} w)) as [-> ->].
    now repeat split.
  - now repeat split.
Qed.

(** The record of a job is gone once the job was added and deleted. *)
Lemma Add_Delete_file dir p w j :
  heap w !! p = Some j ->
  persistence (store w) = Some dir ->
  is_dir (fs w) (record_path dir (job_ID j)) = false ->
  fs (Delete (job_ID j) (Add p w)) !! record_path dir (job_ID j) = None.
Proof.
  intros Hh Hp Hdir. unfold record_path in *.
  set (path := Clean (PathJoin [dir; job_ID j +:+ ".json"])) in *.
  assert (Hadd : persistence (store (Add p w)) = Some dir
                 /\ is_dir (fs (Add p w)) path = false).
  { destruct (Add_store p w) as (_ & -> & _). split; [exact Hp |].
    unfold Add. rewrite Hp. unfold SaveJob. cbn [heap set_store]. rewrite Hh.
    unfold Now. cbn [GetStatus sr_JobID fs set_store]. unfold WriteFile. fold path.
    cbn [fs]. rewrite Hdir.
    destruct (is_dir (fs w) (Dir path)); cbn [snd fs add_log set_fs]; [| exact Hdir].
    unfold is_dir. now rewrite lookup_insert_eq. }
  destruct Hadd as [Hp' Hdir']. generalize dependent (Add p w). intros w1 Hp' Hdir'.
  unfold Delete. rewrite Hp'. unfold DeleteJob. cbn [fs set_store]. unfold Remove.
  fold path. unfold is_dir in Hdir'.
  destruct (fs w1 !! path) as [f|] eqn:Hf; cbn [snd fs set_store]; [| exact Hf].
  rewrite Hdir'. cbn [snd fs set_fs]. apply lookup_delete_eq.
Qed.

(** X4. [Add] files a job under its identifier and leaves every other
    key alone; [Delete] takes it out again and restores the store, and
    with persistence the record written by [Add] is no longer on disk.
    Neither touches the jobs themselves. *)
Theorem JobStore_Add_Get_Delete (p : nat) (w : World) (j : Job) :
  heap w !! p = Some j ->
  Get (job_ID j) (Add p w) = Some p
  /\ (forall id, id <> job_ID j -> Get id (Add p w) = Get id w)
  /\ heap (Add p w) = heap w
  /\ Get (job_ID j) (Delete (job_ID j) (Add p w)) = None
  /\ (forall id, id <> job_ID j -> Get id (Delete (job_ID j) (Add p w)) = Get id w)
  /\ heap (Delete (job_ID j) (Add p w)) = heap w
  /\ (forall dir,
        persistence (store w) = Some dir ->
        is_dir (fs w) (record_path dir (job_ID j)) = false ->
        ReadFile (fs (Delete (job_ID j) (Add p w))) (PathJoin [dir; job_ID j +:+ ".json"])
          = inl ErrNotExist).
Proof.
  intros Hh.
  assert (Hid : job_id_at p w = job_ID j) by (unfold job_id_at; now rewrite Hh).
  destruct (Add_store p w) as (Hj & Hp & Hheap).
  destruct (Delete_store (job_ID j) (Add p w)) as (Hj' & Hp' & Hheap').
  unfold Get. rewrite Hj', Hj, Hid, Hheap', Hheap.
  split; [apply lookup_insert_eq |].
  split; [intros id Hne; now rewrite lookup_insert_ne by congruence |].
  split; [reflexivity |].
  split; [apply lookup_delete_eq |].
  split; [intros id Hne;
          now rewrite lookup_delete_ne, lookup_insert_ne by congruence |].
  split; [reflexivity |].
  intros dir Hdir Hnd. unfold ReadFile.
  fold (record_path dir (job_ID j)).
  now rewrite (Add_Delete_file dir p w j Hh Hdir Hnd).
Qed.

Lemma JobStore_Add_Get_Delete_witness :
  Get "job-1" (Add 0 (snd (alloc done_job example_world))) = Some 0%nat
  /\ Get "job-1" (Delete "job-1" (Add 0 (snd (alloc done_job example_world)))) = None.
Proof.
  destruct (JobStore_Add_Get_Delete 0 (snd (alloc done_job example_world)) done_job
              eq_refl) as (H1 & _ & _ & H2 & _).
  split; [exact H1 | exact H2].
Defined.

Lemma call_heap_length p m w : length (heap (call p m w)) = length (heap w).
Proof.
  unfold call. destruct (heap w !! p); [| reflexivity]. cbn [heap Now].
  now rewrite length_insert.
Qed.

Lemma call_ok p m w : keeps_id m -> store_ok w -> store_ok (call p m w).
Proof.
  intros Hm Hok id q Hq. unfold call in *.
  destruct (heap w !! p) as [j|] eqn:Hp; [| now apply Hok].
  cbn [Get store heap Now] in *. destruct (Hok id q Hq) as (j0 & Hj0 & Hid).
  destruct (decide (q = p)) as [->|Hne].
  - exists (m (clock w (ticks w)) j). split.
    + apply list_lookup_insert_eq. now apply lookup_lt_Some in Hp.
    + rewrite Hm. congruence.
  - exists j0. split; [| exact Hid]. now rewrite list_lookup_insert_ne by congruence.
Qed.

Lemma insert_ok p w w' :
  store_ok w -> (p < length (heap w))%nat ->
  jobs (store w') = <[job_id_at p w := p]> (jobs (store w)) ->
  heap w' = heap w ->
  store_ok w'.
Proof.
  intros Hok Hp Hj Hh id q. unfold Get. rewrite Hj, Hh.
  destruct (decide (job_id_at p w = id)) as [<-|Hne].
  - rewrite lookup_insert_eq. intros [= <-]. unfold job_id_at.
    destruct (lookup_lt_is_Some_2 _ _ Hp) as [j Hj0]. rewrite Hj0. now exists j.
  - rewrite lookup_insert_ne by assumption. apply Hok.
Qed.

Lemma Add_ok p w : store_ok w -> (p < length (heap w))%nat -> store_ok (Add p w).
Proof.
  intros Hok Hp. destruct (Add_store p w) as (Hj & _ & Hh).
  eapply insert_ok; eassumption.
Qed.

Lemma Update_ok p w :
  store_ok w -> (p < length (heap w))%nat -> store_ok (snd (Update p w)).
Proof.
  intros Hok Hp. destruct (Update_store p w) as (Hj & _ & Hh).
  eapply insert_ok; eassumption.
Qed.

Lemma Update_heap_length p w : length (heap (snd (Update p w))) = length (heap w).
Proof. destruct (Update_store p w) as (_ & _ & ->). reflexivity. Qed.

Lemma Delete_ok id w : store_ok w -> store_ok (Delete id w).
Proof.
  intros Hok id' q. destruct (Delete_store id w) as (Hj & _ & Hh).
  unfold Get. rewrite Hj, Hh. intros Hq.
  apply lookup_delete_Some in Hq as [_ Hq]. now apply Hok.
Qed.

Lemma load_entries_ok dir entries :
  forall m w,
    (forall id p, m !! id = Some p -> exists j, heap w !! p = Some j /\ job_ID j = id) ->
    forall id p,
      fst (load_entries dir entries m w) !! id = Some p ->
      exists j, heap (snd (load_entries dir entries m w)) !! p = Some j /\ job_ID j = id.
Proof.
  induction entries as [|entry rest IH]; intros m w Hm; [exact Hm |].
  cbn [load_entries].
  destruct (IsDir entry || negb (String.eqb (Ext (Name entry)) ".json")); [now apply IH |].
  destruct (ReadFile (fs w) _) as [err|content]; [now apply IH |].
  destruct (Unmarshal_jobData content) as [data|]; [| now apply IH].
  unfold Now, alloc. cbn [heap]. apply IH. intros id p.
  cbn [heap]. destruct (decide (job_ID (job_of_data (clock w (ticks w)) data) = id))
    as [<-|Hne].
  - rewrite lookup_insert_eq. intros [= <-]. eexists. split; [| reflexivity].
    rewrite lookup_app_r by lia. now rewrite Nat.sub_diag.
  - rewrite lookup_insert_ne by assumption. intros Hp.
    destruct (Hm id p Hp) as (j & Hj & Hid). exists j. split; [| exact Hid].
    now apply lookup_app_l_Some.
Qed.

Lemma NewJobStoreWithPersistence_ok dir w : store_ok (NewJobStoreWithPersistence dir w).
Proof.
  unfold NewJobStoreWithPersistence, LoadAllJobs.
  destruct (ReadDir (fs w) dir) as [err|entries].
  - intros id p. unfold Get. cbn. now rewrite lookup_empty.
  - pose proof (load_entries_ok dir entries ∅ w) as H.
    destruct (load_entries dir entries ∅ w) as [m w'] eqn:E. cbn [fst snd] in H.
    intros id p. unfold Get. cbn [store set_store jobs heap]. apply H.
    intros id' p'. now rewrite lookup_empty.
Qed.

(** X5. The store keeps its keys in step with the jobs: in the store a
    start-up builds from the records on disk, and after every [Add],
    [Update], [Delete] and every method called on a job, each key is the
    identifier of the job it points to.  No method of [Job] changes the
    identifier. *)
Theorem store_keys_are_job_ids :
  (forall w, store_ok (NewJobStore w))
  /\ (forall dir w, store_ok (NewJobStoreWithPersistence dir w))
  /\ (forall p w, store_ok w -> (p < length (heap w))%nat -> store_ok (Add p w))
  /\ (forall p w, store_ok w -> (p < length (heap w))%nat -> store_ok (snd (Update p w)))
  /\ (forall id w, store_ok w -> store_ok (Delete id w))
  /\ (forall p m w, keeps_id m -> store_ok w -> store_ok (call p m w))
  /\ (forall status, keeps_id (UpdateStatus status))
  /\ (forall progress, keeps_id (UpdateProgress progress))
  /\ (forall path, keeps_id (SetOutput path))
  /\ (forall url, keeps_id (SetS3URL url))
  /\ (forall err, keeps_id (SetError err)).
Proof.
  split; [intros w id p; unfold Get; cbn; now rewrite lookup_empty |].
  split; [apply NewJobStoreWithPersistence_ok |].
  split; [apply Add_ok |].
  split; [apply Update_ok |].
  split; [apply Delete_ok |].
  split; [apply call_ok |].
  repeat split.
Qed.

End StoreFacts.

(** ** How a background task leaves its job *)

Module TaskSpec.

(** What the engine pipeline of a task returns for the output path. *)
Definition api_result (stat : string -> ffmpeg.StatResult)
    (engine : list string -> ffmpeg.ExecOutcome) (t : api.Task) (out : string)
    : option string :=
  match t with
  | api.GoMerge _ req => ffmpeg.MergeVideos stat engine (mr_Segments req) out
  | api.GoOverlay _ req =>
      ffmpeg.AddImageOverlay stat engine (or_VideoPath req) (or_Overlay req) out
  | api.GoAudio _ req =>
      ffmpeg.AddBackgroundMusic stat engine (ar_VideoPath req) (ar_Audio req) out
  | api.GoComplete _ req => ffmpeg.CompleteProcess stat engine req out
  | api.GoCombineFromURLs _ _ | api.GoCombineFromFiles _ _ => None
  end.

Definition mcp_result (stat : string -> ffmpeg.StatResult)
    (engine : list string -> ffmpeg.ExecOutcome) (t : mcp.Task) (out : string)
    : option string :=
  match t with
  | mcp.GoMerge _ segments => ffmpeg.MergeVideos stat engine segments out
  | mcp.GoOverlay _ videoPath overlay =>
      ffmpeg.AddImageOverlay stat engine videoPath overlay out
  | mcp.GoAudio _ videoPath audio =>
      ffmpeg.AddBackgroundMusic stat engine videoPath audio out
  | mcp.GoComplete _ req => ffmpeg.CompleteProcess stat engine req out
  end.

(** The state [processJobCommon] leaves the job [j] in, for the result
    [r] of the pipeline on the output path [out]: completed at full
    progress with the output path, or failed with the error text at
    progress 30. *)
Definition finished (j : Job) (out : string) (r : option string) (j' : Job) : Prop :=
  job_ID j' = job_ID j /\ job_S3URL j' = job_S3URL j
  /\ job_CreatedAt j' = job_CreatedAt j
  /\ match r with
     | None =>
         job_Status j' = JobStatusCompleted /\ job_Progress j' = 100
         /\ job_OutputPath j' = out /\ job_Error j' = job_Error j
     | Some err =>
         job_Status j' = JobStatusFailed /\ job_Progress j' = 30
         /\ job_OutputPath j' = job_OutputPath j /\ job_Error j' = err
     end.

(** The state the merge-and-upload part of a combine task leaves the
    job in, for the files it works on. *)
Definition combined (engine : list string -> ffmpeg.ExecOutcome)
    (Upload : string -> string -> string + string) (RemoveOutput : string -> option string)
    (j : Job) (out : string) (files : list string) (j' : Job) : Prop :=
  match ffmpeg.MergeVideosSimple engine files out with
  | Some e =>
      job_Status j' = JobStatusFailed /\ job_Progress j' = 60
      /\ job_Error j' = "Failed to merge videos: " +:+ e
      /\ job_OutputPath j' = job_OutputPath j /\ job_S3URL j' = job_S3URL j
  | None =>
      match Upload out (api.GetObjectName (job_ID j) out) with
      | inl e =>
          job_Status j' = JobStatusFailed /\ job_Progress j' = 80
          /\ job_Error j' = "Failed to upload to S3: " +:+ e
          /\ job_OutputPath j' = out /\ job_S3URL j' = job_S3URL j
      | inr url =>
          job_Status j' = JobStatusCompleted /\ job_Progress j' = 100
          /\ job_Error j' = job_Error j /\ job_S3URL j' = url
          /\ job_OutputPath j' =
               match RemoveOutput out with
               | None => ""
               | Some _ => out
               end
      end
  end.

End TaskSpec.

Section TaskOutcomes.
Import JobTrace TaskSpec.

Variable cfg : api.Config.
Variable stat : string -> ffmpeg.StatResult.
Variable engine : list string -> ffmpeg.ExecOutcome.
Variable DownloadVideosInOrder : list string -> string + list string.
Variable Upload : string -> string -> string + string.
Variable RemoveOutput : string -> option string.

Lemma api_common_outcome p S P fn w j L :
  at_job p S P w j L ->
  exists j' L',
    at_job p S P (api.processJobCommon cfg p fn w) j' (L ++ L')
    /\ finished j (PathJoin [api.OutputDir cfg; job_ID j +:+ ".mp4"])
         (fn (PathJoin [api.OutputDir cfg; job_ID j +:+ ".mp4"])) j'
    /\ (P <> None -> exists err, last L' = Some (EvSave (record_of j') err)).
Proof.
  intros H. unfold api.processJobCommon.
  destruct j as [id st pr out s3 wu wh er ca ua].
  cbn [job_ID].
  destruct P as [dir|]; steps;
    cbn [job_ID UpdateProgress UpdateStatus SetError SetOutput] in *;
    match goal with
    | Heq : fn _ = _ |- _ => rewrite Heq
    end;
    match goal with
    | Hat : at_job _ _ _ ?w ?j' ?L0 |- exists _ _, at_job _ _ _ ?w _ _ /\ _ =>
        exists j'; eexists; split;
          [rewrite <- ?app_assoc in Hat; cbn [app] in Hat; exact Hat |]
    end;
    (split; [repeat split | intros HP; try congruence; eexists; reflexivity]).
Qed.

Lemma call_keeps p m w :
  fs (call p m w) = fs w /\ store (call p m w) = store w.
Proof. unfold call. destruct (heap w !! p); split; reflexivity. Qed.

Lemma mcp_common_outcome p S P fn w j L :
  at_job p S P w j L ->
  exists j' L',
    at_job p S P (mcp.processJobCommon cfg p fn w) j' (L ++ L')
    /\ finished j (PathJoin [api.OutputDir cfg; job_ID j +:+ ".mp4"])
         (fn (PathJoin [api.OutputDir cfg; job_ID j +:+ ".mp4"])) j'
    /\ fs (mcp.processJobCommon cfg p fn w) = fs w
    /\ store (mcp.processJobCommon cfg p fn w) = store w.
Proof.
  intros H.
  assert (Hkeep : fs (mcp.processJobCommon cfg p fn w) = fs w
                  /\ store (mcp.processJobCommon cfg p fn w) = store w).
  { unfold mcp.processJobCommon.
    destruct (fn _);
      repeat match goal with
      | |- context [call ?q ?m ?v] =>
          destruct (call_keeps q m v) as [-> ->]
      end; split; reflexivity. }
  destruct Hkeep as [Hfs Hstore]. rewrite Hfs, Hstore. clear Hfs Hstore.
  unfold mcp.processJobCommon.
  destruct j as [id st pr out s3 wu wh er ca ua].
  cbn [job_ID].
  steps;
    cbn [job_ID UpdateProgress UpdateStatus SetError SetOutput] in *;
    match goal with
    | Heq : fn _ = _ |- _ => rewrite Heq
    end;
    match goal with
    | Hat : at_job _ _ _ ?w ?j' ?L0 |- exists _ _, at_job _ _ _ ?w _ _ /\ _ =>
        exists j'; eexists; split;
          [rewrite <- ?app_assoc in Hat; cbn [app] in Hat; exact Hat |]
    end;
    repeat split.
Qed.

(** X1. An HTTP task through [processJobCommon] always leaves its job in
    a final status: completed, at progress 100 and with the output path
    [OutputDir/<id>.mp4], exactly when the pipeline returned no error,
    and failed, at progress 30 and with the text of the error,
    otherwise.  The job keeps its identifier and stays in the store, and
    with persistence the task ends by saving that final state. *)
Theorem api_task_finishes (p : nat) (w : World) (j : Job) (t : api.Task) :
  heap w !! p = Some j ->
  Get (job_ID j) w = Some p ->
  api.task_job t = p ->
  StatusSpec.through_common t = true ->
  let out := PathJoin [api.OutputDir cfg; job_ID j +:+ ".mp4"] in
  let w' := api.run_task cfg stat engine DownloadVideosInOrder Upload RemoveOutput t w in
  exists j',
    heap w' !! p = Some j'
    /\ Get (job_ID j) w' = Some p
    /\ finished j out (api_result stat engine t out) j'
    /\ (persistence (store w) <> None ->
        exists err, last (log w') = Some (EvSave (record_of j') err)).
Proof.
  intros Hh Hget Ht Hcommon out w'.
  assert (Hat : at_job p (Some (job_ID j)) (persistence (store w)) w j (log w)).
  { unfold at_job. repeat split; try assumption. now intros id [= <-]. }
  assert (Hgen : forall fn,
            exists j',
              heap (api.processJobCommon cfg p fn w) !! p = Some j'
              /\ Get (job_ID j) (api.processJobCommon cfg p fn w) = Some p
              /\ finished j out (fn out) j'
              /\ (persistence (store w) <> None ->
                  exists err, last (log (api.processJobCommon cfg p fn w))
                              = Some (EvSave (record_of j') err))).
  { intros fn.
    destruct (api_common_outcome p _ _ fn w j (log w) Hat)
      as (j' & L' & Hat' & Hfin & Hlast).
    exists j'. destruct Hat' as (Hh' & Hl' & _ & Hs').
    split; [exact Hh' | split; [now apply Hs' | split; [exact Hfin |]]].
    intros HP. destruct (Hlast HP) as [err Herr]. exists err.
    rewrite Hl'. destruct L' as [|e L']; [discriminate |].
    now rewrite last_app, Herr. }
  subst w'. destruct t; simpl in Ht; subst; try discriminate; apply Hgen.
Qed.

(** X2. An MCP task leaves its job in the same final state as an HTTP
    task, but it never tells the store: the files on disk and the store
    are exactly as they were, so the record persisted for the job is
    still the one written when it was created. *)
Theorem mcp_task_finishes_unsaved (p : nat) (w : World) (j : Job) (t : mcp.Task) :
  heap w !! p = Some j ->
  mcp.task_job t = p ->
  let out := PathJoin [api.OutputDir cfg; job_ID j +:+ ".mp4"] in
  let w' := mcp.run_task cfg stat engine t w in
  exists j',
    heap w' !! p = Some j'
    /\ finished j out (mcp_result stat engine t out) j'
    /\ fs w' = fs w
    /\ store w' = store w.
Proof.
  intros Hh Ht out w'.
  pose proof (at_job_intro p w j Hh) as Hat.
  assert (Hgen : forall fn,
            exists j',
              heap (mcp.processJobCommon cfg p fn w) !! p = Some j'
              /\ finished j out (fn out) j'
              /\ fs (mcp.processJobCommon cfg p fn w) = fs w
              /\ store (mcp.processJobCommon cfg p fn w) = store w).
  { intros fn.
    destruct (mcp_common_outcome p _ _ fn w j (log w) Hat)
      as (j' & L' & Hat' & Hfin & Hfs & Hstore).
    exists j'. destruct Hat' as (Hh' & _).
    split; [exact Hh' | split; [exact Hfin | split; assumption]]. }
  subst w'. destruct t; simpl in Ht; subst; apply Hgen.
Qed.

Lemma combine_files_outcome p S P files w j L :
  at_job p S P w j L ->
  exists j' L',
    at_job p S P (api.processCombineJobFromFiles cfg engine Upload RemoveOutput p files w)
      j' L'
    /\ job_ID j' = job_ID j
    /\ combined engine Upload RemoveOutput j
         (PathJoin [api.OutputDir cfg; job_ID j +:+ ".mp4"]) files j'.
Proof.
  intros H. unfold api.processCombineJobFromFiles, api.processCombineJobCommon.
  destruct j as [id st pr out s3 wu wh er ca ua].
  cbn [job_ID job_OutputPath job_S3URL job_Error].
  destruct P as [dir|]; steps; unfold combined;
    cbn [job_ID job_OutputPath job_S3URL job_Error
         UpdateProgress UpdateStatus SetError SetOutput SetS3URL] in *;
    repeat match goal with
    | Heq : ffmpeg.MergeVideosSimple _ _ _ = _ |- _ => rewrite Heq; clear Heq
    | Heq : Upload _ _ = _ |- _ => rewrite Heq; clear Heq
    | Heq : RemoveOutput _ = _ |- _ => rewrite Heq; clear Heq
    end;
    match goal with
    | Hat : at_job _ _ _ ?w ?j' ?L0 |- exists _ _, at_job _ _ _ ?w _ _ /\ _ =>
        exists j', L0; split; [exact Hat |]
    end;
    repeat split.
Qed.

Lemma combine_urls_outcome p S P urls w j L :
  at_job p S P w j L ->
  exists j' L',
    at_job p S P
      (api.processCombineJobFromURLs cfg engine DownloadVideosInOrder Upload RemoveOutput
         p urls w) j' L'
    /\ job_ID j' = job_ID j
    /\ match DownloadVideosInOrder urls with
       | inl e =>
           job_Status j' = JobStatusFailed /\ job_Progress j' = 20
           /\ job_Error j' = "Failed to download videos: " +:+ e
           /\ job_OutputPath j' = job_OutputPath j /\ job_S3URL j' = job_S3URL j
       | inr files =>
           combined engine Upload RemoveOutput j
             (PathJoin [api.OutputDir cfg; job_ID j +:+ ".mp4"]) files j'
       end.
Proof.
  intros H. unfold api.processCombineJobFromURLs, api.processCombineJobCommon.
  destruct j as [id st pr out s3 wu wh er ca ua].
  cbn [job_ID job_OutputPath job_S3URL job_Error].
  destruct P as [dir|]; steps; unfold combined;
    cbn [job_ID job_OutputPath job_S3URL job_Error
         UpdateProgress UpdateStatus SetError SetOutput SetS3URL] in *;
    repeat match goal with
    | Heq : DownloadVideosInOrder _ = _ |- _ => rewrite Heq; clear Heq
    | Heq : ffmpeg.MergeVideosSimple _ _ _ = _ |- _ => rewrite Heq; clear Heq
    | Heq : Upload _ _ = _ |- _ => rewrite Heq; clear Heq
    | Heq : RemoveOutput _ = _ |- _ => rewrite Heq; clear Heq
    end;
    match goal with
    | Hat : at_job _ _ _ ?w ?j' ?L0 |- exists _ _, at_job _ _ _ ?w _ _ /\ _ =>
        exists j', L0; split; [exact Hat |]
    end;
    repeat split.
Qed.

(** X3. A combine task always leaves its job in a final status.  It is
    failed, with the stage named in the error text, when the download
    (progress 20), the merge (progress 60) or the upload (progress 80)
    failed; otherwise it is completed at progress 100 with the URL the
    upload returned, and its output path is empty when the merged file
    was removed and the path of that file when the removal failed. *)
Theorem combine_task_finishes (p : nat) (w : World) (j : Job) :
  heap w !! p = Some j ->
  Get (job_ID j) w = Some p ->
  let out := PathJoin [api.OutputDir cfg; job_ID j +:+ ".mp4"] in
  let run t := api.run_task cfg stat engine DownloadVideosInOrder Upload RemoveOutput t w in
  (forall files,
     exists j',
       heap (run (api.GoCombineFromFiles p files)) !! p = Some j'
       /\ Get (job_ID j) (run (api.GoCombineFromFiles p files)) = Some p
       /\ job_ID j' = job_ID j
       /\ combined engine Upload RemoveOutput j out files j')
  /\ (forall urls,
       exists j',
         heap (run (api.GoCombineFromURLs p urls)) !! p = Some j'
         /\ Get (job_ID j) (run (api.GoCombineFromURLs p urls)) = Some p
         /\ job_ID j' = job_ID j
         /\ match DownloadVideosInOrder urls with
            | inl e =>
                job_Status j' = JobStatusFailed /\ job_Progress j' = 20
                /\ job_Error j' = "Failed to download videos: " +:+ e
                /\ job_OutputPath j' = job_OutputPath j /\ job_S3URL j' = job_S3URL j
            | inr files => combined engine Upload RemoveOutput j out files j'
            end).
Proof.
  intros Hh Hget out run.
  assert (Hat : at_job p (Some (job_ID j)) (persistence (store w)) w j (log w)).
  { unfold at_job. repeat split; try assumption. now intros id [= <-]. }
  split.
  - intros files.
    destruct (combine_files_outcome p _ _ files w j (log w) Hat)
      as (j' & L' & (Hh' & _ & _ & Hs') & Hid & Hc).
    exists j'. split; [exact Hh' | split; [now apply Hs' | split; assumption]].
  - intros urls.
    destruct (combine_urls_outcome p _ _ urls w j (log w) Hat)
      as (j' & L' & (Hh' & _ & _ & Hs') & Hid & Hc).
    exists j'. split; [exact Hh' | split; [now apply Hs' | split; assumption]].
Qed.

Lemma DownloadOutput_of_job (stat' : string -> ffmpeg.StatResult) id p w j :
  Get id w = Some p -> heap w !! p = Some j ->
  handlers.DownloadOutput stat' id w =
    if negb (String.eqb (job_Status j) JobStatusCompleted) then
      handlers.DownloadError api.StatusAccepted "Job not completed"
        ("Job is currently " +:+ job_Status j +:+ ". Please wait for it to complete.")
    else if String.eqb (job_OutputPath j) "" then
      handlers.DownloadError handlers.StatusInternalServerError "No output file"
        "Job completed but no output file was generated"
    else
      match stat' (job_OutputPath j) with
      | ffmpeg.StatNotExist =>
          handlers.DownloadError handlers.StatusInternalServerError "File not found"
            "The output file no longer exists on the server"
      | _ =>
          handlers.SendFile (job_OutputPath j)
            ("attachment; filename=" +:+ String json.dquote
               (Base (job_OutputPath j) +:+ String json.dquote EmptyString))
      end.
Proof.
  intros Hget Hh. unfold handlers.DownloadOutput. rewrite Hget. cbn [mbind option_bind].
  rewrite Hh. reflexivity.
Qed.

(** X6. What [DownloadOutput] answers once a task is over.  After an
    HTTP task that succeeded it sends the file [OutputDir/<id>.mp4]
    (or answers 500 when that file is gone); after one that failed it
    answers 202 and asks to wait, although the job is final.  After a
    combine task that uploaded the result and removed the merged file
    it answers 500: the completed job has no output path left. *)
Theorem DownloadOutput_after_task (stat' : string -> ffmpeg.StatResult)
    (p : nat) (w : World) (j : Job) :
  heap w !! p = Some j ->
  Get (job_ID j) w = Some p ->
  let out := PathJoin [api.OutputDir cfg; job_ID j +:+ ".mp4"] in
  let run t := api.run_task cfg stat engine DownloadVideosInOrder Upload RemoveOutput t w in
  (forall t, api.task_job t = p -> StatusSpec.through_common t = true ->
     handlers.DownloadOutput stat' (job_ID j) (run t) =
       match api_result stat engine t out with
       | None =>
           match stat' out with
           | ffmpeg.StatNotExist =>
               handlers.DownloadError 500 "File not found"
                 "The output file no longer exists on the server"
           | _ =>
               handlers.SendFile out
                 ("attachment; filename=" +:+ String json.dquote
                    (Base out +:+ String json.dquote EmptyString))
           end
       | Some _ =>
           handlers.DownloadError 202 "Job not completed"
             "Job is currently failed. Please wait for it to complete."
       end)
  /\ (forall files url,
       ffmpeg.MergeVideosSimple engine files out = None ->
       Upload out (api.GetObjectName (job_ID j) out) = inr url ->
       RemoveOutput out = None ->
       handlers.DownloadOutput stat' (job_ID j) (run (api.GoCombineFromFiles p files)) =
         handlers.DownloadError 500 "No output file"
           "Job completed but no output file was generated").
Proof.
  intros Hh Hget out run.
  assert (Hat : at_job p (Some (job_ID j)) (persistence (store w)) w j (log w)).
  { unfold at_job. repeat split; try assumption. now intros id [= <-]. }
  split.
  - assert (Hgen : forall fn,
              handlers.DownloadOutput stat' (job_ID j) (api.processJobCommon cfg p fn w) =
                match fn out with
                | None =>
                    match stat' out with
                    | ffmpeg.StatNotExist =>
                        handlers.DownloadError 500 "File not found"
                          "The output file no longer exists on the server"
                    | _ =>
                        handlers.SendFile out
                          ("attachment; filename=" +:+ String json.dquote
                             (Base out +:+ String json.dquote EmptyString))
                    end
                | Some _ =>
                    handlers.DownloadError 202 "Job not completed"
                      "Job is currently failed. Please wait for it to complete."
                end).
    { intros fn.
      destruct (api_common_outcome p _ _ fn w j (log w) Hat)
        as (j' & L' & (Hh' & _ & _ & Hs') & (_ & _ & _ & Hfin) & _).
      rewrite (DownloadOutput_of_job stat' _ p _ j' (Hs' _ eq_refl) Hh').
      fold out in Hfin. destruct (fn out) as [err|].
      - destruct Hfin as (-> & _). reflexivity.
      - destruct Hfin as (-> & _ & -> & _). cbn [negb String.eqb Ascii.eqb].
        change (String.eqb JobStatusCompleted JobStatusCompleted) with true.
        cbn [negb].
        destruct (String.eqb_spec out "") as [E|_];
          [exfalso; exact (output_path_nonempty _ _ E) | reflexivity]. }
    intros t Ht Hcommon. subst run. cbv beta.
    destruct t; simpl in Ht; subst; try discriminate; apply Hgen.
  - intros files url Hmerge Hup Hrm. subst run. cbv beta. cbn [api.run_task].
    destruct (combine_files_outcome p _ _ files w j (log w) Hat)
      as (j' & L' & (Hh' & _ & _ & Hs') & _ & Hc).
    rewrite (DownloadOutput_of_job stat' _ p _ j' (Hs' _ eq_refl) Hh').
    unfold combined in Hc. fold out in Hc. rewrite Hmerge, Hup, Hrm in Hc.
    destruct Hc as (-> & _ & _ & _ & ->). reflexivity.
Qed.

(** X7. A job is visible as soon as its submission is answered: after a
    Merge request was accepted, [GetJobStatus] and the MCP status tool
    report it as pending at progress 0, [DownloadOutput] answers 202,
    and an identifier the store does not know is answered 404. *)
Theorem submitted_job_is_visible (jobID : string) (req : MergeVideoRequest) (w : World) :
  (2 <= length (mr_Segments req))%nat ->
  let w' := snd (api.MergeVideos jobID (inr req) w) in
  exists now,
    api.GetJobStatus jobID w' =
      {| api.status_code := 200;
         api.body := api.JobStatusBody (GetStatus (NewJob now jobID)) |}
    /\ tools.handleGetJobStatus (inr jobID) w'
         = tools.StatusResultJSON (GetStatus (NewJob now jobID))
    /\ handlers.DownloadOutput stat jobID w' =
         handlers.DownloadError 202 "Job not completed"
           "Job is currently pending. Please wait for it to complete."
    /\ (forall id, id <> jobID -> Get id w = None ->
          api.GetJobStatus id w' =
            {| api.status_code := 404;
               api.body := api.ErrorResponse "Job not found"
                             ("Job with ID " +:+ id +:+ " does not exist") |}).
Proof.
  intros Hlen w'. subst w'. unfold api.MergeVideos.
  destruct (Z.ltb_spec (Z.of_nat (length (mr_Segments req))) 2) as [Hlt|_]; [lia |].
  destruct (createAndStartJob_at jobID w) as (now & evs & Hat & _ & Hp & _).
  assert (Hother : forall id, id <> jobID ->
            Get id (snd (api.createAndStartJob jobID w)) = Get id w).
  { intros id Hne. unfold api.createAndStartJob, Now. cbv zeta.
    unfold alloc. cbn [heap]. cbv iota beta.
    match goal with
    | |- Get id (snd (_, _, Add ?q ?v)) = _ =>
        cbn [snd]; destruct (Add_store q v) as (Hj & _ & _); unfold Get; rewrite Hj
    end.
    unfold job_id_at. cbn [heap]. rewrite lookup_app_r by lia. rewrite Nat.sub_diag.
    cbn [lookup list_lookup NewJob job_ID store jobs].
    now rewrite lookup_insert_ne by congruence. }
  destruct (api.createAndStartJob jobID w) as [[p resp] w1] eqn:Hc.
  cbn [fst snd] in *. subst p. destruct Hat as (Hh & _ & _ & Hs).
  specialize (Hs jobID eq_refl).
  exists now. unfold api.GetJobStatus, tools.handleGetJobStatus.
  rewrite (DownloadOutput_of_job stat jobID _ _ _ Hs Hh).
  unfold Get in *. rewrite Hs. cbn [mbind option_bind]. rewrite Hh.
  repeat split.
  intros id Hne Hnone. rewrite (Hother id Hne), Hnone. reflexivity.
Qed.

End TaskOutcomes.

Lemma started_world_job :
  heap started_world !! 0%nat = Some (NewJob 1736762400 "job-1")
  /\ Get "job-1" started_world = Some 0%nat.
Proof. split; vm_compute; reflexivity. Qed.

Lemma api_task_finishes_witness :
  let t := api.GoMerge 0 {| mr_Segments := merge_example |} in
  let out := PathJoin [api.OutputDir example_cfg; "job-1.mp4"] in
  exists j',
    heap (api.run_task example_cfg stat_ok engine_ok download_ok upload_ok remove_ok t
            started_world) !! 0%nat = Some j'
    /\ TaskSpec.finished (NewJob 1736762400 "job-1") out
         (TaskSpec.api_result stat_ok engine_ok t out) j'.
Proof.
  destruct (api_task_finishes example_cfg stat_ok engine_ok download_ok upload_ok remove_ok
              0 started_world (NewJob 1736762400 "job-1")
              (api.GoMerge 0 {| mr_Segments := merge_example |})
              (proj1 started_world_job) (proj2 started_world_job) eq_refl eq_refl)
    as (j' & Hh & _ & Hfin & _).
  exists j'. split; [exact Hh | exact Hfin].
Defined.

Lemma mcp_task_finishes_unsaved_witness :
  let t := mcp.GoMerge 0 merge_example in
  fs (mcp.run_task example_cfg stat_ok engine_ok t started_world) = fs started_world
  /\ store (mcp.run_task example_cfg stat_ok engine_ok t started_world)
       = store started_world.
Proof.
  destruct (mcp_task_finishes_unsaved example_cfg stat_ok engine_ok
              0 started_world (NewJob 1736762400 "job-1") (mcp.GoMerge 0 merge_example)
              (proj1 started_world_job) eq_refl)
    as (j' & _ & _ & Hfs & Hstore).
  split; [exact Hfs | exact Hstore].
Defined.

Lemma combine_task_finishes_witness :
  let out := PathJoin [api.OutputDir example_cfg; "job-1.mp4"] in
  exists j',
    heap (api.run_task example_cfg stat_ok engine_ok download_ok upload_ok remove_ok
            (api.GoCombineFromFiles 0 ["a.mp4"; "b.mp4"]) started_world) !! 0%nat = Some j'
    /\ TaskSpec.combined engine_ok upload_ok remove_ok (NewJob 1736762400 "job-1") out
         ["a.mp4"; "b.mp4"] j'.
Proof.
  destruct (proj1 (combine_task_finishes example_cfg stat_ok engine_ok download_ok
                     upload_ok remove_ok 0 started_world (NewJob 1736762400 "job-1")
                     (proj1 started_world_job) (proj2 started_world_job))
              ["a.mp4"; "b.mp4"])
    as (j' & Hh & _ & _ & Hc).
  exists j'. split; [exact Hh | exact Hc].
Defined.

Lemma DownloadOutput_after_task_witness :
  handlers.DownloadOutput stat_ok "job-1"
    (api.run_task example_cfg stat_ok engine_ok download_ok upload_ok remove_ok
       (api.GoCombineFromFiles 0 ["a.mp4"; "b.mp4"]) started_world) =
    handlers.DownloadError 500 "No output file"
      "Job completed but no output file was generated".
Proof.
  exact (proj2 (DownloadOutput_after_task example_cfg stat_ok engine_ok download_ok
                  upload_ok remove_ok stat_ok 0 started_world
                  (NewJob 1736762400 "job-1")
                  (proj1 started_world_job) (proj2 started_world_job))
           ["a.mp4"; "b.mp4"] _ eq_refl eq_refl eq_refl).
Defined.

Lemma submitted_job_is_visible_witness :
  exists now,
    api.GetJobStatus "job-1"
      (snd (api.MergeVideos "job-1" (inr {| mr_Segments := merge_example |}) example_world))
    = {| api.status_code := 200;
         api.body := api.JobStatusBody (GetStatus (NewJob now "job-1")) |}.
Proof.
  assert (Hlen : (2 <= length (mr_Segments {| mr_Segments := merge_example |}))%nat)
    by (simpl; lia).
  destruct (submitted_job_is_visible stat_ok "job-1" {| mr_Segments := merge_example |}
              example_world Hlen) as (now & H & _).
  exists now. exact H.
Defined.

(** ** More on the builders *)

Module BuilderSpec.

(** The input pair the concatenation reads for input [i]. *)
Definition input_pair (i : Z) : string :=
  "[" +:+ fmt_d i +:+ ":v][" +:+ fmt_d i +:+ ":a]".

(** An overlay as [buildMultipleOverlaysFilter] sees it: the slide and
    the zoom settings dropped. *)
Definition without_motion (o : ImageOverlay) : ImageOverlay :=
  {| ov_FilePath := ov_FilePath o; ov_Position := ov_Position o;
     ov_X := ov_X o; ov_Y := ov_Y o;
     ov_StartTime := ov_StartTime o; ov_EndTime := ov_EndTime o;
     ov_Animation :=
       if String.eqb (ov_Animation o) AnimationFade then AnimationFade else AnimationNone;
     ov_FadeDuration := ov_FadeDuration o;
     ov_SlideDirection := None; ov_SlideDuration := None;
     ov_ZoomFrom := None; ov_ZoomTo := None |}.

(** A music track with its fades replaced. *)
Definition with_fades (fadeIn fadeOut : option float) (a : AudioConfig) : AudioConfig :=
  {| au_FilePath := au_FilePath a; au_Volume := au_Volume a;
     au_StartTime := au_StartTime a; au_EndTime := au_EndTime a;
     au_FadeIn := fadeIn; au_FadeOut := fadeOut |}.

(** A fade that is absent, or whose duration is not positive. *)
Definition no_fade (f : option float) : Prop :=
  forall d, f = Some d -> (0 <? d)%float = false.

(** A segment with other trim bounds. *)
Definition with_times (s e : float) (seg : VideoSegment) : VideoSegment :=
  {| seg_FilePath := seg_FilePath seg; seg_StartTime := s; seg_EndTime := e |}.

End BuilderSpec.

Section BuilderFacts.
Import ffmpeg BuilderSpec.

Variable stat : string -> StatResult.
Variable engine : list string -> ExecOutcome.

Lemma add_paths_spec inputPaths : forall args,
  add_paths args inputPaths = args ++ flat_map (fun path => ["-i"; path]) inputPaths.
Proof.
  induction inputPaths as [|path rest IH]; intros args; simpl.
  - now rewrite app_nil_r.
  - rewrite IH. now rewrite <- app_assoc.
Qed.

Lemma simple_inputs_spec inputPaths : forall i concatInputs,
  simple_inputs i inputPaths concatInputs =
    concatInputs ++
      map input_pair (map (fun k => i + Z.of_nat k) (seq 0 (length inputPaths))).
Proof.
  induction inputPaths as [|path rest IH]; intros i ci; simpl.
  - now rewrite app_nil_r.
  - rewrite IH, <- app_assoc. simpl. rewrite Z.add_0_r. do 3 f_equal.
    rewrite <- seq_shift, map_map. apply map_ext. intros k. lia.
Qed.

(** X8. [MergeVideosSimple] refuses fewer than two files without calling
    the engine; for N >= 2 files it hands the engine the N inputs in
    order and one concatenation with n = N that reads the video and the
    audio of the inputs 0 to N-1 in order.  It looks at no file: the
    argument list does not depend on what is on disk. *)
Theorem MergeVideosSimple_concat (inputPaths : list string) (outputPath : string) :
  ((length inputPaths < 2)%nat ->
     MergeVideosSimple engine inputPaths outputPath
       = Some "at least 2 video files required for merging")
  /\ ((2 <= length inputPaths)%nat ->
      MergeVideosSimple_build inputPaths outputPath =
        Exec
          (["-y"] ++ flat_map (fun path => ["-i"; path]) inputPaths
             ++ ["-filter_complex";
                 Join (map input_pair (map Z.of_nat (seq 0 (length inputPaths)))) ""
                   +:+ "concat=n=" +:+ fmt_d (Z.of_nat (length inputPaths))
                   +:+ ":v=1:a=1[outv][outa]";
                 "-map"; "[outv]"; "-map"; "[outa]";
                 "-c:v"; "libx264"; "-preset"; "medium"; "-crf"; "23";
                 "-c:a"; "aac"; "-b:a"; "192k"; outputPath])).
Proof.
  split; intros Hlen; unfold MergeVideosSimple, MergeVideosSimple_build.
  - destruct (Z.ltb_spec (Z.of_nat (length inputPaths)) 2); [reflexivity | lia].
  - destruct (Z.ltb_spec (Z.of_nat (length inputPaths)) 2); [lia |].
    cbv zeta. rewrite add_paths_spec, simple_inputs_spec.
    rewrite <- !app_assoc. cbn [app].
    replace (map (fun k => 0 + Z.of_nat k) (seq 0 (length inputPaths)))
      with (map Z.of_nat (seq 0 (length inputPaths)))
      by (apply map_ext; intros k; lia).
    reflexivity.
Qed.

Lemma validate_segments_first segments : forall i0 k seg err,
  segments !! k = Some seg ->
  ValidateFile stat (seg_FilePath seg) = Some err ->
  (forall k' s, (k' < k)%nat -> segments !! k' = Some s ->
     ValidateFile stat (seg_FilePath s) = None) ->
  validate_segments stat i0 segments
    = Some ("segment " +:+ fmt_d (i0 + Z.of_nat k) +:+ ": " +:+ err).
Proof.
  induction segments as [|s rest IH]; intros i0 k seg err Hk Herr Hbefore;
    [discriminate |].
  destruct k as [|k]; simpl in Hk.
  - injection Hk as ->. simpl. rewrite Herr, Z.add_0_r. reflexivity.
  - simpl. rewrite (Hbefore 0%nat s (Nat.lt_0_succ k) eq_refl).
    replace (i0 + Z.of_nat (S k)) with (i0 + 1 + Z.of_nat k) by lia.
    apply (IH (i0 + 1) k seg err Hk Herr).
    intros k' s' Hlt Hs'. apply (Hbefore (S k') s'); [lia | exact Hs'].
Qed.

(** X9. [MergeVideos] checks the files before anything is run: when the
    file of a segment is empty, missing or unreadable, the error names
    the first such segment by its index, whatever the engine would have
    answered. *)
Theorem MergeVideos_reports_first_invalid (segments : list VideoSegment)
    (outputPath : string) (k : nat) (seg : VideoSegment) (err : string) :
  (2 <= length segments)%nat ->
  segments !! k = Some seg ->
  ValidateFile stat (seg_FilePath seg) = Some err ->
  (forall k' s, (k' < k)%nat -> segments !! k' = Some s ->
     ValidateFile stat (seg_FilePath s) = None) ->
  MergeVideos_build stat segments outputPath
    = BuildError ("segment " +:+ fmt_d (Z.of_nat k) +:+ ": " +:+ err)
  /\ MergeVideos stat engine segments outputPath
    = Some ("segment " +:+ fmt_d (Z.of_nat k) +:+ ": " +:+ err).
Proof.
  intros Hlen Hk Herr Hbefore.
  assert (Hb : MergeVideos_build stat segments outputPath
               = BuildError ("segment " +:+ fmt_d (Z.of_nat k) +:+ ": " +:+ err)).
  { unfold MergeVideos_build.
    destruct (Z.ltb_spec (Z.of_nat (length segments)) 2); [lia |].
    now rewrite (validate_segments_first segments 0 k seg err Hk Herr Hbefore). }
  split; [exact Hb |]. unfold MergeVideos. now rewrite Hb.
Qed.

(** X10. The stages of [CompleteProcess].  With two segments or more a
    failed merge ends the pipeline with its error, whatever the overlays
    and the music are; with overlays and music the pipeline succeeds
    exactly when the merge into [<out>.merged.mp4], the overlays from
    there into [<out>.overlay.mp4] and the music from there into the
    output all succeed.  With a single segment nothing is merged: its
    trim bounds play no role, and without overlays and music its file is
    copied to the output without being checked. *)
Theorem CompleteProcess_stages (req : CompleteProcessRequest) (outputPath : string) :
  let merged := outputPath +:+ ".merged.mp4" in
  let overlaid := outputPath +:+ ".overlay.mp4" in
  ((2 <= length (cr_Segments req))%nat ->
     (forall e, MergeVideos stat engine (cr_Segments req) merged = Some e ->
        CompleteProcess stat engine req outputPath = Some ("merge videos: " +:+ e))
     /\ (forall a, cr_Overlays req <> [] -> cr_Audio req = Some a ->
         (CompleteProcess stat engine req outputPath = None <->
          MergeVideos stat engine (cr_Segments req) merged = None
          /\ AddMultipleOverlays stat engine merged (cr_Overlays req) overlaid = None
          /\ AddBackgroundMusic stat engine overlaid a outputPath = None)))
  /\ (forall seg s e,
        cr_Segments req = [seg] ->
        CompleteProcess stat engine req outputPath =
          CompleteProcess stat engine
            {| cr_Segments := [with_times s e seg]; cr_Overlays := cr_Overlays req;
               cr_Audio := cr_Audio req |} outputPath)
  /\ (forall seg,
        cr_Segments req = [seg] -> cr_Overlays req = [] -> cr_Audio req = None ->
        CompleteProcess stat engine req outputPath =
          match Execute engine ["-y"; "-i"; seg_FilePath seg; "-c"; "copy"; outputPath] with
          | Some e => Some ("copy video: " +:+ e)
          | None => None
          end).
Proof.
  cbv zeta. split; [| split].
  - intros Hlen. split.
    + intros e He. unfold CompleteProcess.
      destruct (cr_Segments req) as [|s1 [|s2 rest]] eqn:Hs;
        [simpl in Hlen; lia | simpl in Hlen; lia |].
      now rewrite He.
    + intros a Hov Ha. unfold CompleteProcess.
      destruct (cr_Segments req) as [|s1 [|s2 rest]] eqn:Hs;
        [simpl in Hlen; lia | simpl in Hlen; lia |].
      rewrite Ha.
      destruct (cr_Overlays req) as [|o os] eqn:Ho; [contradiction |].
      cbn [length Nat.ltb Nat.leb].
      destruct (MergeVideos stat engine (s1 :: s2 :: rest) _);
        [split; [discriminate | intros [? _]; discriminate] |].
      destruct (AddMultipleOverlays stat engine _ _ _);
        [split; [discriminate | intros (_ & ? & _); discriminate] |].
      destruct (AddBackgroundMusic stat engine _ _ _);
        [split; [discriminate | intros (_ & _ & ?); discriminate] |].
      split; [now repeat split | reflexivity].
  - intros seg s e Hs. unfold CompleteProcess. rewrite Hs. reflexivity.
  - intros seg Hs Ho Ha. unfold CompleteProcess. rewrite Hs, Ho, Ha. reflexivity.
Qed.

Lemma overlay_filters_ext overlays : forall i filters,
  overlay_filters i (map without_motion overlays) filters
    = overlay_filters i overlays filters.
Proof.
  induction overlays as [|o rest IH]; intros i filters; [reflexivity |].
  cbn [map overlay_filters]. rewrite IH. do 3 f_equal.
  unfold buildOverlayFilterForIndex, without_motion.
  cbn [ov_Animation ov_FadeDuration ov_StartTime ov_EndTime].
  destruct (String.eqb (ov_Animation o) AnimationFade); reflexivity.
Qed.

Lemma overlay_chain_ext overlays : forall i n currentInput filters,
  overlay_chain i n (map without_motion overlays) currentInput filters
    = overlay_chain i n overlays currentInput filters.
Proof.
  induction overlays as [|o rest IH]; intros i n cur filters; [reflexivity |].
  cbn [map overlay_chain].
  change (calculatePosition (without_motion o)) with (calculatePosition o).
  destruct (calculatePosition o) as [x y].
  cbn [without_motion ov_StartTime ov_EndTime]. now rewrite IH.
Qed.

(** X11. With several overlays the slide and the zoom settings are never
    used: [buildMultipleOverlaysFilter], and so the argument list of
    [AddMultipleOverlays], is the same when every overlay has them
    removed and any animation other than a fade set to none. *)
Theorem multiple_overlays_ignore_motion (videoPath : string)
    (overlays : list ImageOverlay) (outputPath : string) :
  buildMultipleOverlaysFilter (map without_motion overlays)
    = buildMultipleOverlaysFilter overlays
  /\ AddMultipleOverlays_build stat videoPath (map without_motion overlays) outputPath
    = AddMultipleOverlays_build stat videoPath overlays outputPath.
Proof.
  assert (Hf : buildMultipleOverlaysFilter (map without_motion overlays)
               = buildMultipleOverlaysFilter overlays).
  { unfold buildMultipleOverlaysFilter.
    now rewrite length_map, overlay_filters_ext, overlay_chain_ext. }
  split; [exact Hf |].
  unfold AddMultipleOverlays_build. rewrite Hf, length_map.
  assert (Hv : forall i, validate_overlays stat i (map without_motion overlays)
                         = validate_overlays stat i overlays).
  { clear. induction overlays as [|o rest IH]; intros i; [reflexivity |].
    cbn [map validate_overlays without_motion ov_FilePath].
    destruct (ValidateFile stat (ov_FilePath o)); [reflexivity | apply IH]. }
  assert (Ha : forall args, add_overlay_inputs args (map without_motion overlays)
                            = add_overlay_inputs args overlays).
  { clear. induction overlays as [|o rest IH]; intros args; [reflexivity |].
    cbn [map add_overlay_inputs without_motion ov_FilePath]. apply IH. }
  now rewrite Hv, Ha.
Qed.

(** X12. A fade of the music track that is absent or whose duration is
    not positive leaves no trace: both text builders and the graph
    builder give what they give without it.  The mixing and the
    replacing builder apply the same filters to the track, and differ
    only in the label and the mix that follow, unless an end without a
    start is given. *)
Theorem audio_fades_and_mix (audio : AudioConfig) (fadeIn fadeOut : option float)
    (base : ffmpeg_go.Stream) :
  no_fade fadeIn -> no_fade fadeOut ->
  buildAudioFilter (with_fades fadeIn fadeOut audio)
    = buildAudioFilter (with_fades None None audio)
  /\ audio.buildAudioFilterNoMix (with_fades fadeIn fadeOut audio)
    = audio.buildAudioFilterNoMix (with_fades None None audio)
  /\ ffmpeg_go.applyAudioFilters base (with_fades fadeIn fadeOut audio)
    = ffmpeg_go.applyAudioFilters base (with_fades None None audio)
  /\ ((au_StartTime audio <> None \/ au_EndTime audio = None) ->
      exists chain,
        audio.buildAudioFilterNoMix audio = chain +:+ "[aout]"
        /\ buildAudioFilter audio =
             chain +:+ "[music];[0:a][music]amix=inputs=2:duration=first:dropout_transition=2[aout]").
Proof.
  intros Hin Hout.
  assert (Hi : match fadeIn with Some d => (0 <? d)%float = false | None => True end)
    by (destruct fadeIn; [now apply Hin | exact I]).
  assert (Ho : match fadeOut with Some d => (0 <? d)%float = false | None => True end)
    by (destruct fadeOut; [now apply Hout | exact I]).
  split; [| split; [| split]].
  - unfold buildAudioFilter, with_fades.
    cbn [au_StartTime au_EndTime au_FadeIn au_FadeOut au_Volume].
    destruct fadeIn, fadeOut; rewrite ?Hi, ?Ho; reflexivity.
  - unfold audio.buildAudioFilterNoMix, with_fades.
    cbn [au_StartTime au_EndTime au_FadeIn au_FadeOut au_Volume].
    destruct fadeIn, fadeOut; rewrite ?Hi, ?Ho; reflexivity.
  - unfold ffmpeg_go.applyAudioFilters, with_fades.
    cbn [au_StartTime au_EndTime au_FadeIn au_FadeOut au_Volume].
    destruct fadeIn, fadeOut; rewrite ?Hi, ?Ho; reflexivity.
  - intros Hse. unfold audio.buildAudioFilterNoMix, buildAudioFilter.
    destruct (au_StartTime audio) as [s|], (au_EndTime audio) as [e|];
      try (destruct Hse as [Hse|Hse]; congruence);
      cbn [is_set orb app Join];
      destruct (au_FadeIn audio) as [fi|]; try destruct (0 <? fi)%float;
      destruct (au_FadeOut audio) as [fo|]; try destruct (0 <? fo)%float;
      try match goal with
          | |- context [(0 <? ?x)%float] =>
              lazymatch x with
              | context [(_ - _)%float] => destruct (0 <? x)%float
              end
          end;
      try change (0 <? 0)%float with false; cbv iota zeta;
      match goal with
      | |- exists chain, ?S +:+ ("volume=" +:+ ?V +:+ "[aout]") = _ /\ _ =>
          exists (S +:+ "volume=" +:+ V)
      end;
      split; str_norm; reflexivity.
Qed.

End BuilderFacts.

Lemma MergeVideos_reports_first_invalid_witness :
  ffmpeg.MergeVideos stat_ok engine_ok (mr_Segments no_file_request) "out.mp4"
    = Some "segment 0: file path is empty".
Proof.
  assert (Hlen : (2 <= length (mr_Segments no_file_request))%nat) by (simpl; lia).
  assert (Hbefore : forall k' s, (k' < 0)%nat -> mr_Segments no_file_request !! k' = Some s ->
            ffmpeg.ValidateFile stat_ok (seg_FilePath s) = None) by (intros; lia).
  exact (proj2 (MergeVideos_reports_first_invalid stat_ok engine_ok
                  (mr_Segments no_file_request) "out.mp4" 0
                  {| seg_FilePath := ""; seg_StartTime := 0; seg_EndTime := 0 |}
                  "file path is empty" Hlen eq_refl eq_refl Hbefore)).
Defined.

Lemma audio_fades_and_mix_witness :
  ffmpeg.buildAudioFilter (BuilderSpec.with_fades None (Some 0%float) audio_0_30)
    = ffmpeg.buildAudioFilter (BuilderSpec.with_fades None None audio_0_30).
Proof.
  assert (H1 : BuilderSpec.no_fade None) by (intros d [=]).
  assert (H2 : BuilderSpec.no_fade (Some 0%float)) by (intros d [= <-]; reflexivity).
  exact (proj1 (audio_fades_and_mix audio_0_30 None (Some 0%float)
                  (ffmpeg_go.Input "music.mp3") H1 H2)).
Defined.

(** ** The retention sweep over the directories *)

Module PathSpec.

(** An element without a separator. *)
Definition no_sep (e : string) : Prop :=
  forall c, In c (list_ascii_of_string e) -> is_sep c = false.

(** An element [Clean] keeps. *)
Definition kept (e : string) : Prop := no_sep e /\ e <> "" /\ e <> ".".

(** The buffer of [Clean], last element first: only kept elements, and
    [..] only above other [..], and only in a path that is not rooted. *)
Fixpoint cleaned (rooted : bool) (out : list string) : Prop :=
  match out with
  | [] => True
  | top :: below =>
      kept top /\ cleaned rooted below
      /\ (top = ".." -> rooted = false /\ (below = [] \/ exists b, below = ".." :: b))
  end.

End PathSpec.

Section PathProofs.
Import PathSpec.

Lemma split_sep_nonnil s : split_sep s <> [].
Proof.
  destruct s as [|c s]; simpl; [discriminate |].
  destruct (is_sep c); [discriminate |]. destruct (split_sep s); discriminate.
Qed.

Lemma split_sep_no_sep s : Forall no_sep (split_sep s).
Proof.
  induction s as [|c s IH]; simpl.
  - constructor; [| constructor]. intros c [].
  - destruct (is_sep c) eqn:Hc.
    + constructor; [intros c' [] | exact IH].
    + destruct (split_sep s) as [|x xs]; inversion IH; subst.
      * constructor; [| constructor]. intros c' [<-|[]]. exact Hc.
      * constructor; [| assumption]. intros c' [<-|Hin]; [exact Hc | auto].
Qed.

Lemma clean_step_cleaned rooted out e :
  no_sep e -> cleaned rooted out -> cleaned rooted (clean_step rooted out e).
Proof.
  intros He Hout. unfold clean_step.
  destruct (String.eqb_spec e "") as [->|Hne]; [exact Hout |].
  destruct (String.eqb_spec e ".") as [->|Hnd]; [exact Hout |].
  cbn [orb].
  assert (Hk : kept e) by (repeat split; assumption).
  destruct (String.eqb_spec e "..") as [->|Hndd].
  - destruct out as [|top below].
    + destruct rooted; [exact I |]. cbn [cleaned].
      split; [exact Hk | split; [exact I |]]. intros _. split; [reflexivity | now left].
    + destruct (String.eqb_spec top "..") as [->|Htop].
      * cbn [cleaned] in Hout. destruct Hout as (Hk' & Hb & Hd).
        destruct (Hd eq_refl) as [Hr _].
        cbn [cleaned]. split; [exact Hk |]. split; [cbn [cleaned]; tauto |].
        intros _. split; [exact Hr | right; now exists below].
      * cbn [cleaned] in Hout. tauto.
  - cbn [cleaned]. split; [exact Hk | split; [exact Hout |]]. intros ->. contradiction.
Qed.

Lemma fold_clean_step_cleaned rooted elems : forall out,
  Forall no_sep elems -> cleaned rooted out ->
  cleaned rooted (fold_left (clean_step rooted) elems out).
Proof.
  induction elems as [|e rest IH]; intros out He Hout; [exact Hout |].
  inversion He; subst. simpl. apply IH; [assumption |].
  now apply clean_step_cleaned.
Qed.

Lemma cleaned_app rooted a b : cleaned rooted (a ++ b) -> cleaned rooted b.
Proof. induction a as [|x a IH]; [auto |]. simpl. intros (_ & H & _). auto. Qed.

Lemma clean_step_kept rooted out e :
  cleaned rooted (e :: out) -> clean_step rooted out e = e :: out.
Proof.
  simpl. intros ((_ & Hne & Hnd) & _ & Hdd). unfold clean_step.
  destruct (String.eqb_spec e "") as [?|_]; [contradiction |].
  destruct (String.eqb_spec e ".") as [?|_]; [contradiction |].
  cbn [orb].
  destruct (String.eqb_spec e "..") as [->|_]; [| reflexivity].
  destruct (Hdd eq_refl) as [-> [->|[b ->]]]; reflexivity.
Qed.

(** A cleaned buffer is what [Clean] builds again from its elements. *)
Lemma fold_clean_step_again rooted l : forall acc,
  cleaned rooted (rev l ++ acc) ->
  fold_left (clean_step rooted) l acc = rev l ++ acc.
Proof.
  induction l as [|e l IH]; intros acc H; [reflexivity |].
  simpl in *. rewrite <- app_assoc in H. simpl in H.
  rewrite (clean_step_kept rooted acc e) by (eapply cleaned_app; exact H).
  rewrite IH by exact H. now rewrite <- app_assoc.
Qed.

Lemma split_sep_single e : no_sep e -> split_sep e = [e].
Proof.
  induction e as [|c e IH]; intros He; [reflexivity |]. simpl.
  rewrite (He c) by now left.
  rewrite IH; [reflexivity |]. intros c' Hin. apply He. now right.
Qed.

Lemma split_sep_app e t :
  no_sep e -> split_sep (e +:+ String "/" t) = e :: split_sep t.
Proof.
  induction e as [|c e IH]; intros He; [reflexivity |]. simpl.
  rewrite (He c) by now left.
  rewrite IH; [reflexivity |]. intros c' Hin. apply He. now right.
Qed.

Lemma split_sep_Join l :
  l <> [] -> Forall no_sep l -> split_sep (Join l "/") = l.
Proof.
  induction l as [|e [|e' rest] IH]; intros Hne Hl; [contradiction | |].
  - inversion Hl; subst. now apply split_sep_single.
  - inversion Hl; subst.
    change (Join (e :: e' :: rest) "/") with (e +:+ String "/" (Join (e' :: rest) "/")).
    rewrite split_sep_app by assumption. f_equal. apply IH; [discriminate | assumption].
Qed.

Lemma cleaned_Forall rooted out : cleaned rooted out -> Forall kept out.
Proof.
  induction out as [|x out IH]; [constructor |]. simpl. intros (Hk & Hb & _).
  constructor; auto.
Qed.

Lemma Join_head_not_sep l :
  l <> [] -> Forall kept l -> HasPrefix (Join l "/") "/" = false.
Proof.
  intros Hne Hl. destruct l as [|e rest]; [contradiction |].
  inversion Hl as [|? ? (Hs & Hn & _) _]; subst.
  destruct e as [|c e]; [contradiction |].
  assert (Hc : is_sep c = false) by (apply Hs; now left).
  unfold HasPrefix. destruct rest; cbn [Join String.append String.prefix];
    unfold is_sep in Hc;
    destruct (ascii_dec "/" c) as [<-|Hne']; try reflexivity;
    try (rewrite Ascii.eqb_refl in Hc; discriminate).
Qed.

Lemma Join_nil_iff l : Forall kept l -> Join l "/" = "" -> l = [].
Proof.
  intros Hl. destruct l as [|e rest]; [reflexivity |].
  inversion Hl as [|? ? (_ & Hn & _) _]; subst.
  destruct e as [|c e]; [contradiction |]. destruct rest; discriminate.
Qed.

Lemma HasPrefix_slash s : HasPrefix (String "/" s) "/" = true.
Proof.
  unfold HasPrefix. cbn [String.prefix].
  destruct (ascii_dec "/" "/") as [_|Hne]; [now destruct s | congruence].
Qed.

(** [Clean] returns a path that is clean. *)
Lemma Clean_idempotent path : Clean (Clean path) = Clean path.
Proof.
  unfold Clean at 2 3. destruct (String.eqb_spec path "") as [->|Hne]; [reflexivity |].
  set (rooted := HasPrefix path "/").
  set (out := fold_left (clean_step rooted) (split_sep path) []).
  assert (Hout : cleaned rooted out)
    by (apply fold_clean_step_cleaned; [apply split_sep_no_sep | exact I]).
  assert (Hk : Forall kept (rev out))
    by (apply Forall_rev; eapply cleaned_Forall; exact Hout).
  assert (Hs : Forall no_sep (rev out))
    by (eapply Forall_impl; [exact Hk | intros e He; apply He]).
  assert (Hagain : forall r, r = rooted ->
            fold_left (clean_step r) (rev out) [] = out).
  { intros r ->. rewrite fold_clean_step_again; rewrite rev_involutive, app_nil_r;
      [reflexivity | exact Hout]. }
  cbv zeta. destruct rooted eqn:Hr.
  - unfold Clean. cbn [String.append String.eqb].
    rewrite HasPrefix_slash.
    cbn [split_sep]. change (is_sep "/") with true. cbv iota.
    destruct (rev out) as [|e l] eqn:Hrev.
    + reflexivity.
    + rewrite split_sep_Join by (try discriminate; exact Hs).
      change (fold_left (clean_step true) ("" :: e :: l) [])
        with (fold_left (clean_step true) (e :: l) []).
      rewrite (Hagain true eq_refl). now rewrite Hrev.
  - destruct (String.eqb_spec (Join (rev out) "/") "") as [E|Hbody]; [reflexivity |].
    assert (Hnil : rev out <> []) by (intros E; rewrite E in Hbody; now apply Hbody).
    unfold Clean. destruct (String.eqb_spec (Join (rev out) "/") "") as [?|_];
      [contradiction |].
    rewrite (Join_head_not_sep (rev out) Hnil Hk).
    rewrite split_sep_Join by assumption.
    rewrite (Hagain false eq_refl).
    destruct (String.eqb_spec (Join (rev out) "/") "") as [?|_];
      [contradiction | reflexivity].
Qed.

Lemma PathJoin_clean elems : PathJoin elems <> "" -> Clean (PathJoin elems) = PathJoin elems.
Proof.
  unfold PathJoin. destruct (filter _ elems); [contradiction |].
  intros _. apply Clean_idempotent.
Qed.

End PathProofs.

Module SweepSpec.

(** What a sweep may do to the files: a file that is there afterwards
    was there before, unchanged; a file that is gone was a regular file
    older than the cutoff. *)
Definition only_expired_removed (cutoffTime : Time) (before after : FS) : Prop :=
  (forall q f, after !! q = Some f -> before !! q = Some f)
  /\ (forall q f, before !! q = Some f -> after !! q = None ->
        f_isDir f = false /\ Before (f_modTime f) cutoffTime = true).

End SweepSpec.

Section SweepProofs.
Import SweepSpec.

Lemma Base_nonempty path : Base path <> "".
Proof.
  unfold Base. destruct (String.eqb path ""); [discriminate |].
  destruct (rev _) as [|b l] eqn:E; [discriminate |].
  assert (Hin : In b (rev (filter (fun e => negb (String.eqb e "")) (split_sep path))))
    by (rewrite E; now left).
  apply in_rev, list_elem_of_In, list_elem_of_filter in Hin as [Hb _].
  intros ->. exact Hb.
Qed.

Lemma insert_entry_Forall (P : DirEntry -> Prop) e l :
  P e -> Forall P l -> Forall P (insert_entry e l).
Proof.
  intros He. induction 1 as [|x l Hx Hl IH]; simpl; [now repeat constructor |].
  destruct (String.leb (Name e) (Name x)); repeat constructor; assumption.
Qed.

Lemma ReadDir_names fs dir entries :
  ReadDir fs dir = inr entries -> Forall (fun e => Name e <> "") entries.
Proof.
  unfold ReadDir. destruct (fs !! Clean dir) as [f|]; [| discriminate].
  destruct (f_isDir f); [| discriminate]. intros [= <-].
  induction (map_to_list fs) as [|[p g] l IH]; [constructor |].
  cbn [omap list_omap].
  destruct (negb (String.eqb p (Clean dir)) && String.eqb (Dir p) (Clean dir));
    [| exact IH].
  cbn [foldr]. apply insert_entry_Forall; [apply Base_nonempty | exact IH].
Qed.

Lemma only_expired_removed_refl cutoffTime fs0 : only_expired_removed cutoffTime fs0 fs0.
Proof. split; [auto | intros q f H1 H2; congruence]. Qed.

Lemma PathJoin_name_nonempty dir name : name <> "" -> PathJoin [dir; name] <> "".
Proof. apply PathJoin_nonempty. Qed.

Lemma clean_entries_spec dir cutoffTime entries :
  Forall (fun e => Name e <> "") entries ->
  forall filesDeleted w,
    let r := cleanup.clean_entries dir cutoffTime entries filesDeleted w in
    only_expired_removed cutoffTime (fs w) (fs (snd r))
    /\ Z.of_nat (size (fs w)) + filesDeleted = Z.of_nat (size (fs (snd r))) + fst r
    /\ heap (snd r) = heap w /\ store (snd r) = store w /\ log (snd r) = log w.
Proof.
  induction 1 as [|entry rest Hname Hrest IH]; intros n w; cbv zeta.
  - cbn [cleanup.clean_entries fst snd].
    split; [apply only_expired_removed_refl | now repeat split].
  - cbn [cleanup.clean_entries].
    destruct (IsDir entry); [apply IH |].
    unfold cleanup.Info.
    destruct (fs w !! PathJoin [dir; Name entry]) as [info|] eqn:Hinfo; [| apply IH].
    destruct (Before (f_modTime info) cutoffTime) eqn:Hold; [| apply IH].
    unfold Remove. rewrite (PathJoin_clean _ (PathJoin_name_nonempty dir _ Hname)).
    rewrite Hinfo. destruct (f_isDir info) eqn:Hdir; [apply IH |].
    specialize (IH (n + 1) (set_fs (delete (PathJoin [dir; Name entry]) (fs w)) w)).
    cbv zeta in IH. cbn [fs set_fs heap store log] in IH.
    destruct IH as ((Hkeep & Hgone) & Hsize & Hh & Hs & Hl).
    split; [split |].
    + intros q f Hq. apply Hkeep in Hq. now apply lookup_delete_Some in Hq.
    + intros q f Hq Hnone.
      destruct (decide (q = PathJoin [dir; Name entry])) as [->|Hne].
      * rewrite Hinfo in Hq. injection Hq as <-. now split.
      * apply (Hgone q f); [| exact Hnone]. now rewrite lookup_delete_ne by congruence.
    + split; [| now repeat split].
      rewrite <- Hsize.
      pose proof (map_size_delete_Some (PathJoin [dir; Name entry]) (fs w)
                    (mk_is_Some _ _ Hinfo)) as Hsz.
      assert (0 < size (fs w))%nat.
      { destruct (decide (size (fs w) = 0%nat)) as [E|]; [| lia].
        apply map_size_empty_inv in E. rewrite E in Hinfo.
        now rewrite lookup_empty in Hinfo. }
      lia.
Qed.

(** X13. [cleanDirectory] removes only regular files whose modification
    time precedes the cutoff: every other file, and every directory,
    is still there afterwards, unchanged, and nothing is created.  The
    number it returns is the number of files removed, and the jobs and
    the store are not touched. *)
Theorem cleanDirectory_removes_only_expired (dir : string) (cutoffTime : Time)
    (w : World) :
  let r := cleanup.cleanDirectory dir cutoffTime w in
  only_expired_removed cutoffTime (fs w) (fs (snd r))
  /\ Z.of_nat (size (fs w)) = Z.of_nat (size (fs (snd r))) + fst r
  /\ heap (snd r) = heap w /\ store (snd r) = store w /\ log (snd r) = log w.
Proof.
  cbv zeta. unfold cleanup.cleanDirectory.
  destruct (ReadDir (fs w) dir) as [err|entries] eqn:Hread.
  - cbn [fst snd]. split; [apply only_expired_removed_refl |].
    split; [lia | now repeat split].
  - pose proof (clean_entries_spec dir cutoffTime entries
                  (ReadDir_names _ _ _ Hread) 0 w) as H.
    cbv zeta in H. rewrite Z.add_0_r in H. exact H.
Qed.

End SweepProofs.

(** ** More on the gate, the keys and the records *)

Section GateMore.
Import gate GateSpec.

(** X14. In every state the calls reach, a call waiting at
    [e.sem.Acquire] is granted its units exactly when they fit under the
    capacity, and then holds them; the count of the semaphore goes up in
    no other step; the calls in flight can all run to their return with
    no new call, and then every one has released what it acquired and
    the semaphore is back at zero; and whenever no call holds a unit the
    count is zero: no slot is lost. *)
Theorem gate_admits_and_drains (stat : string -> ffmpeg.StatResult) (K : Z) (g : State) :
  0 <= K ->
  reachable stat K g ->
  (forall i t n k,
      threads g !! i = Some t -> point t = At (Acquire n k) ->
      (cur (sem g) + n <= K ->
         exists g' t',
           exec stat (Move i Granted) g = Some g'
           /\ reachable stat K g'
           /\ cur (sem g') = cur (sem g) + n
           /\ threads g' !! i = Some t'
           /\ point t' = At (k None) /\ holds t' = holds t + n)
      /\ (K < cur (sem g) + n -> exec stat (Move i Granted) g = None))
  /\ (forall i a g',
        exec stat (Move i a) g = Some g' -> cur (sem g) < cur (sem g') ->
        a = Granted /\ cur (sem g') <= K)
  /\ (exists ls g',
        run stat ls g = Some g' /\ forallb is_move ls = true
        /\ length (threads g') = length (threads g)
        /\ Forall is_done (threads g')
        /\ cur (sem g') = 0)
  /\ (Forall (fun t => holds t = 0) (threads g) -> cur (sem g) = 0).
Proof.
  intros HK Hreach.
  pose proof (gate_inv_reachable stat K g HK Hreach) as Hinv.
  split; [| split; [| split]].
  - intros i t n k Ht Hpt. destruct Hinv as (Hsize & _). split.
    + intros Hfit.
      set (s' := {| size := size (sem g); cur := cur (sem g) + n |}).
      set (t' := {| point := At (k None); defers := defers t;
                    acquired := acquired t + n; released := released t |}).
      assert (Hs : thread_step Granted (sem g) t = Some (s', t')).
      { unfold thread_step. rewrite Hpt.
        destruct (Z.leb_spec (cur (sem g) + n) (size (sem g))); [reflexivity | lia]. }
      pose proof (move_exec stat i Granted g t s' t' Ht Hs) as Hexec.
      eexists _, t'. split; [exact Hexec |].
      split; [eapply reach_step; [exact Hreach | now exists (Move i Granted)] |].
      split; [reflexivity |].
      split; [cbn [threads]; apply list_lookup_insert_eq; eapply lookup_lt_Some; eauto |].
      split; [reflexivity | unfold holds, t'; cbn [acquired released]; lia].
    + intros Hfull. unfold exec. rewrite Ht. cbn [mbind option_bind].
      unfold thread_step. rewrite Hpt.
      destruct (Z.leb_spec (cur (sem g) + n) (size (sem g))); [lia | reflexivity].
  - intros i a g' Hexec Hup.
    destruct (exec_move stat i a g g' Hexec) as (t & s' & t' & Ht & Hs & ->).
    cbn [sem] in *.
    assert (Hok : thread_ok t).
    { destruct Hinv as (_ & _ & _ & Hall). rewrite Forall_lookup in Hall. eauto. }
    split; [exact (thread_step_takes a _ t s' t' Hok Hs Hup) |].
    destruct (thread_step_ok a _ t s' t' Hok Hs) as (_ & _ & _ & [Hb | Hb]);
      destruct Hinv as (Hsize & _); lia.
  - exact (drains stat K g Hinv).
  - intros Hnone. destruct Hinv as (_ & Hcur & _). rewrite Hcur. unfold held.
    now apply total_zero.
Qed.

(** Capacity 2: one call of [Execute] in its process, one waiting. *)
Definition waiting_schedule : list Label :=
  [NewCall (CallExecute ["-y"; "-i"; "a.mp4"; "a.out.mp4"]);
   Move 0 Granted; Move 0 Advance; Move 0 Advance; Move 0 Advance;
   NewCall (CallExecute ["-y"; "-i"; "b.mp4"; "b.out.mp4"])].

Definition gate_waiting : State :=
  default (NewExecutor 2) (run all_present waiting_schedule (NewExecutor 2)).

Lemma gate_waiting_reachable : reachable all_present 2 gate_waiting.
Proof.
  apply (run_reachable all_present 2 waiting_schedule (NewExecutor 2)).
  - apply reach_init.
  - vm_compute. reflexivity.
Qed.

Lemma gate_admits_and_drains_witness :
  0 <= 2 /\ reachable all_present 2 gate_waiting
  /\ cur (sem gate_waiting) = 1
  /\ (exists g', exec all_present (Move 1 Granted) gate_waiting = Some g'
        /\ cur (sem g') = 2)
  /\ (exists ls g', run all_present ls gate_waiting = Some g'
        /\ length (threads g') = 2%nat /\ Forall is_done (threads g')
        /\ cur (sem g') = 0).
Proof.
  assert (H2 : 0 <= 2) by lia.
  split; [exact H2 | split; [exact gate_waiting_reachable |]].
  split; [reflexivity |].
  destruct (gate_admits_and_drains all_present 2 gate_waiting H2 gate_waiting_reachable)
    as (Hadmit & _ & Hdrain & _).
  split.
  - destruct (Hadmit 1%nat (start (Execute ["-y"; "-i"; "b.mp4"; "b.out.mp4"])) 1
                (fun err =>
                   match err with
                   | Some ctxErr => Return (ffmpeg.Execute_error (ffmpeg.NoSlot ctxErr))
                   | None =>
                       Defer (Release 1)
                         (Defer Cancel
                            (Run (CmdRun ["-y"; "-i"; "b.mp4"; "b.out.mp4"])
                               (fun err stderr =>
                                  Return (ffmpeg.Execute_error (ffmpeg.Exited err stderr)))))
                   end)
                eq_refl eq_refl) as [Hgrant _].
    destruct (Hgrant ltac:(vm_compute; discriminate)) as (g' & t' & Hexec & _ & Hcur & _).
    exists g'. split; [exact Hexec | exact Hcur].
  - destruct Hdrain as (ls & g' & Hrun & _ & Hlen & Hdone & Hcur).
    exists ls, g'. split; [exact Hrun |]. split; [exact Hlen |]. split; assumption.
Defined.

End GateMore.

Section KeyFacts.

Lemma append_length_neq (a b : string) : a <> "" -> a +:+ b <> b.
Proof.
  intros Ha E. apply (f_equal String.length) in E. rewrite append_length in E.
  destruct a; [contradiction | simpl in E; lia].
Qed.

(** X15. The HTTP middleware lets a request through exactly when the
    header [X-API-Key] is not empty and equals the configured key; every
    other request is answered 401.  So a server configured with an empty
    key accepts no request, and a key sent behind [Bearer ] is refused
    here, although the MCP validator accepts it. *)
Theorem AuthMiddleware_passes_iff (v : auth.Validator) (key : string)
    (next : api.Response) :
  let refused :=
    {| api.status_code := 401;
       api.body := api.ErrorResponse "Unauthorized" "Missing or invalid X-API-Key header" |} in
  (auth.ValidateAPIKey v key = None <-> key <> "" /\ key = auth.apiKey v)
  /\ (key <> "" /\ key = auth.apiKey v -> middleware.AuthMiddleware v key next = next)
  /\ (~ (key <> "" /\ key = auth.apiKey v) ->
      middleware.AuthMiddleware v key next = refused)
  /\ (auth.apiKey v = "" -> middleware.AuthMiddleware v key next = refused)
  /\ (auth.apiKey v <> "" ->
      middleware.AuthMiddleware v ("Bearer " +:+ auth.apiKey v) next = refused
      /\ auth.ValidateToken v ("Bearer " +:+ auth.apiKey v) = None).
Proof.
  cbv zeta.
  assert (Hiff : auth.ValidateAPIKey v key = None <-> key <> "" /\ key = auth.apiKey v).
  { unfold auth.ValidateAPIKey.
    destruct (String.eqb_spec key "") as [->|Hne]; [split; [discriminate | tauto] |].
    destruct (String.eqb_spec key (auth.apiKey v)) as [->|Hk]; simpl;
      [tauto | split; [discriminate | tauto]]. }
  assert (Hno : forall k, ~ (k <> "" /\ k = auth.apiKey v) ->
            middleware.AuthMiddleware v k next =
              {| api.status_code := 401;
                 api.body := api.ErrorResponse "Unauthorized"
                               "Missing or invalid X-API-Key header" |}).
  { intros k Hk. unfold middleware.AuthMiddleware, auth.ValidateAPIKey.
    destruct (String.eqb_spec k "") as [->|Hne]; [reflexivity |].
    destruct (String.eqb_spec k (auth.apiKey v)) as [->|Hk']; [tauto | reflexivity]. }
  split; [exact Hiff |].
  split; [intros H; unfold middleware.AuthMiddleware; now rewrite (proj2 Hiff H) |].
  split; [apply Hno |].
  split; [intros Hempty; apply Hno; intros [H1 H2]; congruence |].
  intros Hkey. split.
  - apply Hno. intros [_ E]. exact (append_length_neq "Bearer " _ ltac:(discriminate) E).
  - unfold auth.ValidateToken. cbn [String.append String.eqb Ascii.eqb].
    change (String.eqb ("Bearer " +:+ auth.apiKey v) "") with false.
    destruct (auth.apiKey v) as [|c k] eqn:Ek; [contradiction |].
    cbn [String.append take_str drop_str]. unfold len. cbn [String.length].
    match goal with
    | |- context [7 <? ?n] => destruct (Z.ltb_spec 7 n) as [_|Hle]; [| lia]
    end.
    change (String.eqb "Bearer " "Bearer ") with true. cbn [andb].
    now rewrite String.eqb_refl.
Qed.

End KeyFacts.

Section QuoteFacts.
Import executor.

Lemma squote_special : is_special squote = true.
Proof. reflexivity. Qed.

Lemma replace_squote_inj (a : string) : forall b,
  replace_squote a +:+ String squote EmptyString
    = replace_squote b +:+ String squote EmptyString ->
  a = b.
Proof.
  induction a as [|c a IH]; intros [|d b] H; cbn [replace_squote] in H.
  - reflexivity.
  - exfalso. destruct (Ascii.eqb_spec d squote) as [->|Hd];
      cbn [String.append] in H; [discriminate | congruence].
  - exfalso. destruct (Ascii.eqb_spec c squote) as [->|Hc];
      cbn [String.append] in H; [discriminate | congruence].
  - destruct (Ascii.eqb_spec c squote) as [->|Hc],
             (Ascii.eqb_spec d squote) as [->|Hd]; cbn [String.append] in H.
    + f_equal. apply IH. congruence.
    + congruence.
    + congruence.
    + injection H as -> H. f_equal. now apply IH.
Qed.

Lemma replace_squote_length (a : string) :
  (String.length a <= String.length (replace_squote a))%nat.
Proof.
  induction a as [|c a IH]; [simpl; lia |]. cbn [replace_squote].
  destruct (Ascii.eqb c squote); cbn [String.length]; lia.
Qed.

(** X16. [QuoteArg] leaves an argument alone exactly when it holds no
    blank, quote or new line, and it never gives two different
    arguments the same text. *)
Theorem QuoteArg_injective (a b : string) :
  (QuoteArg a = a <-> ContainsAny a = false)
  /\ (QuoteArg a = QuoteArg b -> a = b).
Proof.
  split.
  - unfold QuoteArg. destruct (ContainsAny a) eqn:Ha; [| tauto].
    split; [| discriminate]. intros E.
    apply (f_equal String.length) in E. cbn [String.length] in E.
    rewrite append_length in E. cbn [String.length] in E.
    pose proof (replace_squote_length a). lia.
  - unfold QuoteArg.
    destruct (ContainsAny a) eqn:Ha, (ContainsAny b) eqn:Hb; intros E.
    + injection E as E. now apply replace_squote_inj.
    + subst b. cbn [ContainsAny] in Hb. rewrite squote_special in Hb. discriminate.
    + subst a. cbn [ContainsAny] in Ha. rewrite squote_special in Ha. discriminate.
    + exact E.
Qed.

End QuoteFacts.

Section ReloadFacts.
Import JobTrace RecordFacts.

Lemma SaveJob_LoadJob_heap (jobsDir : string) (p : nat) (w w1 : World) (j : Job) :
  heap w !! p = Some j ->
  int_range (job_Progress j) = true ->
  SaveJob jobsDir p w = (None, w1) ->
  exists w2 now,
    LoadJob jobsDir (job_ID j) w1 = (inr (length (heap w)), w2)
    /\ heap w2 = heap w ++ [job_of_data now (reloaded (record_of j))].
Proof.
  intros Hheap Hrange Hsave. unfold SaveJob in Hsave. rewrite Hheap in Hsave.
  cbv zeta in Hsave. unfold Now in Hsave.
  cbn [GetStatus sr_JobID sr_Status sr_Progress sr_OutputPath sr_Error sr_CreatedAt
       sr_UpdatedAt] in Hsave.
  fold (record_of j) in Hsave.
  unfold WriteFile in Hsave. cbn [fs] in Hsave. cbv zeta in Hsave.
  set (path := Clean (PathJoin [jobsDir; job_ID j +:+ ".json"])) in *.
  destruct (is_dir (fs w) path); [discriminate |].
  destruct (is_dir (fs w) (Dir path)); [| discriminate].
  injection Hsave as <-.
  unfold LoadJob. cbv zeta. unfold ReadFile. cbn [fs add_log set_fs]. fold path.
  rewrite lookup_insert_eq. cbn [f_isDir f_data].
  rewrite Unmarshal_Marshal_jobData by exact Hrange.
  unfold Now, alloc. cbn [clock ticks heap store fs log add_log set_fs].
  eexists _, (clock w (Datatypes.S (ticks w))). split; reflexivity.
Qed.

(** X17. What a reload brings back.  A job saved without an error is
    loaded as a new job object that has the identifier, the status, the
    output path and the error of the original, each coerced to valid
    UTF-8, and its progress; the upload URL and the webhook settings are
    not in the record, so the loaded job has none.  The original job is
    not touched. *)
Theorem LoadJob_restores_record_fields (jobsDir : string) (p : nat) (w w1 : World)
    (j : Job) :
  heap w !! p = Some j ->
  int_range (job_Progress j) = true ->
  SaveJob jobsDir p w = (None, w1) ->
  exists q w2 j',
    LoadJob jobsDir (job_ID j) w1 = (inr q, w2)
    /\ heap w2 !! q = Some j'
    /\ q <> p /\ heap w2 !! p = Some j
    /\ job_ID j' = ToValidUTF8 (job_ID j)
    /\ job_Status j' = ToValidUTF8 (job_Status j)
    /\ job_Progress j' = job_Progress j
    /\ job_OutputPath j' = ToValidUTF8 (job_OutputPath j)
    /\ job_Error j' = ToValidUTF8 (job_Error j)
    /\ job_S3URL j' = "" /\ job_WebhookURL j' = "" /\ job_WebhookHeader j' = None.
Proof.
  intros Hheap Hrange Hsave.
  destruct (SaveJob_LoadJob_heap jobsDir p w w1 j Hheap Hrange Hsave)
    as (w2 & now & Hload & Hw2).
  exists (length (heap w)), w2, (job_of_data now (reloaded (record_of j))).
  pose proof (lookup_lt_Some _ _ _ Hheap) as Hlt.
  split; [exact Hload |].
  split; [rewrite Hw2, lookup_app_r by lia; now rewrite Nat.sub_diag |].
  split; [lia |].
  split; [rewrite Hw2; now apply lookup_app_l_Some |].
  cbn [job_of_data reloaded record_of NewJob job_ID job_Status job_Progress
       job_OutputPath job_Error job_S3URL job_WebhookURL job_WebhookHeader
       jd_ID jd_Status jd_Progress jd_OutputPath jd_Error].
  repeat (split; [reflexivity |]). reflexivity.
Qed.

End ReloadFacts.

Lemma LoadJob_restores_record_fields_witness :
  exists q w2 j',
    LoadJob "./jobs" "job-1" (snd (SaveJob "./jobs" 0 done_world)) = (inr q, w2)
    /\ heap w2 !! q = Some j'
    /\ job_S3URL j' = "".
Proof.
  assert (Hsave : SaveJob "./jobs" 0 done_world
                  = (None, snd (SaveJob "./jobs" 0 done_world))).
  { rewrite (surjective_pairing (SaveJob "./jobs" 0 done_world)) at 1.
    f_equal; vm_compute; reflexivity. }
  destruct (LoadJob_restores_record_fields "./jobs" 0 done_world _ done_job
              eq_refl eq_refl Hsave)
    as (q & w2 & j' & H1 & H2 & _ & _ & _ & _ & _ & _ & _ & H3 & _).
  exists q, w2, j'. split; [exact H1 | split; [exact H2 | exact H3]].
Defined.
